(** * Speaker-label formatting of the transcription scripts

    A shallow embedding of [format_speaker_labels] of [main.py] and of
    [AudioProcessor.format_speaker_labels] of [app.py], together with the
    stage pipeline of [app.py]'s [main], and the properties the
    specification states about them.

    Text is a list of characters with code points 0..255.  The three
    [re.sub] calls are modelled by a backtracking matcher (every way a
    pattern can consume a prefix, in the order the engine tries them) and
    a left-to-right substitution scanner.  The inline flag [(?i)] in the
    middle of the label pattern is read as the engine reads it when it
    accepts the pattern: as a global flag for the whole pattern. *)

From Stdlib Require Import Ascii String.
From Stdlib Require Import List Arith Lia Bool.
Import ListNotations.
Open Scope list_scope.

(** ** Characters and text *)

Definition text := list ascii.

Definition txt (s : string) : text := list_ascii_of_string s.
Arguments txt s%_string.

Definition nl : ascii := "010"%char.

(** [str.isspace] and the class [\s] on code points below 256. *)
Definition is_space (c : ascii) : bool :=
  let n := nat_of_ascii c in
  ((9 <=? n) && (n <=? 13)) || ((28 <=? n) && (n <=? 32))
  || (n =? 133) || (n =? 160).

(** The class [\d] on code points below 256. *)
Definition is_digit (c : ascii) : bool :=
  let n := nat_of_ascii c in (48 <=? n) && (n <=? 57).

Definition is_nl (c : ascii) : bool := Ascii.eqb c nl.

(** Case folding of the letters a literal of the patterns can contain. *)
Definition lower (c : ascii) : ascii :=
  let n := nat_of_ascii c in
  if (65 <=? n) && (n <=? 90) then ascii_of_nat (n + 32) else c.

(** ** [str.strip] *)

Fixpoint lstrip (s : text) : text :=
  match s with
  | c :: t => if is_space c then lstrip t else s
  | [] => []
  end.

Definition rstrip (s : text) : text := rev (lstrip (rev s)).

Definition strip (s : text) : text := rstrip (lstrip s).

(** ** Backtracking matchers

    A matcher receives whether the current position is the start of the
    string and the remaining input, and returns the remainders left by
    every way of matching, most preferred first. *)

Definition re := bool -> text -> list text.

Definition cls (p : ascii -> bool) : re :=
  fun _ s => match s with
             | c :: t => if p c then [t] else []
             | [] => []
             end.

(** A literal character, case-sensitive and under IGNORECASE. *)
Definition chr (a : ascii) : re := cls (Ascii.eqb a).
Definition chr_i (a : ascii) : re :=
  cls (fun c => Ascii.eqb (lower c) (lower a)).

Definition eps : re := fun _ s => [s].

Definition seq (r1 r2 : re) : re :=
  fun bos s =>
    flat_map (fun s' => r2 (bos && (length s' =? length s)) s') (r1 bos s).

(** Greedy [r?]: first with [r], then without. *)
Definition opt (r : re) : re := fun bos s => r bos s ++ [s].

(** Greedy [c*] on a character class: longest run first. *)
Fixpoint many (p : ascii -> bool) (s : text) : list text :=
  match s with
  | c :: t => if p c then many p t ++ [s] else [s]
  | [] => [[]]
  end.

Definition star (p : ascii -> bool) : re := fun _ s => many p s.
Definition plus (p : ascii -> bool) : re := seq (cls p) (star p).

(** Greedy [c{n,}]. *)
Fixpoint at_least (n : nat) (p : ascii -> bool) : re :=
  match n with
  | 0 => star p
  | S k => seq (cls p) (at_least k p)
  end.

Fixpoint word (w : text) : re :=
  match w with
  | [] => eps
  | a :: w' => seq (chr a) (word w')
  end.

Fixpoint word_i (w : text) : re :=
  match w with
  | [] => eps
  | a :: w' => seq (chr_i a) (word_i w')
  end.

(** [(?=r)] and [(?<!^)]. *)
Definition lookahead (r : re) : re :=
  fun bos s => match r bos s with [] => [] | _ :: _ => [s] end.

Definition not_after_bos : re := fun bos s => if bos then [] else [s].

(** A pattern with groups: each way of matching gives the groups and the
    remainder. *)
Definition pattern (G : Type) := bool -> text -> list (G * text).

Definition no_group (r : re) : pattern unit :=
  fun bos s => map (pair tt) (r bos s).

(** [(r)]: the captured text is what [r] consumed. *)
Definition group (r : re) : pattern text :=
  fun bos s => map (fun s' => (firstn (length s - length s') s, s')) (r bos s).

(** ** [re.sub] *)

Section ReSub.
Context {G : Type}.
Variable pat : pattern G.
Variable repl : G -> text.

  (** The match the engine reports at the current position: the first
      alternative, or the first non-empty one when the previous match was
      empty and ended here. *)
Definition search (advance bos : bool) (s : text) : option (G * nat) :=
    hd_error
      (filter (fun m => negb advance || negb (snd m =? 0))
         (map (fun m => (fst m, length s - length (snd m))) (pat bos s))).

  (** [scan bos skip s]: the output from the current position on, [skip]
      characters of [s] still belonging to the last match. *)
Fixpoint scan (bos : bool) (skip : nat) (s : text) {struct s} : text :=
    match skip with
    | S k => match s with
             | [] => []
             | _ :: t => scan false k t
             end
    | 0 =>
      match search false bos s with
      | None => match s with
                | [] => []
                | c :: t => c :: scan false 0 t
                end
      | Some (g, S k) => repl g ++ match s with
                                   | [] => []
                                   | _ :: t => scan false k t
                                   end
      | Some (g, 0) =>
        repl g ++
        match search true bos s with
        | Some (g', S k) => repl g' ++ match s with
                                       | [] => []
                                       | _ :: t => scan false k t
                                       end
        | _ => match s with
               | [] => []
               | c :: t => c :: scan false 0 t
               end
        end
      end
    end.

Definition re_sub (s : text) : text := scan true 0 s.
End ReSub.

(** ** The three patterns *)

(** [\n{3,}] *)
Definition blank_run : pattern unit := no_group (at_least 3 is_nl).

(** [\[?(?i)speaker\s*(\d+)\]?\s*:] with the flag applied to the whole
    pattern. *)
Definition label_head : re :=
  seq (opt (chr_i "["%char)) (seq (word_i (txt "speaker")) (star is_space)).

Definition label_tail : re :=
  seq (opt (chr_i "]"%char)) (seq (star is_space) (chr_i ":"%char)).

Definition speaker_label : pattern text :=
  fun bos s =>
    flat_map (fun s1 =>
      flat_map (fun m => map (pair (fst m)) (label_tail false (snd m)))
               (group (plus is_digit) false s1))
      (label_head bos s).

(** [(?<!^)(?=<word> \d+:)] *)
Definition turn_body (w : text) : re :=
  seq (word (w ++ txt " ")) (seq (plus is_digit) (chr ":"%char)).

Definition turn_start (w : text) : pattern unit :=
  no_group (seq not_after_bos (lookahead (turn_body w))).

(** ** main.py *)

Module Main.

Definition format_speaker_labels (text0 : text) : text :=
    let formatted_text :=
      re_sub speaker_label (fun n => txt "Speaker " ++ n ++ txt ":") text0 in
    let formatted_text :=
      re_sub (turn_start (txt "Speaker")) (fun _ => [nl; nl]) formatted_text in
    formatted_text.

End Main.

(** ** app.py *)

Module App.

Definition format_speaker_labels (text0 : text) : text :=
    let text1 := re_sub blank_run (fun _ => [nl; nl]) (strip text0) in
    let text2 :=
      re_sub speaker_label (fun n => txt "Suxbatdosh " ++ n ++ txt ":") text1 in
    let text3 :=
      re_sub (turn_start (txt "Suxbatdosh")) (fun _ => [nl; nl]) text2 in
    text3.

End App.

(** ** Notions used to state the properties *)

(** A run ends at the end of the text or at a character outside the
    class. *)
Definition stops (p : ascii -> bool) (r : text) : Prop :=
  match r with [] => True | c :: _ => p c = false end.

(** The marker pattern in the words of the specification: optional "[",
    the word "speaker" in any case, optional whitespace, one or more
    digits, optional "]", optional whitespace, ":".  [Marker m d]: the
    text [m] is such a marker and [d] is its digit sequence. *)
Inductive Marker : text -> text -> Prop :=
| Marker_intro ob w ws1 d cb ws2 :
    ob = [] \/ ob = ["["%char] ->
    map lower w = txt "speaker" ->
    forallb is_space ws1 = true ->
    d <> [] -> forallb is_digit d = true ->
    cb = [] \/ cb = ["]"%char] ->
    forallb is_space ws2 = true ->
    Marker (ob ++ w ++ ws1 ++ d ++ cb ++ ws2 ++ [":"%char]) d.

(** The label pass from a position on, with its replacement function. *)
Definition label_pass (repl : text -> text) (b : bool) : text -> text :=
  scan speaker_label repl b 0.

(** Whether the text starts with the canonical marker sought by the third
    pattern: the word, a space, one or more digits, a colon. *)
Definition starts_turn (w s : text) : bool :=
  match turn_body w false s with [] => false | _ :: _ => true end.

Inductive Turn (w : text) : text -> Prop :=
| Turn_intro d z :
    d <> [] -> forallb is_digit d = true ->
    Turn w (w ++ txt " " ++ d ++ ":"%char :: z).

(** The paragraph pass in closed form: a break before every canonical
    marker, except at the first position of the text. *)
Fixpoint breaks (w s : text) : text :=
  match s with
  | [] => []
  | c :: t => (if starts_turn w s then [nl; nl] else []) ++ c :: breaks w t
  end.

Definition insert_breaks (w s : text) : text :=
  match s with
  | [] => []
  | c :: t => c :: breaks w t
  end.

(** Length of the run of newlines the text starts with. *)
Fixpoint nl_run (s : text) : nat :=
  match s with
  | c :: t => if is_nl c then S (nl_run t) else 0
  | [] => 0
  end.

(** The blank-run pass from a position on. *)
Definition blank_pass (b : bool) : text -> text :=
  scan blank_run (fun _ => [nl; nl]) b 0.

(** No position of the text starts a run of three newlines. *)
Fixpoint no3 (s : text) : bool :=
  match s with
  | [] => true
  | _ :: t => negb (3 <=? nl_run s) && no3 t
  end.

(** The canonical words and replacement texts of the two scripts. *)
Definition speaker : text := txt "Speaker".
Definition suxbatdosh : text := txt "Suxbatdosh".

Definition speaker_repl (n : text) : text := txt "Speaker " ++ n ++ txt ":".
Definition suxbatdosh_repl (n : text) : text := txt "Suxbatdosh " ++ n ++ txt ":".

Definition no_nl (s : text) : bool := forallb (fun c => negb (is_nl c)) s.



(** A text has no leading (trailing) whitespace when its first (last)
    character, if any, is not whitespace. *)
Definition no_leading_space (s : text) : Prop :=
  forall c t, s = c :: t -> is_space c = false.

Definition no_trailing_space (s : text) : Prop :=
  forall t c, s = t ++ [c] -> is_space c = false.

(** Some position of the text starts a canonical marker. *)
Fixpoint any_turn (w s : text) : bool :=
  match s with
  | [] => false
  | _ :: t => starts_turn w s || any_turn w t
  end.

(** A canonical marker occurs in the text past its first position. *)
Definition has_inner_turn (w t : text) : Prop :=
  exists pre m, t = pre ++ m /\ pre <> [] /\ Turn w m.

Definition is_some {A} (o : option A) : bool :=
  match o with Some _ => true | None => false end.

(** Some position of the text starts a match of the label pattern. *)
Fixpoint any_label (s : text) : bool :=
  match s with
  | [] => false
  | _ :: t => is_some (search speaker_label false false s) || any_label t
  end.

(** The two scripts, their formatting function and their canonical word. *)
Inductive script : Set := main_py | app_py.

Definition normalize (v : script) : text -> text :=
  match v with
  | main_py => Main.format_speaker_labels
  | app_py => App.format_speaker_labels
  end.

Definition canonical_word (v : script) : text :=
  match v with
  | main_py => speaker
  | app_py => suxbatdosh
  end.

(** The text contains no substring that is a marker. *)
Definition marker_free (s : text) : Prop :=
  forall pre m d post, s = pre ++ m ++ post -> ~ Marker m d.

(** The replacement of the label substitution of each script, and the
    substitution itself (line 22 of main.py, line 37 of app.py). *)
Definition label_repl (v : script) : text -> text :=
  match v with
  | main_py => speaker_repl
  | app_py => suxbatdosh_repl
  end.

Definition label_sub (v : script) : text -> text :=
  re_sub speaker_label (label_repl v).

(** The characters a marker can start with: "[" and the letter s. *)
Definition starter (c : ascii) : bool :=
  Ascii.eqb c "["%char || Ascii.eqb (lower c) "s"%char.

(** ** app.py with its exceptions, its log and its remote calls

    An exception has a class, the text [str(e)] and, when it was raised
    from another exception, the class and text of that one.  A computation
    runs in a world made of the messages given to [logger.error], the
    stages entered so far (a ghost record), the messages given to
    [st.error] and the texts put on the page; it returns a value or raises,
    and the world is kept either way. *)

Record exn : Set := Exn {
  exn_class : string;
  exn_str : string;
  exn_cause : option (string * string)
}.

Inductive result (A : Type) : Type :=
| Ok (a : A)
| Raise (e : exn).
Arguments Ok {A} a.
Arguments Raise {A} e.

Inductive stage : Set := Transcribe | Identify | Format | Convert | Summarize.

Record world : Type := World {
  w_log : list string;
  w_trace : list stage;
  w_shown : list string;
  w_page : list text
}.

Definition M (A : Type) : Type := world -> result A * world.

Definition ret {A} (a : A) : M A := fun w => (Ok a, w).

Definition bind {A B} (m : M A) (k : A -> M B) : M B :=
  fun w => match m w with
           | (Ok a, w') => k a w'
           | (Raise e, w') => (Raise e, w')
           end.

Definition raise {A} (e : exn) : M A := fun w => (Raise e, w).

Definition lift {A} (r : result A) : M A := fun w => (r, w).

(** [try: m  except Exception as e: h e] *)
Definition try_except {A} (m : M A) (h : exn -> M A) : M A :=
  fun w => match m w with
           | (Ok a, w') => (Ok a, w')
           | (Raise e, w') => h e w'
           end.

Notation "x <- m ;; k" := (bind m (fun x => k))
  (at level 100, m at next level, right associativity).
Notation "m ;;; k" := (bind m (fun _ => k))
  (at level 100, right associativity).

Definition logger_error (msg : string) : M unit :=
  fun w => (Ok tt, World (w_log w ++ [msg]) (w_trace w) (w_shown w) (w_page w)).

Definition st_error (msg : string) : M unit :=
  fun w => (Ok tt, World (w_log w) (w_trace w) (w_shown w ++ [msg]) (w_page w)).

Definition enter (s : stage) : M unit :=
  fun w => (Ok tt, World (w_log w) (w_trace w ++ [s]) (w_shown w) (w_page w)).

Definition show (ts : list text) : M unit :=
  fun w => (Ok tt, World (w_log w) (w_trace w) (w_shown w) (w_page w ++ ts)).

(** The three [re.sub] calls of [format_speaker_labels], and the three
    prompts of the completion calls. *)
Inductive pass : Set := BlankRun | Label | TurnStart.
Inductive prompt : Set := diarization_prompt | conversion_prompt | summary_prompt.

Module AppIO.
Section Services.
(** The regular-expression engine, which may raise; the transcription call
    with the reading of the file and of the answer; the completion call. *)
Variable re_sub_py : pass -> text -> result text.
Variable transcribe : string -> result text.
Variable complete : prompt -> text -> result text.

Definition format_speaker_labels (text0 : text) : M text :=
  try_except
    (enter Format ;;;
     text1 <- lift (re_sub_py BlankRun (strip text0)) ;;
     text2 <- lift (re_sub_py Label text1) ;;
     text3 <- lift (re_sub_py TurnStart text2) ;;
     ret text3)
    (fun e => logger_error ("Formatlashda xatolik: " ++ exn_str e)%string ;;;
              raise e).

Definition transcribe_audio (audio_path : string) : M text :=
  try_except
    (enter Transcribe ;;;
     response <- lift (transcribe audio_path) ;;
     ret response)
    (fun e => logger_error ("Yozib olishda xatolik: " ++ exn_str e)%string ;;;
              raise e).

Definition identify_speakers (transcript : text) : M text :=
  try_except
    (enter Identify ;;;
     response <- lift (complete diarization_prompt transcript) ;;
     ret response)
    (fun e => logger_error ("So'zlovchilarni aniqlashda xatolik: " ++ exn_str e)%string ;;;
              raise e).

Definition convert_to_uzbek (text0 : text) : M text :=
  try_except
    (enter Convert ;;;
     response <- lift (complete conversion_prompt text0) ;;
     ret response)
    (fun e => logger_error ("O'zbek tiliga o'girishda xatolik: " ++ exn_str e)%string ;;;
              raise e).

Definition create_summary (text0 : text) : M text :=
  try_except
    (enter Summarize ;;;
     response <- lift (complete summary_prompt text0) ;;
     ret response)
    (fun e => logger_error ("Tahlil yaratishda xatolik: " ++ exn_str e)%string ;;;
              raise e).

(** The processing of an uploaded file in [main], from the temporary path
    on. *)
Definition main (temp_path : string) : M unit :=
  try_except
    (transcript_result <- transcribe_audio temp_path ;;
     diarized_text <- identify_speakers transcript_result ;;
     formatted_text <- format_speaker_labels diarized_text ;;
     uzbek_text <- convert_to_uzbek formatted_text ;;
     summary <- create_summary uzbek_text ;;
     show [formatted_text; uzbek_text; summary])
    (fun e => st_error ("Xatolik yuz berdi: " ++ exn_str e)%string ;;;
              logger_error ("Qayta ishlashda xatolik: " ++ exn_str e)%string).

(** One of the three substitutions of [format_speaker_labels] raises [e],
    those before it having returned. *)
Definition fails_with (text0 : text) (e : exn) : Prop :=
  re_sub_py BlankRun (strip text0) = Raise e \/
  (exists text1, re_sub_py BlankRun (strip text0) = Ok text1 /\
                 (re_sub_py Label text1 = Raise e \/
                  exists text2, re_sub_py Label text1 = Ok text2 /\
                                re_sub_py TurnStart text2 = Raise e)).
End Services.
End AppIO.

(** The engine that never raises: the substitutions as modelled above. *)
Definition re_sub_total (p : pass) (s : text) : result text :=
  Ok match p with
     | BlankRun => re_sub blank_run (fun _ => [nl; nl]) s
     | Label => re_sub speaker_label suxbatdosh_repl s
     | TurnStart => re_sub (turn_start suxbatdosh) (fun _ => [nl; nl]) s
     end.

(** An engine that rejects the label pattern. *)
Definition re_error : exn :=
  Exn "error" "global flags not at the start of the expression at position 3" None.

Definition re_sub_rejecting (p : pass) (s : text) : result text :=
  match p with
  | Label => Raise re_error
  | _ => re_sub_total p s
  end.

(** A transcription service that cannot be reached. *)
Definition connection_error : exn :=
  Exn "APIConnectionError" "Error communicating with OpenAI" None.

Definition transcribe_failing (_ : string) : result text :=
  Raise connection_error.

Definition complete_echo (_ : prompt) (s : text) : result text := Ok s.

Definition empty_world : world := World [] [] [] [].

(** ** The suffix of the temporary file (app.py, [main])

    ["." + audio_file.name.split(".")[-1]]: [str.split] with a separator
    of one character, the item at index [-1], which raises on an empty
    list, and the dot put in front. *)
Fixpoint split (sep : ascii) (s : text) : list text :=
  match s with
  | [] => [[]]
  | c :: r =>
      if Ascii.eqb c sep then [] :: split sep r
      else match split sep r with
           | p :: ps => (c :: p) :: ps
           | [] => [[c]]
           end
  end.

Definition index_error : exn := Exn "IndexError" "list index out of range" None.

Fixpoint item_last (l : list text) : result text :=
  match l with
  | [] => Raise index_error
  | [x] => Ok x
  | _ :: r => item_last r
  end.

Definition dot : ascii := "."%char.

Definition upload_suffix (name : text) : result text :=
  match item_last (split dot name) with
  | Ok ext => Ok (dot :: ext)
  | Raise e => Raise e
  end.

Definition dot_free (s : text) : bool :=
  forallb (fun c => negb (Ascii.eqb c dot)) s.

(** The stages of [main] in the order in which it calls them, and the
    words each stage puts before the text of an exception in its log
    message. *)
Definition pipeline : list stage :=
  [Transcribe; Identify; Format; Convert; Summarize].

Definition stage_message (s : stage) : string :=
  match s with
  | Transcribe => "Yozib olishda xatolik: "
  | Identify => "So'zlovchilarni aniqlashda xatolik: "
  | Format => "Formatlashda xatolik: "
  | Convert => "O'zbek tiliga o'girishda xatolik: "
  | Summarize => "Tahlil yaratishda xatolik: "
  end.

(** A transcription service that answers with a given text. *)
Definition transcribe_fixed (t : text) (_ : string) : result text := Ok t.

(** ** The temporary file of an upload

    The files on disk, by path, with their content.  [os.path.exists],
    [os.unlink], the disk with given bytes at a path, and
    [open(path, "rb")], which raises when there is no such file. *)
Definition files : Type := string -> option text.

Definition os_path_exists (fs : files) (path : string) : bool :=
  match fs path with
  | Some _ => true
  | None => false
  end.

Definition os_unlink (fs : files) (path : string) : files :=
  fun q => if String.eqb q path then None else fs q.

Definition put_file (fs : files) (path : string) (data : text) : files :=
  fun q => if String.eqb q path then Some data else fs q.

(** What [temp_file.write(data)] does: it writes all the bytes, or it
    raises, having written some of them.  The object that
    [NamedTemporaryFile] returns has the path of the new file as its
    [name] and this [write]. *)
Inductive write_result : Set :=
| Written
| WriteFailed (e : exn) (partial : text).

Record temp_file : Set := TempFile {
  tf_name : string;
  tf_write : text -> write_result
}.

Definition file_not_found (path : string) : exn :=
  Exn "FileNotFoundError"
      ("[Errno 2] No such file or directory: '" ++ path ++ "'") None.

Definition open_rb (fs : files) (path : string) : result text :=
  match fs path with
  | Some data => Ok data
  | None => Raise (file_not_found path)
  end.

(** An uploaded file: its name and its bytes. *)
Record uploaded_file : Set := UploadedFile {
  up_name : text;
  up_value : text
}.

(** ** app.py: [main] from the upload on

    [NamedTemporaryFile(delete=False, suffix=...)] makes the new file and
    returns its object, or raises; [openai.Audio.transcribe] is given the
    bytes read from the file.  The creation of the temporary file and the
    writing of the upload are inside the [try] of [main], so that their
    exceptions are handled as those of the stages are; in both cases
    [temp_path] was not assigned, and the [finally] clause removes nothing:
    a file whose writing failed stays on disk. *)
Module AppPage.
Section Services.
Variable re_sub_py : pass -> text -> result text.
Variable named_temporary_file : files -> text -> result temp_file.
Variable audio_transcribe : text -> result text.
Variable complete : prompt -> text -> result text.

Definition transcribe (fs : files) (audio_path : string) : result text :=
  match open_rb fs audio_path with
  | Ok audio_file => audio_transcribe audio_file
  | Raise e => Raise e
  end.

Definition new_temp_path (audio_file : uploaded_file) (fs : files)
  : result temp_file :=
  match upload_suffix (up_name audio_file) with
  | Ok suffix => named_temporary_file fs suffix
  | Raise e => Raise e
  end.

Definition cleanup (fs : files) (temp_path : string) : files :=
  if os_path_exists fs temp_path then os_unlink fs temp_path else fs.

Definition main (audio_file : option uploaded_file) (fs : files) (w : world)
  : files * world :=
  match audio_file with
  | None => (fs, w)
  | Some f =>
      match new_temp_path f fs with
      | Raise e =>
          (fs,
           snd ((st_error ("Xatolik yuz berdi: " ++ exn_str e)%string ;;;
                 logger_error ("Qayta ishlashda xatolik: " ++ exn_str e)%string)
                  w))
      | Ok temp_file =>
          match tf_write temp_file (up_value f) with
          | WriteFailed e partial =>
              (put_file fs (tf_name temp_file) partial,
               snd ((st_error ("Xatolik yuz berdi: " ++ exn_str e)%string ;;;
                     logger_error
                       ("Qayta ishlashda xatolik: " ++ exn_str e)%string)
                      w))
          | Written =>
              let temp_path := tf_name temp_file in
              let fs1 := put_file fs temp_path (up_value f) in
              (cleanup fs1 temp_path,
               snd (AppIO.main re_sub_py (transcribe fs1) complete temp_path w))
          end
      end
  end.
End Services.
End AppPage.

(** ** main.py: the script from the upload on

    What the script puts on the page, in order.  The temporary file is
    made and written before the [try], with the fixed suffix [".mp3"]: an
    exception of either leaves the script, and a file whose writing failed
    stays on disk.  The functions log nothing and catch nothing. *)
Inductive element : Set :=
| st_subheader (body : string)
| st_markdown (body : text)
| st_write (body : text)
| st_download_button (label : string) (data : text) (file_name : string)
| st_error_box (body : string).

Module MainIO.
Inductive prompt : Set := diarization_prompt | analysis_prompt.

Record results : Set := Results {
  diarized_text : text;
  raw_transcript : text
}.

Section Services.
Variable named_temporary_file : files -> text -> result temp_file.
Variable audio_transcribe : text -> result text.
Variable complete : prompt -> text -> result text.

Definition process_audio_with_diarization (fs : files) (audio_path : string)
  : result results :=
  match open_rb fs audio_path with
  | Raise e => Raise e
  | Ok audio_file =>
      match audio_transcribe audio_file with
      | Raise e => Raise e
      | Ok initial_transcript =>
          match complete diarization_prompt initial_transcript with
          | Raise e => Raise e
          | Ok diarized =>
              Ok (Results (Main.format_speaker_labels diarized)
                          initial_transcript)
          end
      end
  end.

Definition analyze_conversation (diarized : text) : result text :=
  complete analysis_prompt diarized.

(** The body of the [try] with its [except] clause. *)
Definition show_results (fs : files) (temp_file_path : string)
           (page : list element) : list element :=
  match process_audio_with_diarization fs temp_file_path with
  | Raise e =>
      page ++ [st_error_box ("An error occurred: " ++ exn_str e)%string]
  | Ok res =>
      let page1 :=
        page ++ [st_subheader "Diarized Transcript";
                 st_markdown (diarized_text res);
                 st_subheader "Analysis"] in
      match analyze_conversation (diarized_text res) with
      | Raise e =>
          page1 ++ [st_error_box ("An error occurred: " ++ exn_str e)%string]
      | Ok analysis =>
          page1 ++ [st_write analysis;
                    st_download_button "Download Diarized Transcript"
                      (diarized_text res) "diarized_transcript.txt";
                    st_download_button "Download Raw Transcript"
                      (raw_transcript res) "raw_transcript.txt"]
      end
  end.

Definition cleanup (fs : files) (temp_file_path : string) : files :=
  if os_path_exists fs temp_file_path then os_unlink fs temp_file_path
  else fs.

(** The script for an upload, the bytes read from it: how it ends, and
    the disk and the page it leaves.  It raises when the temporary file
    cannot be made or written. *)
Definition script (audio_file : option text) (fs : files)
           (page : list element) : result unit * (files * list element) :=
  match audio_file with
  | None => (Ok tt, (fs, page))
  | Some data =>
      match named_temporary_file fs (txt ".mp3") with
      | Raise e => (Raise e, (fs, page))
      | Ok temp_file =>
          match tf_write temp_file data with
          | WriteFailed e partial =>
              (Raise e, (put_file fs (tf_name temp_file) partial, page))
          | Written =>
              let temp_file_path := tf_name temp_file in
              let fs1 := put_file fs temp_file_path data in
              (Ok tt, (cleanup fs1 temp_file_path,
                       show_results fs1 temp_file_path page))
          end
      end
  end.
End Services.
End MainIO.

(** A maker of temporary files that answers with a file at a given path
    that can be written, one whose file cannot be written beyond its first
    bytes, and one that fails. *)
Definition disk_full : exn :=
  Exn "OSError" "[Errno 28] No space left on device" None.

Definition temp_fixed (path : string) (_ : files) (_ : text)
  : result temp_file :=
  Ok (TempFile path (fun _ => Written)).

Definition temp_unwritable (path : string) (_ : files) (_ : text)
  : result temp_file :=
  Ok (TempFile path (fun data => WriteFailed disk_full (firstn 2 data))).

Definition temp_failing (_ : files) (_ : text) : result temp_file :=
  Raise disk_full.

Definition no_files : files := fun _ => None.

(** Completion services for main.py: one that answers with the text it is
    given, and one that does so but for the analysis, which it refuses. *)
Definition rate_limit_error : exn :=
  Exn "RateLimitError" "Rate limit reached for requests" None.

Definition main_complete_echo (_ : MainIO.prompt) (s : text) : result text :=
  Ok s.

Definition analysis_refused (p : MainIO.prompt) (s : text) : result text :=
  match p with
  | MainIO.analysis_prompt => Raise rate_limit_error
  | MainIO.diarization_prompt => Ok s
  end.

Definition audio_fixed (t : text) (_ : text) : result text := Ok t.

(** ** The blank-run substitution, character by character

    With [n] newlines just before the text, a newline is kept when fewer
    than two newlines come just before it, and every other character is
    kept: the closed form of the first substitution of app.py. *)
Fixpoint cap2 (n : nat) (s : text) : text :=
  match s with
  | [] => []
  | c :: t =>
      if is_nl c then (if n <? 2 then [c] else []) ++ cap2 (S n) t
      else c :: cap2 0 t
  end.

(** ** The text around a label

    The text before a label and the text after it as the label
    substitution meets them: in app.py the input has been trimmed and its
    blank runs collapsed by then.  [lead]: the text before the label after
    the label substitution and the paragraph pass, with the break that
    separates it from the label; nothing when there is no text before. *)
Definition before_label (v : script) (pre : text) : text :=
  match v with
  | main_py => pre
  | app_py => re_sub blank_run (fun _ => [nl; nl]) (lstrip pre)
  end.

Definition after_label (v : script) (post : text) : text :=
  match v with
  | main_py => post
  | app_py => re_sub blank_run (fun _ => [nl; nl]) (rstrip post)
  end.

Definition lead (v : script) (x : text) : text :=
  match x with
  | [] => []
  | _ :: _ => insert_breaks (canonical_word v) (label_sub v x) ++ [nl; nl]
  end.

(** ** The labels of a formatted text

    Every label in the text is the canonical one of its digits, and every
    label in the text is the canonical one of its digits but for a "["
    before it. *)
Definition canonical_labels (repl : text -> text) (z : text) : Prop :=
  forall pre m d post, z = pre ++ m ++ post -> Marker m d -> m = repl d.

Definition bracketed_labels (repl : text -> text) (z : text) : Prop :=
  forall pre m d post, z = pre ++ m ++ post -> Marker m d ->
  exists ob, (ob = [] \/ ob = ["["%char]) /\ m = ob ++ repl d.

(** ** Newlines before the canonical labels

    [breaks_before k w o]: every canonical label of the text past its first
    position has [k] newlines just before it.  [turns_ok] decides it from a
    position on, [n] being the number of newlines just before that
    position, and [inner_turns_ok] for the whole text.  [capped]: from a
    position with [n] newlines just before it, no run of newlines is longer
    than two.  [nl_tail]: the number of newlines a text ends with. *)
Definition breaks_before (k : nat) (w o : text) : Prop :=
  forall pre m, o = pre ++ m -> pre <> [] -> Turn w m ->
  exists p, pre = p ++ repeat nl k.

Fixpoint turns_ok (w : text) (k n : nat) (s : text) : bool :=
  match s with
  | [] => true
  | c :: t =>
      (negb (starts_turn w s) || (k <=? n))
      && turns_ok w k (if is_nl c then S n else 0) t
  end.

Definition inner_turns_ok (w : text) (k : nat) (o : text) : bool :=
  match o with
  | [] => true
  | c :: t => turns_ok w k (if is_nl c then 1 else 0) t
  end.

Fixpoint capped (n : nat) (s : text) : bool :=
  match s with
  | [] => true
  | c :: t => if is_nl c then (n <? 2) && capped (S n) t else capped 0 t
  end.

Definition nl_tail (h : text) : nat := nl_run (rev h).

(** ** Membership in the alternatives of a matcher *)

Lemma in_cls p b s r :
  In r (cls p b s) -> exists c, s = c :: r /\ p c = true.
Proof.
  destruct s as [|c t]; simpl; [tauto|].
  destruct (p c) eqn:E; simpl; [|tauto].
  intros [<-|[]]. now exists c.
Qed.

Lemma in_many p s r :
  In r (many p s) -> exists w, s = w ++ r /\ forallb p w = true.
Proof.
  induction s as [|c t IH]; simpl.
  - intros [<-|[]]. now exists [].
  - destruct (p c) eqn:E.
    + rewrite in_app_iff. intros [H|[<-|[]]].
      * destruct (IH H) as (w & -> & Hw). exists (c :: w). simpl.
        now rewrite E, Hw.
      * now exists [].
    + intros [<-|[]]. now exists [].
Qed.

Lemma in_seq r1 r2 b s r :
  In r (seq r1 r2 b s) -> exists b' s', In s' (r1 b s) /\ In r (r2 b' s').
Proof.
  unfold seq. rewrite in_flat_map. intros (s' & H1 & H2). eauto.
Qed.

Lemma in_opt r1 b s r : In r (opt r1 b s) -> In r (r1 b s) \/ r = s.
Proof.
  unfold opt. rewrite in_app_iff. simpl. intuition.
Qed.

(** ** The preferred alternative of a matcher *)

Lemma hd_flat_map {A B} (f : A -> list B) l a b :
  hd_error l = Some a -> hd_error (f a) = Some b ->
  hd_error (flat_map f l) = Some b.
Proof.
  destruct l as [|x l]; simpl; [discriminate|].
  intros [= ->]. destruct (f a); simpl; [discriminate|]. auto.
Qed.

Lemma hd_map {A B} (f : A -> B) l a :
  hd_error l = Some a -> hd_error (map f l) = Some (f a).
Proof. destruct l; simpl; [discriminate|]. now intros [= ->]. Qed.

Lemma hd_seq (r1 r2 : re) b s s' r :
  hd_error (r1 b s) = Some s' ->
  (forall b', hd_error (r2 b' s') = Some r) ->
  hd_error (seq r1 r2 b s) = Some r.
Proof.
  intros H1 H2. unfold seq. eapply hd_flat_map; eauto.
Qed.

Lemma hd_cls p b c r : p c = true -> hd_error (cls p b (c :: r)) = Some r.
Proof. simpl. now intros ->. Qed.

Lemma hd_many p w r :
  forallb p w = true -> stops p r -> hd_error (many p (w ++ r)) = Some r.
Proof.
  induction w as [|c w IH]; simpl.
  - intros _. destruct r as [|c t]; simpl; [reflexivity|]. now intros ->.
  - destruct (p c); [|discriminate]. simpl. intros Hw Hr.
    specialize (IH Hw Hr). destruct (many p (w ++ r)); [discriminate|].
    exact IH.
Qed.

Lemma hd_opt_yes (r1 : re) b s r :
  hd_error (r1 b s) = Some r -> hd_error (opt r1 b s) = Some r.
Proof. unfold opt. destruct (r1 b s); simpl; [discriminate|auto]. Qed.

Lemma hd_opt_no (r1 : re) b s :
  r1 b s = [] -> hd_error (opt r1 b s) = Some s.
Proof. unfold opt. now intros ->. Qed.

(** ** Character classes *)

Ltac all_chars c :=
  destruct c as [[] [] [] [] [] [] [] []]; vm_compute;
  try reflexivity; try discriminate; try tauto.

Lemma digit_not_space c : is_digit c = true -> is_space c = false.
Proof. all_chars c. Qed.

Lemma digit_not_nl c : is_digit c = true -> is_nl c = false.
Proof. all_chars c. Qed.

Lemma lower_bracket_l c : lower c = lower "["%char -> c = "["%char.
Proof. all_chars c. Qed.

Lemma lower_bracket_r c : lower c = lower "]"%char -> c = "]"%char.
Proof. all_chars c. Qed.

Lemma lower_colon c : lower c = lower ":"%char -> c = ":"%char.
Proof. all_chars c. Qed.

Lemma space_not_bracket_r c :
  is_space c = true -> Ascii.eqb (lower c) (lower "]"%char) = false.
Proof. all_chars c. Qed.

Lemma lower_s_not_bracket c :
  lower c = "s"%char -> Ascii.eqb (lower c) (lower "["%char) = false.
Proof. all_chars c. Qed.

Lemma lower_idem c : lower (lower c) = lower c.
Proof. all_chars c. Qed.

(** ** The label pattern against the marker of the specification *)

Lemma in_word_i w : forall b s r,
  In r (word_i w b s) -> exists m, s = m ++ r /\ map lower m = map lower w.
Proof.
  induction w as [|a w IH]; simpl; intros b s r H.
  - destruct H as [<-|[]]. now exists [].
  - apply in_seq in H. destruct H as (b' & s' & H1 & H2).
    apply (in_cls _ true) in H1. destruct H1 as (c & -> & Hc).
    apply Ascii.eqb_eq in Hc.
    destruct (IH _ _ _ H2) as (m & -> & Hm).
    exists (c :: m). simpl. now rewrite Hc, Hm.
Qed.

Lemma hd_word_i w : forall b m r,
  map lower m = map lower w -> hd_error (word_i w b (m ++ r)) = Some r.
Proof.
  induction w as [|a w IH]; intros b [|c m] r; simpl; try discriminate.
  - reflexivity.
  - intros [= Hc Hm]. eapply hd_seq.
    + apply hd_cls. now apply Ascii.eqb_eq.
    + intros b'. now apply IH.
Qed.

Lemma forallb_hd_stops p q (w r : text) :
  (forall c, p c = true -> q c = false) ->
  w <> [] -> forallb p w = true -> stops q (w ++ r).
Proof.
  intros Hpq Hw Hall. destruct w as [|c w]; [congruence|]. simpl in *.
  apply andb_prop in Hall. now apply Hpq.
Qed.

Lemma speaker_label_sound b s d r :
  In (d, r) (speaker_label b s) -> exists m, s = m ++ r /\ Marker m d.
Proof.
  unfold speaker_label. rewrite in_flat_map. intros (s1 & Hhead & H).
  rewrite in_flat_map in H. destruct H as ([d' s2] & Hgrp & H).
  rewrite in_map_iff in H. destruct H as (r' & [= <- <-] & Htail). simpl in Htail.
  (* the digits *)
  unfold group in Hgrp. rewrite in_map_iff in Hgrp.
  destruct Hgrp as (s2' & [= Hd ->] & Hplus).
  apply in_seq in Hplus. destruct Hplus as (b1 & t1 & Hc & Hrun).
  apply (in_cls _ true) in Hc. destruct Hc as (c & -> & Hc).
  apply in_many in Hrun. destruct Hrun as (ds & -> & Hds).
  assert (Hdig : d' = c :: ds).
  { rewrite <- Hd. change (c :: ds ++ s2) with ((c :: ds) ++ s2).
    rewrite length_app, Nat.add_sub.
    rewrite firstn_app, Nat.sub_diag, firstn_all. simpl. now rewrite app_nil_r. }
  subst d'.
  (* the head *)
  unfold label_head in Hhead.
  apply in_seq in Hhead. destruct Hhead as (b2 & s0 & Hob & Hhead).
  apply in_seq in Hhead. destruct Hhead as (b3 & s0' & Hw & Hws).
  apply in_word_i in Hw. destruct Hw as (w & -> & Hw).
  apply in_many in Hws. destruct Hws as (ws1 & -> & Hws1).
  (* the tail *)
  unfold label_tail in Htail.
  apply in_seq in Htail. destruct Htail as (b4 & u & Hcb & Htail).
  apply in_seq in Htail. destruct Htail as (b5 & u' & Hws2 & Hcolon).
  apply in_many in Hws2. destruct Hws2 as (ws2 & -> & Hws2).
  apply (in_cls _ true) in Hcolon. destruct Hcolon as (k & -> & Hk).
  apply Ascii.eqb_eq, lower_colon in Hk. subst k.
  assert (Hm : forall ob cb, ob = [] \/ ob = ["["%char] -> cb = [] \/ cb = ["]"%char] ->
               Marker (ob ++ w ++ ws1 ++ (c :: ds) ++ cb ++ ws2 ++ [":"%char]) (c :: ds)).
  { intros ob cb Hob' Hcb'. constructor; auto; try discriminate.
    simpl. now rewrite Hc, Hds. }
  assert (Ho : exists ob, (ob = [] \/ ob = ["["%char]) /\
                         s = ob ++ w ++ ws1 ++ c :: ds ++ s2).
  { apply in_opt in Hob. destruct Hob as [Hob|Hob].
    - apply (in_cls _ true) in Hob. destruct Hob as (o & -> & Ho).
      apply Ascii.eqb_eq, lower_bracket_l in Ho. subst o.
      exists ["["%char]. auto.
    - exists []. auto. }
  assert (Hq : exists cb, (cb = [] \/ cb = ["]"%char]) /\
                         s2 = cb ++ ws2 ++ ":"%char :: r').
  { apply in_opt in Hcb. destruct Hcb as [Hcb|Hcb].
    - apply (in_cls _ true) in Hcb. destruct Hcb as (q & -> & Hq).
      apply Ascii.eqb_eq, lower_bracket_r in Hq. subst q.
      exists ["]"%char]. auto.
    - exists []. auto. }
  destruct Ho as (ob & Hob' & ->). destruct Hq as (cb & Hcb' & ->).
  exists (ob ++ w ++ ws1 ++ (c :: ds) ++ cb ++ ws2 ++ [":"%char]).
  split; [|rewrite Hdig; apply Hm; auto].
  repeat (rewrite <- ?app_assoc; simpl). reflexivity.
Qed.

Lemma space_not_digit c : is_space c = true -> is_digit c = false.
Proof. all_chars c. Qed.

Lemma tail_stops_digit cb ws2 (z : text) :
  cb = [] \/ cb = ["]"%char] -> forallb is_space ws2 = true ->
  stops is_digit (cb ++ ws2 ++ ":"%char :: z).
Proof.
  intros [->| ->] Hws; simpl; [|reflexivity].
  destruct ws2 as [|c ws2]; simpl in *; [reflexivity|].
  apply andb_prop in Hws. now apply space_not_digit.
Qed.

Lemma hd_label_tail cb ws2 (z : text) b :
  cb = [] \/ cb = ["]"%char] -> forallb is_space ws2 = true ->
  hd_error (label_tail b (cb ++ ws2 ++ ":"%char :: z)) = Some z.
Proof.
  intros Hcb Hws. unfold label_tail.
  assert (Hrest : forall b', hd_error
            (seq (star is_space) (chr_i ":"%char) b' (ws2 ++ ":"%char :: z)) = Some z).
  { intros b'. eapply hd_seq.
    - unfold star. apply hd_many; [assumption|reflexivity].
    - intros b''. now apply (hd_cls _ true). }
  eapply hd_seq; [|exact Hrest].
  destruct Hcb as [->| ->]; simpl app.
  - apply hd_opt_no. destruct ws2 as [|c ws2]; simpl in *; [reflexivity|].
    apply andb_prop in Hws. destruct Hws as [Hc _].
    now rewrite (space_not_bracket_r _ Hc).
  - apply hd_opt_yes. now apply (hd_cls _ true).
Qed.

Lemma hd_label_head ob w ws1 (z : text) b :
  ob = [] \/ ob = ["["%char] -> map lower w = txt "speaker" ->
  forallb is_space ws1 = true -> stops is_space z ->
  hd_error (label_head b (ob ++ w ++ ws1 ++ z)) = Some z.
Proof.
  intros Hob Hw Hws Hz. unfold label_head.
  assert (Hrest : forall b', hd_error
            (seq (word_i (txt "speaker")) (star is_space) b' (w ++ ws1 ++ z)) = Some z).
  { intros b'. eapply hd_seq.
    - apply hd_word_i. rewrite Hw. reflexivity.
    - intros b''. unfold star. now apply hd_many. }
  eapply hd_seq; [|exact Hrest].
  destruct Hob as [->| ->]; simpl app.
  - apply hd_opt_no.
    destruct w as [|c w]; [discriminate|]. simpl in Hw. injection Hw as Hc _.
    simpl. now rewrite (lower_s_not_bracket _ Hc).
  - apply hd_opt_yes. now apply (hd_cls _ true).
Qed.

Lemma hd_group_digits d (z : text) b :
  d <> [] -> forallb is_digit d = true -> stops is_digit z ->
  hd_error (group (plus is_digit) b (d ++ z)) = Some (d, z).
Proof.
  intros Hd Hall Hz. destruct d as [|c d]; [congruence|]. simpl in Hall.
  apply andb_prop in Hall. destruct Hall as [Hc Hall].
  unfold group.
  assert (H : hd_error (plus is_digit b ((c :: d) ++ z)) = Some z).
  { unfold plus. eapply hd_seq.
    - simpl. apply (hd_cls _ b). exact Hc.
    - intros b'. unfold star. now apply hd_many. }
  rewrite (hd_map _ _ _ H). f_equal. f_equal.
  rewrite length_app, Nat.add_sub, firstn_app, Nat.sub_diag, firstn_all.
  simpl. now rewrite app_nil_r.
Qed.

(** The pattern matches a marker at the current position, consuming
    exactly the marker and capturing its digits. *)
Lemma speaker_label_complete m d z b :
  Marker m d -> hd_error (speaker_label b (m ++ z)) = Some (d, z).
Proof.
  intros H. destruct H as [ob w ws1 d cb ws2 Hob Hw Hws1 Hd Hdig Hcb Hws2].
  unfold speaker_label.
  eapply hd_flat_map with (a := d ++ cb ++ ws2 ++ ":"%char :: z).
  - replace ((ob ++ w ++ ws1 ++ d ++ cb ++ ws2 ++ [":"%char]) ++ z)
      with (ob ++ w ++ ws1 ++ (d ++ cb ++ ws2 ++ ":"%char :: z)).
    + apply hd_label_head; auto.
      now apply (forallb_hd_stops is_digit is_space); auto using digit_not_space.
    + repeat (rewrite <- ?app_assoc; simpl). reflexivity.
  - eapply hd_flat_map.
    + apply hd_group_digits; auto. now apply tail_stops_digit.
    + simpl. apply hd_map. now apply hd_label_tail.
Qed.

(** ** The scanner *)

Section ScanFacts.
Context {G : Type}.
Variable pat : pattern G.
Variable repl : G -> text.

Lemma search_first b s :
    search pat false b s
    = option_map (fun m => (fst m, length s - length (snd m)))
                 (hd_error (pat b s)).
  Proof.
    unfold search. destruct (pat b s) as [|m l]; reflexivity.
  Qed.

Lemma scan_skip (x z : text) :
    scan pat repl false (length x) (x ++ z) = scan pat repl false 0 z.
  Proof.
    induction x as [|c x IH]; [reflexivity|]. simpl. exact IH.
  Qed.

Lemma scan_copy b c t :
    search pat false b (c :: t) = None ->
    scan pat repl b 0 (c :: t) = c :: scan pat repl false 0 t.
  Proof. intros H. simpl. now rewrite H. Qed.

Lemma scan_replace b g (m z : text) :
    m <> [] -> search pat false b (m ++ z) = Some (g, length m) ->
    scan pat repl b 0 (m ++ z) = repl g ++ scan pat repl false 0 z.
  Proof.
    intros Hm H. destruct m as [|c m]; [congruence|].
    simpl app in *. simpl length in H. simpl scan. rewrite H.
    now rewrite scan_skip.
  Qed.

Lemma scan_unfold b s :
  scan pat repl b 0 s
  = let copy := match s with [] => [] | c :: t => c :: scan pat repl false 0 t end in
    match search pat false b s with
    | None => copy
    | Some (g, S k) =>
      repl g ++ match s with [] => [] | _ :: t => scan pat repl false k t end
    | Some (g, 0) =>
      repl g ++
      match search pat true b s with
      | Some (g', S k) =>
        repl g' ++ match s with [] => [] | _ :: t => scan pat repl false k t end
      | _ => copy
      end
    end.
Proof. destruct s; reflexivity. Qed.

Lemma scan_nil_nomatch b :
    search pat false b [] = None -> scan pat repl b 0 [] = [].
  Proof. intros H. simpl. now rewrite H. Qed.
End ScanFacts.

Lemma speaker_label_bos b s : speaker_label b s = speaker_label false s.
Proof. reflexivity. Qed.

(** ** The label pass *)

Lemma Marker_nonempty m d : Marker m d -> m <> [].
Proof.
  intros H. destruct H as [ob w ws1 d cb ws2 _ Hw _ _ _ _ _].
  destruct w as [|c w]; [discriminate|].
  destruct ob; discriminate.
Qed.

Lemma search_label_complete m d z b :
  Marker m d -> search speaker_label false b (m ++ z) = Some (d, length m).
Proof.
  intros H. rewrite search_first, (speaker_label_complete m d z b H).
  simpl. now rewrite length_app, Nat.add_sub.
Qed.

Lemma search_label_sound b s d n :
  search speaker_label false b s = Some (d, n) ->
  exists m r, s = m ++ r /\ n = length m /\ Marker m d.
Proof.
  rewrite search_first.
  destruct (speaker_label b s) as [|[d' r] l] eqn:E; [discriminate|].
  simpl. intros [= <- <-].
  assert (Hin : In (d', r) (speaker_label b s)) by (rewrite E; now left).
  apply speaker_label_sound in Hin. destruct Hin as (m & -> & Hm).
  exists m, r. now rewrite length_app, Nat.add_sub.
Qed.

(** A position where the label pattern does not match starts no marker. *)
Lemma search_label_none b s :
  search speaker_label false b s = None ->
  forall m d z, s = m ++ z -> ~ Marker m d.
Proof.
  intros H m d z -> Hm. now rewrite (search_label_complete m d z b Hm) in H.
Qed.

Lemma search_label_bos b s :
  search speaker_label false b s = search speaker_label false false s.
Proof. reflexivity. Qed.

Section LabelPass.
Variable repl : text -> text.

Lemma label_pass_bos b s : label_pass repl b s = label_pass repl false s.
  Proof.
    unfold label_pass. destruct s as [|c t]; reflexivity.
  Qed.

Lemma label_pass_nil b : label_pass repl b [] = [].
  Proof. reflexivity. Qed.

Lemma label_pass_marker b m d z :
    Marker m d -> label_pass repl b (m ++ z) = repl d ++ label_pass repl false z.
  Proof.
    intros H. unfold label_pass. apply scan_replace.
    - eapply Marker_nonempty; eauto.
    - now apply search_label_complete.
  Qed.

Lemma label_pass_copy b c t :
    search speaker_label false false (c :: t) = None ->
    label_pass repl b (c :: t) = c :: label_pass repl false t.
  Proof.
    intros H. unfold label_pass. apply scan_copy. now rewrite search_label_bos.
  Qed.

  (** One step of the pass: either the text starts with a marker, which is
      replaced, or its first character is copied. *)
Lemma label_pass_step b s :
    (exists m d z, s = m ++ z /\ Marker m d /\
                   label_pass repl b s = repl d ++ label_pass repl false z) \/
    (exists c t, s = c :: t /\ search speaker_label false false s = None /\
                 label_pass repl b s = c :: label_pass repl false t) \/
    (s = [] /\ label_pass repl b s = []).
  Proof.
    destruct s as [|c t]; [right; right; auto|].
    destruct (search speaker_label false false (c :: t)) as [[d n]|] eqn:E.
    - left. apply search_label_sound in E. destruct E as (m & r & Hs & _ & Hm).
      exists m, d, r. rewrite Hs. repeat split; auto.
      now apply label_pass_marker.
    - right. left. exists c, t. repeat split; auto. now apply label_pass_copy.
  Qed.
End LabelPass.

(** ** The paragraph pass *)

Lemma in_word w : forall b s r, In r (word w b s) -> s = w ++ r.
Proof.
  induction w as [|a w IH]; simpl; intros b s r H.
  - now destruct H as [<-|[]].
  - apply in_seq in H. destruct H as (b' & s' & H1 & H2).
    apply (in_cls _ true) in H1. destruct H1 as (c & -> & Hc).
    apply Ascii.eqb_eq in Hc. subst c. f_equal. eauto.
Qed.

Lemma hd_word w : forall b r, hd_error (word w b (w ++ r)) = Some r.
Proof.
  induction w as [|a w IH]; intros b r; simpl; [reflexivity|].
  eapply hd_seq.
  - apply (hd_cls _ true). apply Ascii.eqb_refl.
  - intros b'. apply IH.
Qed.

Lemma starts_turn_iff w s : starts_turn w s = true <-> Turn w s.
Proof.
  unfold starts_turn, turn_body. split.
  - destruct (seq _ _ false s) as [|r l] eqn:E; [discriminate|]. intros _.
    assert (H : In r (seq (word (w ++ txt " ")) (seq (plus is_digit) (chr ":"%char)) false s))
      by (rewrite E; now left).
    apply in_seq in H. destruct H as (b1 & s1 & Hw & H).
    apply in_word in Hw. subst s.
    apply in_seq in H. destruct H as (b2 & s2 & Hd & Hc).
    apply in_seq in Hd. destruct Hd as (b3 & s3 & Hd1 & Hd2).
    apply (in_cls _ true) in Hd1. destruct Hd1 as (c & -> & Hc1).
    apply in_many in Hd2. destruct Hd2 as (ds & -> & Hds).
    apply (in_cls _ true) in Hc. destruct Hc as (k & -> & Hk).
    apply Ascii.eqb_eq in Hk. subst k.
    rewrite <- app_assoc.
    apply (Turn_intro w (c :: ds) r); [discriminate|].
    simpl. now rewrite Hc1, Hds.
  - intros [d z Hd Hall].
    assert (H : hd_error (seq (word (w ++ txt " ")) (seq (plus is_digit) (chr ":"%char))
                            false (w ++ txt " " ++ d ++ ":"%char :: z)) = Some z).
    { rewrite app_assoc. eapply hd_seq; [apply hd_word|]. intros b'.
      eapply hd_seq with (s' := ":"%char :: z).
      - destruct d as [|c d]; [congruence|]. simpl in Hall.
        apply andb_prop in Hall. destruct Hall as [Hc Hall].
        unfold plus. eapply hd_seq.
        + apply (hd_cls _ true). exact Hc.
        + intros b''. unfold star. now apply hd_many.
      - intros b''. apply (hd_cls _ true). reflexivity. }
    destruct (seq _ _ false _); [discriminate|reflexivity].
Qed.

Lemma not_Turn_nil w : ~ Turn w [].
Proof.
  intros H. inversion H as [d z Hd Hall E].
  apply app_eq_nil in E. destruct E as [_ E]. discriminate.
Qed.

Lemma starts_turn_nil w : starts_turn w [] = false.
Proof.
  destruct (starts_turn w []) eqn:E; [|reflexivity].
  apply starts_turn_iff in E. now apply not_Turn_nil in E.
Qed.

Lemma turn_start_eq w b s :
  turn_start w b s
  = if b then [] else if starts_turn w s then [(tt, s)] else [].
Proof.
  unfold turn_start, no_group, seq, not_after_bos, lookahead, starts_turn.
  destruct b; simpl; [reflexivity|].
  destruct (turn_body w false s); reflexivity.
Qed.

Lemma search_turn w adv b s :
  search (turn_start w) adv b s
  = if b then None
    else if starts_turn w s then (if adv then None else Some (tt, 0))
         else None.
Proof.
  unfold search. rewrite turn_start_eq.
  destruct b; [reflexivity|]. destruct (starts_turn w s); [|reflexivity].
  simpl. rewrite Nat.sub_diag. destruct adv; reflexivity.
Qed.

Lemma scan_turn w r s :
  scan (turn_start w) (fun _ => r) false 0 s
  = match s with
    | [] => []
    | c :: t => (if starts_turn w s then r else [])
                ++ c :: scan (turn_start w) (fun _ => r) false 0 t
    end.
Proof.
  rewrite scan_unfold, !search_turn. destruct s as [|c t].
  - rewrite starts_turn_nil. reflexivity.
  - destruct (starts_turn w (c :: t)); reflexivity.
Qed.

Lemma scan_turn_breaks w s :
  scan (turn_start w) (fun _ => [nl; nl]) false 0 s = breaks w s.
Proof.
  induction s as [|c t IH]; rewrite scan_turn; [reflexivity|].
  simpl breaks. now rewrite IH.
Qed.

(** The third [re.sub] call inserts a break before every canonical marker
    that is not at the start of the text. *)
Lemma turn_pass_eq w s :
  re_sub (turn_start w) (fun _ => [nl; nl]) s = insert_breaks w s.
Proof.
  unfold re_sub. rewrite scan_unfold, search_turn. destruct s as [|c t].
  - reflexivity.
  - simpl. now rewrite scan_turn_breaks.
Qed.

(** ** The blank-run pass *)

Lemma in_at_least n p : forall b s r,
  In r (at_least n p b s) ->
  exists w, s = w ++ r /\ forallb p w = true /\ n <= length w.
Proof.
  induction n as [|n IH]; simpl; intros b s r H.
  - apply in_many in H. destruct H as (w & -> & Hw). exists w. auto with arith.
  - apply in_seq in H. destruct H as (b' & s' & H1 & H2).
    apply (in_cls _ true) in H1. destruct H1 as (c & -> & Hc).
    destruct (IH _ _ _ H2) as (w & -> & Hw & Hn).
    exists (c :: w). simpl. rewrite Hc, Hw. auto with arith.
Qed.

Lemma hd_at_least n p : forall b w r,
  n <= length w -> forallb p w = true -> stops p r ->
  hd_error (at_least n p b (w ++ r)) = Some r.
Proof.
  induction n as [|n IH]; intros b w r Hn Hw Hr.
  - simpl. now apply hd_many.
  - destruct w as [|c w]; [inversion Hn|]. simpl in *.
    apply andb_prop in Hw. destruct Hw as [Hc Hw].
    eapply hd_seq.
    + apply (hd_cls _ true). exact Hc.
    + intros b'. apply IH; auto with arith.
Qed.

Lemma nl_run_split s :
  exists w r, s = w ++ r /\ forallb is_nl w = true /\ stops is_nl r /\
              length w = nl_run s.
Proof.
  induction s as [|c t IH]; simpl.
  - exists [], []. simpl. auto.
  - destruct (is_nl c) eqn:E.
    + destruct IH as (w & r & -> & Hw & Hr & Hn).
      exists (c :: w), r. simpl. rewrite E, Hw, Hn. auto.
    + exists [], (c :: t). simpl. auto.
Qed.

Lemma nl_run_app w r :
  forallb is_nl w = true -> stops is_nl r -> nl_run (w ++ r) = length w.
Proof.
  induction w as [|c w IH]; simpl; intros Hw Hr.
  - destruct r as [|c t]; simpl in *; [reflexivity|]. now rewrite Hr.
  - apply andb_prop in Hw. destruct Hw as [-> Hw]. now rewrite IH.
Qed.

Lemma forallb_prefix_le p (w w' r r' : text) :
  w ++ r = w' ++ r' -> forallb p w' = true -> stops p r -> length w' <= length w.
Proof.
  revert w'. induction w as [|c w IH]; intros [|c' w'] E Hw' Hr; simpl in *;
    auto with arith.
  - subst r. simpl in Hr. apply andb_prop in Hw'. destruct Hw' as [Hc _].
    congruence.
  - injection E as -> E. apply andb_prop in Hw'. destruct Hw' as [_ Hw'].
    apply le_n_S. eauto.
Qed.

Lemma search_blank b s :
  search blank_run false b s
  = if 3 <=? nl_run s then Some (tt, nl_run s) else None.
Proof.
  rewrite search_first. unfold blank_run, no_group.
  destruct (nl_run_split s) as (w & r & -> & Hw & Hr & Hn).
  destruct (3 <=? nl_run (w ++ r)) eqn:E.
  - apply Nat.leb_le in E. rewrite <- Hn in E.
    rewrite (hd_map _ _ _ (hd_at_least 3 is_nl b w r E Hw Hr)). simpl.
    now rewrite length_app, Nat.add_sub, Hn.
  - apply Nat.leb_gt in E.
    destruct (at_least 3 is_nl b (w ++ r)) as [|r' l] eqn:El; [reflexivity|].
    assert (Hin : In r' (at_least 3 is_nl b (w ++ r))) by (rewrite El; now left).
    apply in_at_least in Hin. destruct Hin as (w' & E' & Hw' & Hn').
    pose proof (forallb_prefix_le _ _ _ _ _ E' Hw' Hr). lia.
Qed.

Lemma blank_pass_bos b s : blank_pass b s = blank_pass false s.
Proof.
  unfold blank_pass. rewrite !scan_unfold, !search_blank. reflexivity.
Qed.

Lemma blank_pass_nil b : blank_pass b [] = [].
Proof. reflexivity. Qed.

(** A character that is not a newline is copied. *)
Lemma blank_pass_char b c t :
  is_nl c = false -> blank_pass b (c :: t) = c :: blank_pass false t.
Proof.
  intros Hc. unfold blank_pass. apply scan_copy.
  rewrite search_blank. simpl. now rewrite Hc.
Qed.

(** A run of three or more newlines becomes two newlines. *)
Lemma blank_pass_long b w r :
  forallb is_nl w = true -> stops is_nl r -> 3 <= length w ->
  blank_pass b (w ++ r) = [nl; nl] ++ blank_pass false r.
Proof.
  intros Hw Hr Hn. unfold blank_pass.
  apply (scan_replace blank_run (fun _ => [nl; nl]) b tt).
  - destruct w; [inversion Hn|discriminate].
  - rewrite search_blank, (nl_run_app _ _ Hw Hr).
    apply Nat.leb_le in Hn. now rewrite Hn.
Qed.

(** A run of one or two newlines is copied. *)
Lemma blank_pass_short b w r :
  forallb is_nl w = true -> stops is_nl r -> length w < 3 ->
  blank_pass b (w ++ r) = w ++ blank_pass false r.
Proof.
  revert b. induction w as [|c w IH]; intros b Hw Hr Hn.
  - simpl. apply blank_pass_bos.
  - simpl in Hw. apply andb_prop in Hw. destruct Hw as [Hc Hw].
    simpl app. unfold blank_pass. rewrite scan_copy.
    + f_equal. apply IH; auto. simpl in Hn. lia.
    + rewrite search_blank.
      change (c :: w ++ r) with ((c :: w) ++ r).
      rewrite nl_run_app; [|simpl; now rewrite Hc, Hw|assumption].
      apply Nat.leb_gt in Hn. now rewrite Hn.
Qed.

(** ** The two functions as compositions of the passes *)

Lemma main_format_eq s :
  Main.format_speaker_labels s
  = insert_breaks speaker (label_pass speaker_repl true s).
Proof.
  unfold Main.format_speaker_labels. now rewrite turn_pass_eq.
Qed.

Lemma app_format_eq s :
  App.format_speaker_labels s
  = insert_breaks suxbatdosh
      (label_pass suxbatdosh_repl true (blank_pass true (strip s))).
Proof.
  unfold App.format_speaker_labels. now rewrite turn_pass_eq.
Qed.

(** ** Breaks and canonical markers *)


Lemma no_nl_app x y : no_nl (x ++ y) = no_nl x && no_nl y.
Proof. apply forallb_app. Qed.

Lemma digits_no_nl d : forallb is_digit d = true -> no_nl d = true.
Proof.
  induction d as [|c d IH]; simpl; [reflexivity|]. intros H.
  apply andb_prop in H. destruct H as [Hc Hd].
  now rewrite (digit_not_nl _ Hc), IH.
Qed.

(** A text without newline that the output of [breaks] starts with is
    copied from the input. *)
Lemma breaks_prefix w x : forall t z,
  no_nl x = true -> breaks w t = x ++ z -> exists z', t = x ++ z'.
Proof.
  induction x as [|a x IH]; intros t z Hx E.
  - now exists t.
  - simpl in Hx. apply andb_prop in Hx. destruct Hx as [Ha Hx].
    apply negb_true_iff in Ha.
    destruct t as [|c t]; [discriminate|]. simpl in E.
    destruct (starts_turn w (c :: t)).
    + simpl in E. injection E as <- _. discriminate.
    + simpl in E. injection E as <- E.
      destruct (IH _ _ Hx E) as (z' & ->). now exists z'.
Qed.

Lemma Turn_through_breaks w c t :
  no_nl w = true -> Turn w (c :: breaks w t) -> Turn w (c :: t).
Proof.
  intros Hw H. inversion H as [d z Hd Hall E].
  assert (Hx : no_nl (w ++ txt " " ++ d ++ [":"%char]) = true).
  { rewrite !no_nl_app, Hw, (digits_no_nl _ Hall). reflexivity. }
  destruct (w ++ txt " " ++ d ++ [":"%char]) as [|a x] eqn:Ex.
  { destruct w; discriminate. }
  assert (E' : c :: breaks w t = (a :: x) ++ z).
  { rewrite <- Ex, <- E. repeat (rewrite <- ?app_assoc; simpl). reflexivity. }
  simpl in E'. injection E' as <- E'.
  simpl in Hx. apply andb_prop in Hx. destruct Hx as [_ Hx].
  destruct (breaks_prefix w x t z Hx E') as (z' & ->).
  change (c :: x ++ z') with ((c :: x) ++ z'). rewrite <- Ex.
  replace ((w ++ txt " " ++ d ++ [":"%char]) ++ z')
    with (w ++ txt " " ++ d ++ ":"%char :: z')
    by (repeat (rewrite <- ?app_assoc; simpl); reflexivity).
  now constructor.
Qed.



(** ** Whitespace at the ends of a text *)

Lemma text_length_ind (P : list ascii -> Prop) :
  (forall s : list ascii, (forall t : list ascii, length t < length s -> P t) -> P s) ->
  forall s : list ascii, P s.
Proof.
  intros H s. remember (length s) as n eqn:E. revert s E.
  induction n as [n IH] using lt_wf_ind. intros s ->.
  apply H. intros t Ht. now apply (IH (length t)).
Qed.

Lemma nl_is_space c : is_nl c = true -> is_space c = true.
Proof. all_chars c. Qed.

Lemma not_space_not_nl c : is_space c = false -> is_nl c = false.
Proof. all_chars c. Qed.

Lemma no_leading_stops s : no_leading_space s <-> stops is_space s.
Proof.
  unfold no_leading_space. destruct s as [|c t]; simpl; split; auto.
  - discriminate.
  - intros H. now apply (H c t).
  - intros H c' t' [= <- <-]. exact H.
Qed.

Lemma no_trailing_stops s : no_trailing_space s <-> stops is_space (rev s).
Proof.
  unfold no_trailing_space. split.
  - intros H. destruct (rev s) as [|c t] eqn:E; simpl; [exact I|].
    apply (H (rev t) c). rewrite <- (rev_involutive s), E. reflexivity.
  - intros H t c ->. rewrite rev_app_distr in H. exact H.
Qed.

Lemma stops_rev_app p (x y : text) :
  y <> [] -> stops p (rev y) -> stops p (rev (x ++ y)).
Proof.
  intros Hy H. rewrite rev_app_distr.
  destruct (rev y) as [|c t] eqn:E.
  - apply (f_equal (@rev ascii)) in E. rewrite rev_involutive in E.
    simpl in E. contradiction.
  - exact H.
Qed.

Lemma stops_rev_tail p (x y : text) :
  y <> [] -> stops p (rev (x ++ y)) -> stops p (rev y).
Proof.
  intros Hy H. rewrite rev_app_distr in H.
  destruct (rev y) as [|c t] eqn:E.
  - exact I.
  - exact H.
Qed.

Lemma lstrip_spec s :
  exists a, s = a ++ lstrip s /\ forallb is_space a = true /\
            stops is_space (lstrip s).
Proof.
  induction s as [|c t IH]; simpl.
  - now exists [].
  - destruct (is_space c) eqn:E.
    + destruct IH as (a & Ht & Ha & Hs). exists (c :: a). simpl.
      rewrite E, Ha. repeat split; auto. now rewrite <- Ht.
    + exists []. simpl. auto.
Qed.

Lemma forallb_rev p (a : text) : forallb p (rev a) = forallb p a.
Proof.
  induction a as [|c a IH]; simpl; [reflexivity|].
  rewrite forallb_app, IH. simpl. rewrite andb_true_r. apply andb_comm.
Qed.

Lemma rstrip_spec s :
  exists b, s = rstrip s ++ b /\ forallb is_space b = true /\
            stops is_space (rev (rstrip s)).
Proof.
  unfold rstrip. destruct (lstrip_spec (rev s)) as (a & E & Ha & Hs).
  exists (rev a). repeat split.
  - rewrite <- rev_app_distr, <- E. symmetry. apply rev_involutive.
  - now rewrite forallb_rev.
  - now rewrite rev_involutive.
Qed.

(** [strip] removes a run of whitespace at each end and nothing else, and
    leaves no whitespace at either end. *)
Lemma strip_spec s :
  exists a b, s = a ++ strip s ++ b /\
              forallb is_space a = true /\ forallb is_space b = true /\
              stops is_space (strip s) /\ stops is_space (rev (strip s)).
Proof.
  unfold strip. destruct (lstrip_spec s) as (a & E & Ha & Hs).
  destruct (rstrip_spec (lstrip s)) as (b & E' & Hb & He).
  exists a, b. repeat split; auto.
  - now rewrite <- E', <- E.
  - destruct (rstrip (lstrip s)) as [|c t] eqn:Er; [exact I|].
    rewrite E' in Hs. exact Hs.
Qed.

Lemma lstrip_fixed s : stops is_space s -> lstrip s = s.
Proof. destruct s as [|c t]; simpl; [reflexivity|]. now intros ->. Qed.

Lemma strip_fixed s :
  stops is_space s -> stops is_space (rev s) -> strip s = s.
Proof.
  intros H1 H2. unfold strip, rstrip.
  now rewrite (lstrip_fixed _ H1), (lstrip_fixed _ H2), rev_involutive.
Qed.

(** ** The passes keep the ends of a text free of whitespace *)

Lemma blank_pass_nonempty b s : s <> [] -> blank_pass b s <> [].
Proof.
  intros Hs. destruct (nl_run_split s) as (w & r & -> & Hw & Hr & Hn).
  destruct w as [|c w].
  - simpl in *. destruct r as [|c t]; [contradiction|].
    simpl in Hr. rewrite (blank_pass_char _ _ _ Hr). discriminate.
  - destruct (le_lt_dec 3 (length (c :: w))) as [H|H].
    + rewrite (blank_pass_long _ _ _ Hw Hr H). discriminate.
    + rewrite (blank_pass_short _ _ _ Hw Hr H). discriminate.
Qed.

Lemma blank_pass_head b s :
  stops is_space s -> stops is_space (blank_pass b s).
Proof.
  destruct s as [|c t]; simpl; [intros _; exact I|]. intros Hc.
  rewrite (blank_pass_char _ _ _ (not_space_not_nl _ Hc)). exact Hc.
Qed.

Lemma forallb_nl_space w : forallb is_nl w = true -> forallb is_space w = true.
Proof.
  induction w as [|c w IH]; simpl; [reflexivity|]. intros H.
  apply andb_prop in H. destruct H as [Hc Hw].
  now rewrite (nl_is_space _ Hc), IH.
Qed.

Lemma stops_rev_all p (w : text) :
  w <> [] -> forallb p w = true -> ~ stops p (rev w).
Proof.
  intros Hw Hall H. rewrite <- forallb_rev in Hall.
  destruct (rev w) as [|c t] eqn:E.
  - apply (f_equal (@rev ascii)) in E. rewrite rev_involutive in E.
    simpl in E. contradiction.
  - simpl in *. apply andb_prop in Hall. destruct Hall. congruence.
Qed.

Lemma blank_pass_last : forall s b,
  stops is_space (rev s) -> stops is_space (rev (blank_pass b s)).
Proof.
  intros s. induction s as [s IH] using text_length_ind. intros b Hs.
  destruct (nl_run_split s) as (w & r & -> & Hw & Hr & Hn).
  destruct w as [|c w].
  - simpl in *. destruct r as [|c t]; [exact I|].
    simpl in Hr. rewrite (blank_pass_char _ _ _ Hr).
    destruct t as [|c' t'].
    + rewrite blank_pass_nil. exact Hs.
    + change (c :: blank_pass false (c' :: t'))
        with ([c] ++ blank_pass false (c' :: t')).
      apply stops_rev_app.
      * apply blank_pass_nonempty. discriminate.
      * apply IH; [simpl; lia|].
        apply (stops_rev_tail _ [c]); [discriminate|exact Hs].
  - assert (Hr' : r <> []).
    { intros ->. rewrite app_nil_r in Hs.
      apply (stops_rev_all is_space (c :: w)); auto; [discriminate|].
      now apply forallb_nl_space. }
    assert (Hlast : stops is_space (rev (blank_pass false r))).
    { apply IH.
      - rewrite length_app. simpl. lia.
      - now apply (stops_rev_tail _ (c :: w)). }
    destruct (le_lt_dec 3 (length (c :: w))) as [H|H].
    + rewrite (blank_pass_long _ _ _ Hw Hr H).
      apply stops_rev_app; [now apply blank_pass_nonempty|exact Hlast].
    + rewrite (blank_pass_short _ _ _ Hw Hr H).
      apply stops_rev_app; [now apply blank_pass_nonempty|exact Hlast].
Qed.

Lemma breaks_nonempty w t : t <> [] -> breaks w t <> [].
Proof.
  destruct t as [|c t]; [contradiction|]. intros _. simpl.
  destruct (starts_turn w (c :: t)); discriminate.
Qed.

Lemma breaks_cons w c t :
  breaks w (c :: t)
  = ((if starts_turn w (c :: t) then [nl; nl] else []) ++ [c]) ++ breaks w t.
Proof. simpl. now rewrite <- app_assoc. Qed.

Lemma breaks_last w : forall t,
  stops is_space (rev t) -> stops is_space (rev (breaks w t)).
Proof.
  induction t as [|c t IH]; intros H; [exact I|].
  rewrite breaks_cons. destruct t as [|c' t'].
  - simpl breaks. rewrite app_nil_r, rev_app_distr. exact H.
  - apply stops_rev_app.
    + apply breaks_nonempty. discriminate.
    + apply IH. apply (stops_rev_tail _ [c]); [discriminate|exact H].
Qed.

Lemma insert_breaks_head w s :
  stops is_space s -> stops is_space (insert_breaks w s).
Proof. destruct s; auto. Qed.

Lemma insert_breaks_last w s :
  stops is_space (rev s) -> stops is_space (rev (insert_breaks w s)).
Proof.
  destruct s as [|c t]; [auto|]. intros H. simpl insert_breaks.
  destruct t as [|c' t'].
  - exact H.
  - change (c :: breaks w (c' :: t')) with ([c] ++ breaks w (c' :: t')).
    apply stops_rev_app.
    + apply breaks_nonempty. discriminate.
    + apply breaks_last. apply (stops_rev_tail _ [c]); [discriminate|exact H].
Qed.

Section LabelEnds.
Variable repl : text -> text.
Hypothesis repl_head : forall d, stops is_space (repl d).
Hypothesis repl_last : forall d, stops is_space (rev (repl d)).
Hypothesis repl_nonempty : forall d, repl d <> [].

Lemma label_pass_nonempty b s : s <> [] -> label_pass repl b s <> [].
Proof.
  intros Hs. destruct (label_pass_step repl b s)
    as [(m & d & z & -> & Hm & ->)|[(c & t & -> & _ & ->)|[-> _]]].
  - intros E. apply app_eq_nil in E. destruct E as [E _].
    now apply repl_nonempty in E.
  - discriminate.
  - contradiction.
Qed.

Lemma label_pass_head b s :
  stops is_space s -> stops is_space (label_pass repl b s).
Proof.
  intros Hs. destruct (label_pass_step repl b s)
    as [(m & d & z & -> & Hm & ->)|[(c & t & -> & _ & ->)|[-> ->]]].
  - pose proof (repl_head d) as H. pose proof (repl_nonempty d) as H'.
    destruct (repl d); [contradiction|exact H].
  - exact Hs.
  - exact I.
Qed.

Lemma label_pass_last : forall s b,
  stops is_space (rev s) -> stops is_space (rev (label_pass repl b s)).
Proof.
  intros s. induction s as [s IH] using text_length_ind. intros b Hs.
  destruct (label_pass_step repl b s)
    as [(m & d & z & -> & Hm & ->)|[(c & t & -> & _ & ->)|[-> ->]]].
  - destruct z as [|c z].
    + rewrite label_pass_nil, app_nil_r. apply repl_last.
    + apply stops_rev_app.
      * apply label_pass_nonempty. discriminate.
      * apply IH.
        -- rewrite length_app. pose proof (Marker_nonempty _ _ Hm).
           destruct m; [contradiction|simpl; lia].
        -- apply (stops_rev_tail _ m); [discriminate|exact Hs].
  - destruct t as [|c' t'].
    + rewrite label_pass_nil. exact Hs.
    + change (c :: label_pass repl false (c' :: t'))
        with ([c] ++ label_pass repl false (c' :: t')).
      apply stops_rev_app.
      * apply label_pass_nonempty. discriminate.
      * apply IH; [simpl; lia|].
        apply (stops_rev_tail _ [c]); [discriminate|exact Hs].
  - exact I.
Qed.
End LabelEnds.

Lemma repl_ends (w d : text) :
  stops is_space (w ++ txt " " ++ d ++ txt ":") ->
  stops is_space (w ++ txt " " ++ d ++ txt ":") /\
  stops is_space (rev (w ++ txt " " ++ d ++ txt ":")) /\
  w ++ txt " " ++ d ++ txt ":" <> [].
Proof.
  intros H. repeat split; auto.
  - rewrite !app_assoc, rev_app_distr. reflexivity.
  - destruct w; discriminate.
Qed.

(** The output of app.py's function has no whitespace at either end. *)
Lemma app_format_ends s :
  stops is_space (App.format_speaker_labels s) /\
  stops is_space (rev (App.format_speaker_labels s)).
Proof.
  rewrite app_format_eq.
  destruct (strip_spec s) as (a & b & _ & _ & _ & Hh & Hl).
  assert (R : forall d, stops is_space (suxbatdosh_repl d) /\
                        stops is_space (rev (suxbatdosh_repl d)) /\
                        suxbatdosh_repl d <> []).
  { intros d. apply (repl_ends suxbatdosh d). reflexivity. }
  split.
  - apply insert_breaks_head, label_pass_head; [apply R..|].
    now apply blank_pass_head.
  - apply insert_breaks_last, label_pass_last; [apply R..|].
    now apply blank_pass_last.
Qed.

(** ** Texts without canonical markers and without label matches *)

Lemma any_turn_true w s :
  any_turn w s = true <-> exists pre m, s = pre ++ m /\ Turn w m.
Proof.
  split.
  - induction s as [|c t IH]; simpl; [discriminate|].
    intros H. apply orb_prop in H. destruct H as [H|H].
    + exists [], (c :: t). split; [reflexivity|]. now apply starts_turn_iff.
    + destruct (IH H) as (pre & m & -> & Hm). now exists (c :: pre), m.
  - intros (pre & m & -> & Hm). induction pre as [|c pre IH].
    + simpl. destruct m as [|c t]; [now apply not_Turn_nil in Hm|].
      simpl. apply starts_turn_iff in Hm. now rewrite Hm.
    + simpl. now rewrite IH, orb_true_r.
Qed.

Lemma has_inner_turn_cons w c t :
  has_inner_turn w (c :: t) <-> any_turn w t = true.
Proof.
  rewrite any_turn_true. split.
  - intros (pre & m & E & Hpre & Hm). destruct pre as [|x pre]; [contradiction|].
    injection E as <- ->. now exists pre, m.
  - intros (pre & m & -> & Hm). exists (c :: pre), m.
    repeat split; auto. discriminate.
Qed.

Lemma not_has_inner_turn_nil w : ~ has_inner_turn w [].
Proof.
  intros (pre & m & E & Hpre & _). symmetry in E.
  apply app_eq_nil in E. destruct E. contradiction.
Qed.

Lemma any_turn_app_r w x y : any_turn w (x ++ y) = false -> any_turn w y = false.
Proof.
  induction x as [|c x IH]; simpl; [auto|]. intros H.
  apply orb_false_elim in H. destruct H. auto.
Qed.

Lemma breaks_fixed w s : any_turn w s = false -> breaks w s = s.
Proof.
  induction s as [|c t IH]; simpl; [reflexivity|]. intros H.
  apply orb_false_elim in H. destruct H as [-> H]. simpl. now rewrite IH.
Qed.

Lemma breaks_any_turn w s :
  any_turn w s = true -> exists x m, breaks w s = x ++ m /\ Turn w m.
Proof.
  induction s as [|c t IH]; simpl; [discriminate|]. intros H.
  destruct (any_turn w t) eqn:Et.
  - destruct (IH eq_refl) as (x & m & -> & Hm).
    exists ((if starts_turn w (c :: t) then [nl; nl] else []) ++ c :: x), m.
    split; [|exact Hm]. now rewrite <- app_assoc.
  - rewrite orb_false_r in H. rewrite H, (breaks_fixed _ _ Et).
    exists [nl; nl], (c :: t). split; [reflexivity|]. now apply starts_turn_iff.
Qed.

(** When the output of the paragraph pass has no canonical marker past
    its first position, the pass has inserted nothing. *)
Lemma insert_breaks_quiet w u :
  ~ has_inner_turn w (insert_breaks w u) ->
  insert_breaks w u = u /\ ~ has_inner_turn w u.
Proof.
  destruct u as [|c t]; simpl; [auto|]. intros H.
  destruct (any_turn w t) eqn:Et.
  - exfalso. apply H. destruct (breaks_any_turn _ _ Et) as (x & m & -> & Hm).
    exists (c :: x), m. repeat split; auto. discriminate.
  - rewrite (breaks_fixed _ _ Et). split; [reflexivity|].
    rewrite has_inner_turn_cons. congruence.
Qed.

Lemma insert_breaks_fixed w u :
  ~ has_inner_turn w u -> insert_breaks w u = u.
Proof.
  destruct u as [|c t]; [reflexivity|]. rewrite has_inner_turn_cons.
  intros H. simpl. rewrite breaks_fixed; [reflexivity|].
  now destruct (any_turn w t).
Qed.

Lemma Marker_digits m d : Marker m d -> d <> [] /\ forallb is_digit d = true.
Proof. intros H. now destruct H. Qed.

Lemma any_label_fixed repl : forall s b,
  any_label s = false -> label_pass repl b s = s.
Proof.
  induction s as [|c t IH]; intros b H; [reflexivity|].
  simpl in H. apply orb_false_elim in H. destruct H as [H1 H2].
  rewrite label_pass_copy.
  - now rewrite IH.
  - now destruct (search speaker_label false false (c :: t)).
Qed.

Section LabelQuiet.
Variables (w : text) (repl : text -> text).
Hypothesis repl_turn :
  forall d z, d <> [] -> forallb is_digit d = true -> Turn w (repl d ++ z).

(** Where the output of the label pass has no canonical marker at all, the
    pass found no match and copied its input. *)
Lemma label_pass_quiet : forall z b,
  any_turn w (label_pass repl b z) = false ->
  label_pass repl b z = z /\ any_label z = false.
Proof.
  induction z as [|c t IH]; intros b H; [auto|].
  destruct (label_pass_step repl b (c :: t))
    as [(m & d & r & E & Hm & Ho)|[(c' & t' & E & Hs & Ho)|[E _]]];
    [| |discriminate].
  - exfalso. rewrite Ho in H.
    destruct (Marker_digits _ _ Hm) as [Hd Hall].
    assert (Ht : any_turn w (repl d ++ label_pass repl false r) = true).
    { apply any_turn_true. exists [], (repl d ++ label_pass repl false r).
      split; [reflexivity|]. now apply repl_turn. }
    congruence.
  - injection E as <- <-. rewrite Ho in H. simpl in H.
    apply orb_false_elim in H. destruct H as [_ H].
    destruct (IH _ H) as [E1 E2]. split.
    + now rewrite Ho, E1.
    + simpl. now rewrite Hs, E2.
Qed.
End LabelQuiet.

(** ** Idempotence when no break is inserted *)

Lemma speaker_repl_turn d z :
  d <> [] -> forallb is_digit d = true -> Turn speaker (speaker_repl d ++ z).
Proof.
  intros Hd Hall. unfold speaker_repl.
  replace ((txt "Speaker " ++ d ++ txt ":") ++ z)
    with (speaker ++ txt " " ++ d ++ ":"%char :: z).
  - now constructor.
  - unfold speaker. repeat (rewrite <- ?app_assoc; simpl). reflexivity.
Qed.

Lemma suxbatdosh_repl_turn d z :
  d <> [] -> forallb is_digit d = true ->
  Turn suxbatdosh (suxbatdosh_repl d ++ z).
Proof.
  intros Hd Hall. unfold suxbatdosh_repl.
  replace ((txt "Suxbatdosh " ++ d ++ txt ":") ++ z)
    with (suxbatdosh ++ txt " " ++ d ++ ":"%char :: z).
  - now constructor.
  - unfold suxbatdosh. repeat (rewrite <- ?app_assoc; simpl). reflexivity.
Qed.

(** The canonical marker of main.py is itself a marker the label pattern
    matches, with the same digits. *)
Lemma speaker_repl_marker d :
  d <> [] -> forallb is_digit d = true -> Marker (speaker_repl d) d.
Proof.
  intros Hd Hall.
  replace (speaker_repl d)
    with ([] ++ txt "Speaker" ++ txt " " ++ d ++ [] ++ [] ++ [":"%char])
    by reflexivity.
  constructor; auto.
Qed.

Lemma main_label_pass_idem s :
  ~ has_inner_turn speaker (label_pass speaker_repl true s) ->
  label_pass speaker_repl true (label_pass speaker_repl true s)
  = label_pass speaker_repl true s.
Proof.
  intros H.
  destruct (label_pass_step speaker_repl true s)
    as [(m & d & z & -> & Hm & Ho)|[(c & t & -> & Hs & Ho)|[-> ->]]];
    [| |reflexivity].
  - rewrite Ho in *. destruct (Marker_digits _ _ Hm) as [Hd Hall].
    assert (Hq : any_turn speaker (label_pass speaker_repl false z) = false).
    { destruct (any_turn speaker (label_pass speaker_repl false z)) eqn:E;
        [|reflexivity].
      exfalso. apply H. apply any_turn_true in E.
      destruct E as (pre & m' & E & Hm').
      exists (speaker_repl d ++ pre), m'. rewrite E, app_assoc.
      repeat split; auto. unfold speaker_repl. discriminate. }
    destruct (label_pass_quiet speaker speaker_repl speaker_repl_turn _ _ Hq)
      as [E1 E2].
    rewrite E1.
    rewrite (label_pass_marker speaker_repl true _ d z
               (speaker_repl_marker d Hd Hall)).
    now rewrite (any_label_fixed speaker_repl z false E2).
  - rewrite Ho in *. rewrite has_inner_turn_cons in H.
    assert (Hq : any_turn speaker (label_pass speaker_repl false t) = false)
      by (now destruct (any_turn speaker (label_pass speaker_repl false t))).
    destruct (label_pass_quiet speaker speaker_repl speaker_repl_turn _ _ Hq)
      as [E1 E2].
    rewrite E1. apply any_label_fixed. simpl. now rewrite Hs, E2.
Qed.

Lemma main_format_idem s :
  ~ has_inner_turn speaker (Main.format_speaker_labels s) ->
  Main.format_speaker_labels (Main.format_speaker_labels s)
  = Main.format_speaker_labels s.
Proof.
  rewrite !main_format_eq. intros H.
  destruct (insert_breaks_quiet _ _ H) as [E Hu]. rewrite E.
  rewrite (main_label_pass_idem s Hu). exact E.
Qed.

(** ** Texts without a run of three newlines *)

Lemma no3_app_r x z : no3 (x ++ z) = true -> no3 z = true.
Proof.
  induction x as [|c x IH]; simpl; [auto|]. intros H.
  apply andb_prop in H. destruct H. auto.
Qed.

Lemma no3_app_no_nl x z : no_nl x = true -> no3 z = true -> no3 (x ++ z) = true.
Proof.
  induction x as [|c x IH]; simpl; [auto|]. intros H Hz.
  apply andb_prop in H. destruct H as [Hc Hx].
  apply negb_true_iff in Hc. rewrite Hc. simpl. auto.
Qed.

Lemma no3_short_run x y :
  forallb is_nl x = true -> length x < 3 -> stops is_nl y ->
  no3 y = true -> no3 (x ++ y) = true.
Proof.
  induction x as [|c x IH]; intros Hx Hn Hy Hno; [exact Hno|].
  change (no3 ((c :: x) ++ y))
    with (negb (3 <=? nl_run ((c :: x) ++ y)) && no3 (x ++ y)).
  assert (Hn' : length x < 3) by (simpl in Hn; lia).
  rewrite (nl_run_app _ _ Hx Hy). apply Nat.leb_gt in Hn. rewrite Hn.
  simpl in Hx. apply andb_prop in Hx. destruct Hx as [_ Hx].
  simpl. now apply IH.
Qed.

Lemma blank_pass_stops b s : stops is_nl s -> stops is_nl (blank_pass b s).
Proof.
  destruct s as [|c t]; simpl; [intros _; exact I|]. intros Hc.
  rewrite (blank_pass_char _ _ _ Hc). exact Hc.
Qed.

Lemma no3_blank_pass : forall s b, no3 (blank_pass b s) = true.
Proof.
  intros s. induction s as [s IH] using text_length_ind. intros b.
  destruct (nl_run_split s) as (w & r & -> & Hw & Hr & Hn).
  destruct w as [|c w].
  - simpl in *. destruct r as [|c t]; [reflexivity|].
    simpl in Hr. rewrite (blank_pass_char _ _ _ Hr).
    change (no3 (c :: blank_pass false t))
      with (no3 ([c] ++ blank_pass false t)).
    apply no3_app_no_nl; [simpl; now rewrite Hr|]. apply IH. simpl. lia.
  - assert (Hno : no3 (blank_pass false r) = true).
    { apply IH. rewrite length_app. simpl. lia. }
    pose proof (blank_pass_stops false r Hr) as Hs.
    destruct (le_lt_dec 3 (length (c :: w))) as [H|H].
    + rewrite (blank_pass_long _ _ _ Hw Hr H).
      apply no3_short_run; auto.
    + rewrite (blank_pass_short _ _ _ Hw Hr H).
      apply no3_short_run; auto.
Qed.

Lemma no3_fixed : forall s b, no3 s = true -> blank_pass b s = s.
Proof.
  induction s as [|c t IH]; intros b H; [reflexivity|].
  change (no3 (c :: t)) with (negb (3 <=? nl_run (c :: t)) && no3 t) in H.
  apply andb_prop in H. destruct H as [H1 H2].
  apply negb_true_iff in H1.
  unfold blank_pass. rewrite scan_copy.
  - f_equal. now apply IH.
  - rewrite search_blank. now rewrite H1.
Qed.

(** ** Positions where the label pattern cannot match *)

Lemma label_nonstarter c t b :
  Ascii.eqb (lower c) (lower "["%char) = false ->
  Ascii.eqb (lower c) (lower "s"%char) = false ->
  speaker_label b (c :: t) = [].
Proof.
  intros H1 H2.
  destruct (speaker_label b (c :: t)) as [|[d r] l] eqn:E; [reflexivity|].
  exfalso.
  assert (Hin : In (d, r) (speaker_label b (c :: t)))
    by (rewrite E; now left).
  apply speaker_label_sound in Hin. destruct Hin as (m & Em & Hm).
  destruct Hm as [ob w ws1 d cb ws2 Hob Hw _ _ _ _ _].
  destruct w as [|c1 w]; [discriminate|].
  simpl in Hw. injection Hw as Hs _.
  destruct Hob as [->| ->]; simpl in Em; injection Em as ->.
  - rewrite Hs in H2. discriminate.
  - discriminate.
Qed.

Lemma label_s_not_p c1 c2 t b :
  Ascii.eqb (lower c1) (lower "["%char) = false ->
  Ascii.eqb (lower c2) (lower "p"%char) = false ->
  speaker_label b (c1 :: c2 :: t) = [].
Proof.
  intros H1 H2.
  destruct (speaker_label b (c1 :: c2 :: t)) as [|[d r] l] eqn:E; [reflexivity|].
  exfalso.
  assert (Hin : In (d, r) (speaker_label b (c1 :: c2 :: t)))
    by (rewrite E; now left).
  apply speaker_label_sound in Hin. destruct Hin as (m & Em & Hm).
  destruct Hm as [ob w ws1 d cb ws2 Hob Hw _ _ _ _ _].
  do 7 (destruct w as [|? w]; [discriminate|]).
  simpl in Hw. injection Hw as Hs Hp _.
  destruct Hob as [->| ->]; simpl in Em; injection Em as -> ->.
  - rewrite Hp in H2. discriminate.
  - discriminate.
Qed.

Lemma search_empty b s :
  speaker_label b s = [] -> search speaker_label false b s = None.
Proof. intros H. rewrite search_first, H. reflexivity. Qed.

Lemma any_label_skip c t :
  speaker_label false (c :: t) = [] -> any_label (c :: t) = any_label t.
Proof. intros H. simpl. now rewrite (search_empty _ _ H). Qed.

Lemma digit_nonstarter c :
  is_digit c = true ->
  Ascii.eqb (lower c) (lower "["%char) = false /\
  Ascii.eqb (lower c) (lower "s"%char) = false.
Proof. all_chars c. Qed.

Lemma any_label_digits d z :
  forallb is_digit d = true -> any_label (d ++ z) = any_label z.
Proof.
  induction d as [|c d IH]; intros H; [reflexivity|].
  simpl in H. apply andb_prop in H. destruct H as [Hc Hd].
  simpl app. rewrite any_label_skip; [auto|].
  destruct (digit_nonstarter _ Hc). now apply label_nonstarter.
Qed.

(** The canonical marker of app.py contains no match of the label
    pattern, whatever follows it. *)
Lemma any_label_suxbatdosh d z :
  forallb is_digit d = true ->
  any_label (suxbatdosh_repl d ++ z) = any_label z.
Proof.
  intros Hd. unfold suxbatdosh_repl.
  replace ((txt "Suxbatdosh " ++ d ++ txt ":") ++ z)
    with (txt "Suxbatdosh " ++ d ++ ":"%char :: z)
    by (repeat (rewrite <- ?app_assoc; simpl); reflexivity).
  simpl app.
  repeat (rewrite any_label_skip;
          [|(apply label_nonstarter; reflexivity)
            || (apply label_s_not_p; reflexivity)]).
  rewrite (any_label_digits _ _ Hd).
  rewrite any_label_skip; [reflexivity|]. apply label_nonstarter; reflexivity.
Qed.

Lemma suxbatdosh_repl_no_nl d :
  forallb is_digit d = true -> no_nl (suxbatdosh_repl d) = true.
Proof.
  intros H. unfold suxbatdosh_repl.
  now rewrite !no_nl_app, (digits_no_nl _ H).
Qed.

(** After app.py's label pass without inner canonical marker, neither the
    blank-run pass nor the label pass changes the text again. *)
Lemma app_label_pass_settled v :
  no3 v = true ->
  ~ has_inner_turn suxbatdosh (label_pass suxbatdosh_repl true v) ->
  no3 (label_pass suxbatdosh_repl true v) = true /\
  any_label (label_pass suxbatdosh_repl true v) = false.
Proof.
  intros Hv H.
  destruct (label_pass_step suxbatdosh_repl true v)
    as [(m & d & z & -> & Hm & Ho)|[(c & t & -> & Hs & Ho)|[-> ->]]];
    [| |auto].
  - rewrite Ho in *. destruct (Marker_digits _ _ Hm) as [Hd Hall].
    assert (Hq : any_turn suxbatdosh (label_pass suxbatdosh_repl false z) = false).
    { destruct (any_turn suxbatdosh (label_pass suxbatdosh_repl false z)) eqn:E;
        [|reflexivity].
      exfalso. apply H. apply any_turn_true in E.
      destruct E as (pre & m' & E & Hm').
      exists (suxbatdosh_repl d ++ pre), m'. rewrite E, app_assoc.
      repeat split; auto. unfold suxbatdosh_repl. discriminate. }
    destruct (label_pass_quiet suxbatdosh suxbatdosh_repl suxbatdosh_repl_turn
                _ _ Hq) as [E1 E2].
    rewrite E1. split.
    + apply no3_app_no_nl; [now apply suxbatdosh_repl_no_nl|].
      now apply no3_app_r in Hv.
    + now rewrite any_label_suxbatdosh.
  - rewrite Ho in *. rewrite has_inner_turn_cons in H.
    assert (Hq : any_turn suxbatdosh (label_pass suxbatdosh_repl false t) = false)
      by (now destruct (any_turn suxbatdosh (label_pass suxbatdosh_repl false t))).
    destruct (label_pass_quiet suxbatdosh suxbatdosh_repl suxbatdosh_repl_turn
                _ _ Hq) as [E1 E2].
    rewrite E1. split; [exact Hv|]. simpl. now rewrite Hs, E2.
Qed.

Lemma app_format_idem s :
  ~ has_inner_turn suxbatdosh (App.format_speaker_labels s) ->
  App.format_speaker_labels (App.format_speaker_labels s)
  = App.format_speaker_labels s.
Proof.
  intros H. destruct (app_format_ends s) as [Hh Hl].
  rewrite (app_format_eq (App.format_speaker_labels s)).
  rewrite (strip_fixed _ Hh Hl).
  rewrite app_format_eq in *.
  destruct (insert_breaks_quiet _ _ H) as [E Hu]. rewrite E.
  destruct (app_label_pass_settled _ (no3_blank_pass _ _) Hu) as [H3 Hl'].
  rewrite (no3_fixed _ true H3), (any_label_fixed _ _ true Hl'). exact E.
Qed.

(** ** Marker-free texts *)

Lemma any_label_marker pre m d post :
  Marker m d -> any_label (pre ++ m ++ post) = true.
Proof.
  intros Hm. induction pre as [|c pre IH].
  - simpl app. pose proof (Marker_nonempty _ _ Hm) as Hn.
    destruct m as [|c m]; [contradiction|]. simpl app.
    change (any_label (c :: m ++ post))
      with (is_some (search speaker_label false false ((c :: m) ++ post))
            || any_label (m ++ post)).
    now rewrite (search_label_complete _ _ post false Hm).
  - simpl. now rewrite IH, orb_true_r.
Qed.

Lemma any_label_true s :
  any_label s = true -> exists pre m d post, s = pre ++ m ++ post /\ Marker m d.
Proof.
  induction s as [|c t IH]; [discriminate|]. simpl any_label. intros H.
  apply orb_prop in H. destruct H as [H|H].
  - destruct (search speaker_label false false (c :: t)) as [[d n]|] eqn:E;
      [|discriminate].
    apply search_label_sound in E. destruct E as (m & r & E & _ & Hm).
    exists [], m, d, r. auto.
  - destruct (IH H) as (pre & m & d & post & -> & Hm).
    now exists (c :: pre), m, d, post.
Qed.

Lemma marker_free_iff s : marker_free s <-> any_label s = false.
Proof.
  split.
  - intros H. destruct (any_label s) eqn:E; [|reflexivity].
    apply any_label_true in E. destruct E as (pre & m & d & post & E & Hm).
    now apply (H _ _ _ _ E) in Hm.
  - intros H pre m d post -> Hm.
    rewrite (any_label_marker _ _ _ _ Hm) in H. discriminate.
Qed.

Lemma marker_free_sub a s b : marker_free (a ++ s ++ b) -> marker_free s.
Proof.
  intros H pre m d post ->. apply (H (a ++ pre) m d (post ++ b)).
  repeat (rewrite <- ?app_assoc; simpl). reflexivity.
Qed.

Lemma Turn_speaker_marker m :
  Turn speaker m -> exists m' d z, m = m' ++ z /\ Marker m' d.
Proof.
  intros H. destruct H as [d z Hd Hall].
  exists (speaker_repl d), d, z. split.
  - unfold speaker, speaker_repl.
    repeat (rewrite <- ?app_assoc; simpl). reflexivity.
  - now apply speaker_repl_marker.
Qed.

Lemma marker_free_no_turn s : marker_free s -> any_turn speaker s = false.
Proof.
  intros H. destruct (any_turn speaker s) eqn:E; [|reflexivity].
  apply any_turn_true in E. destruct E as (pre & m & -> & Hm).
  apply Turn_speaker_marker in Hm. destruct Hm as (m' & d & z & -> & Hm).
  now apply (H pre m' d z) in Hm.
Qed.

(** main.py's function leaves a marker-free text as it is. *)
Lemma main_format_marker_free s :
  marker_free s -> Main.format_speaker_labels s = s.
Proof.
  intros H. rewrite main_format_eq.
  rewrite (any_label_fixed _ _ _ (proj1 (marker_free_iff s) H)).
  apply insert_breaks_fixed. destruct s as [|c t].
  - apply not_has_inner_turn_nil.
  - rewrite has_inner_turn_cons.
    pose proof (marker_free_no_turn _ H) as E. simpl in E.
    apply orb_false_elim in E. destruct E as [_ E]. congruence.
Qed.

(** ** Markers in the output of the blank-run pass come from the input *)

Lemma blank_pass_run b w r :
  w <> [] -> forallb is_nl w = true -> stops is_nl r ->
  exists x, x <> [] /\ forallb is_nl x = true /\
            blank_pass b (w ++ r) = x ++ blank_pass false r.
Proof.
  intros Hn Hw Hr. destruct (le_lt_dec 3 (length w)) as [H|H].
  - exists [nl; nl]. repeat split; [discriminate|].
    now apply blank_pass_long.
  - exists w. repeat split; auto. now apply blank_pass_short.
Qed.

Lemma run_prefix (x a pre : text) c y :
  forallb is_nl x = true -> is_nl c = false ->
  x ++ a = pre ++ c :: y -> exists pre1, pre = x ++ pre1 /\ a = pre1 ++ c :: y.
Proof.
  revert pre. induction x as [|n x IH]; intros pre Hx Hc E.
  - now exists pre.
  - simpl in Hx. apply andb_prop in Hx. destruct Hx as [Hn Hx].
    destruct pre as [|p pre]; simpl in E; injection E as <- E.
    + congruence.
    + destruct (IH _ Hx Hc E) as (pre1 & -> & ->). now exists pre1.
Qed.

(** A position of the output where a character that is not a newline
    stands corresponds to a position of the input. *)
Lemma blank_pass_locate : forall v b pre c y,
  is_nl c = false -> blank_pass b v = pre ++ c :: y ->
  exists pre' v', v = pre' ++ v' /\ blank_pass false v' = c :: y.
Proof.
  intros v. induction v as [v IH] using text_length_ind.
  intros b pre c y Hc E.
  destruct (nl_run_split v) as (w & r & -> & Hw & Hr & Hn).
  destruct w as [|n w].
  - simpl in *. destruct r as [|c' t].
    + rewrite blank_pass_nil in E. destruct pre; discriminate.
    + simpl in Hr. rewrite (blank_pass_char _ _ _ Hr) in E.
      destruct pre as [|p pre]; simpl in E; injection E as <- E.
      * exists [], (c' :: t). split; [reflexivity|].
        rewrite (blank_pass_char _ _ _ Hc). now rewrite E.
      * destruct (IH t (Nat.lt_succ_diag_r _) _ _ _ _ Hc E)
          as (pre' & v' & -> & Ev).
        now exists (c' :: pre'), v'.
  - destruct (blank_pass_run b (n :: w) r) as (x & Hx & Hxn & Ex);
      auto; [discriminate|].
    rewrite Ex in E. destruct (run_prefix _ _ _ _ _ Hxn Hc E) as (pre1 & -> & E').
    assert (Hlen : length r < length ((n :: w) ++ r))
      by (rewrite length_app; simpl; lia).
    destruct (IH r Hlen _ _ _ _ Hc E') as (pre' & v' & -> & Ev).
    exists ((n :: w) ++ pre'), v'. split; [|exact Ev].
    now rewrite <- app_assoc.
Qed.

Lemma blank_pass_nl_head b c t :
  is_nl c = true -> exists y, blank_pass b (c :: t) = nl :: y.
Proof.
  intros Hc. destruct (nl_run_split (c :: t)) as (w & r & E & Hw & Hr & Hn).
  simpl in Hn. rewrite Hc in Hn. destruct w as [|n w]; [discriminate|].
  rewrite E. destruct (blank_pass_run b (n :: w) r) as (x & Hx & Hxn & ->);
    auto; [discriminate|].
  destruct x as [|x0 x]; [contradiction|]. simpl in Hxn.
  apply andb_prop in Hxn. destruct Hxn as [H0 _].
  apply Ascii.eqb_eq in H0. subst x0. now exists (x ++ blank_pass false r).
Qed.

(** A text without newline at the start of the output stands at the start
    of the input. *)
Lemma blank_pass_unprefix a : forall x b y,
  no_nl a = true -> blank_pass b x = a ++ y ->
  exists x', x = a ++ x' /\ blank_pass false x' = y.
Proof.
  induction a as [|c a IH]; intros x b y Ha E.
  - exists x. split; [reflexivity|]. now rewrite <- (blank_pass_bos b).
  - simpl in Ha. apply andb_prop in Ha. destruct Ha as [Hc Ha].
    apply negb_true_iff in Hc.
    destruct x as [|c' t]; [discriminate|].
    destruct (is_nl c') eqn:Hc'.
    + destruct (blank_pass_nl_head b c' t Hc') as (y' & Ey).
      rewrite Ey in E. simpl in E. injection E as <- _. discriminate.
    + rewrite (blank_pass_char _ _ _ Hc') in E. simpl in E.
      injection E as -> E.
      destruct (IH _ _ _ Ha E) as (x' & -> & Ex). now exists x'.
Qed.

(** Whitespace at the start of the output stands for whitespace at the
    start of the input. *)
Lemma blank_pass_unspace : forall x b ws c y,
  forallb is_space ws = true -> is_space c = false ->
  blank_pass b x = ws ++ c :: y ->
  exists ws' x', x = ws' ++ x' /\ forallb is_space ws' = true /\
                 blank_pass false x' = c :: y.
Proof.
  intros x. induction x as [x IH] using text_length_ind.
  intros b ws c y Hws Hc E.
  pose proof (not_space_not_nl _ Hc) as Hcn.
  destruct (nl_run_split x) as (w & r & -> & Hw & Hr & Hn).
  destruct w as [|n w].
  - simpl in *. destruct r as [|c' t].
    + rewrite blank_pass_nil in E. destruct ws; discriminate.
    + simpl in Hr. rewrite (blank_pass_char _ _ _ Hr) in E.
      destruct ws as [|s ws]; simpl in E; injection E as <- E.
      * exists [], (c' :: t). repeat split.
        rewrite (blank_pass_char _ _ _ Hcn). now rewrite E.
      * simpl in Hws. apply andb_prop in Hws. destruct Hws as [Hs Hws].
        destruct (IH t (Nat.lt_succ_diag_r _) _ _ _ _ Hws Hc E)
          as (ws' & x' & -> & Hws' & Ex).
        exists (c' :: ws'), x'. repeat split; auto. simpl. now rewrite Hs.
  - destruct (blank_pass_run b (n :: w) r) as (x & Hx & Hxn & Ex);
      auto; [discriminate|].
    rewrite Ex in E.
    destruct (run_prefix _ _ _ _ _ Hxn Hcn E) as (ws1 & -> & E').
    rewrite forallb_app in Hws. apply andb_prop in Hws. destruct Hws as [_ Hws].
    assert (Hlen : length r < length ((n :: w) ++ r))
      by (rewrite length_app; simpl; lia).
    destruct (IH r Hlen _ _ _ _ Hws Hc E') as (ws' & x' & -> & Hws' & Ex').
    exists ((n :: w) ++ ws'), x'. repeat split; auto.
    + now rewrite <- app_assoc.
    + rewrite forallb_app, Hws', (forallb_nl_space _ Hw). reflexivity.
Qed.

Lemma is_nl_lower c : is_nl (lower c) = is_nl c.
Proof. all_chars c. Qed.

Lemma no_nl_lower w : no_nl (map lower w) = no_nl w.
Proof.
  induction w as [|c w IH]; simpl; [reflexivity|].
  now rewrite is_nl_lower, IH.
Qed.

Lemma Marker_head_not_nl m d :
  Marker m d -> exists c t, m = c :: t /\ is_nl c = false.
Proof.
  intros H. destruct H as [ob w ws1 d cb ws2 Hob Hw _ _ _ _ _].
  destruct w as [|c w]; [discriminate|].
  assert (Hc : is_nl c = false).
  { simpl in Hw. injection Hw as Hc _. rewrite <- is_nl_lower, Hc. reflexivity. }
  destruct Hob as [->| ->]; simpl; eauto.
Qed.

(** A marker at the start of the output of the blank-run pass stands for a
    marker with the same digits at the start of the input. *)
Lemma blank_pass_marker_origin b x m d post :
  blank_pass b x = m ++ post -> Marker m d ->
  exists m' post', x = m' ++ post' /\ Marker m' d.
Proof.
  intros E Hm. destruct Hm as [ob w ws1 d cb ws2 Hob Hw Hws1 Hd Hdig Hcb Hws2].
  assert (Hw' : no_nl w = true) by (now rewrite <- no_nl_lower, Hw).
  assert (Hob' : no_nl ob = true) by (destruct Hob as [->| ->]; reflexivity).
  assert (Hcb' : no_nl cb = true) by (destruct Hcb as [->| ->]; reflexivity).
  destruct d as [|d0 d]; [congruence|].
  pose proof Hdig as Hdig'. simpl in Hdig'. apply andb_prop in Hdig'.
  destruct Hdig' as [Hd0 _].
  replace ((ob ++ w ++ ws1 ++ (d0 :: d) ++ cb ++ ws2 ++ [":"%char]) ++ post)
    with ((ob ++ w) ++ ws1 ++ d0 :: (d ++ cb ++ ws2 ++ ":"%char :: post)) in E
    by (repeat (rewrite <- ?app_assoc; simpl); reflexivity).
  apply blank_pass_unprefix in E; [|now rewrite no_nl_app, Hob', Hw'].
  destruct E as (x1 & -> & E).
  apply blank_pass_unspace in E; auto using digit_not_space.
  destruct E as (ws1' & x2 & -> & Hws1' & E).
  change (d0 :: d ++ cb ++ ws2 ++ ":"%char :: post)
    with ((d0 :: d) ++ cb ++ ws2 ++ ":"%char :: post) in E.
  rewrite app_assoc in E.
  apply blank_pass_unprefix in E;
    [|now rewrite no_nl_app, (digits_no_nl _ Hdig), Hcb'].
  destruct E as (x3 & -> & E).
  apply blank_pass_unspace in E; auto.
  destruct E as (ws2' & x4 & -> & Hws2' & E).
  change (":"%char :: post) with ([":"%char] ++ post) in E.
  apply blank_pass_unprefix in E; [|reflexivity].
  destruct E as (x5 & -> & _).
  exists (ob ++ w ++ ws1' ++ (d0 :: d) ++ cb ++ ws2' ++ [":"%char]), x5. split.
  - repeat (rewrite <- ?app_assoc; simpl). reflexivity.
  - now constructor.
Qed.

Lemma marker_free_blank_pass b v :
  marker_free v -> marker_free (blank_pass b v).
Proof.
  intros H pre m d post E Hm.
  destruct (Marker_head_not_nl _ _ Hm) as (c & t & Em & Hc).
  rewrite Em in E. simpl in E.
  destruct (blank_pass_locate _ _ _ _ _ Hc E) as (pre' & v' & -> & Ev).
  change (c :: t ++ post) with ((c :: t) ++ post) in Ev. rewrite <- Em in Ev.
  destruct (blank_pass_marker_origin _ _ _ _ _ Ev Hm) as (m' & post' & -> & Hm').
  now apply (H pre' m' d post') in Hm'.
Qed.

(** app.py's function on a marker-free text: trimming, the blank-run pass
    and the paragraph pass; the label pass changes nothing. *)
Lemma app_format_marker_free s :
  marker_free s ->
  App.format_speaker_labels s
  = insert_breaks suxbatdosh (blank_pass true (strip s)).
Proof.
  intros H. rewrite app_format_eq. f_equal.
  apply any_label_fixed. apply marker_free_iff, marker_free_blank_pass.
  destruct (strip_spec s) as (a & b & E & _). rewrite E in H.
  now apply marker_free_sub in H.
Qed.

(** ** Markers in context *)

Lemma starter_lower c : starter (lower c) = starter c.
Proof. all_chars c. Qed.

Lemma space_not_starter c : is_space c = true -> starter c = false.
Proof. all_chars c. Qed.

Lemma digit_not_starter c : is_digit c = true -> starter c = false.
Proof. all_chars c. Qed.

Lemma forallb_impl (p q : ascii -> bool) (l : text) :
  (forall c, p c = true -> q c = true) ->
  forallb p l = true -> forallb q l = true.
Proof.
  intros H. induction l as [|c l IH]; simpl; [auto|]. intros Hl.
  apply andb_prop in Hl. destruct Hl as [Hc Hl]. now rewrite (H _ Hc), IH.
Qed.

Lemma nonstarters_lower w :
  forallb (fun c => negb (starter c)) (map lower w)
  = forallb (fun c => negb (starter c)) w.
Proof.
  induction w as [|c w IH]; simpl; [reflexivity|].
  now rewrite starter_lower, IH.
Qed.

(** After its first letter s, a marker contains no character a marker can
    start with. *)
Lemma Marker_shape x d :
  Marker x d ->
  exists ob c0 t, x = ob ++ c0 :: t /\ (ob = [] \/ ob = ["["%char]) /\
                  Marker (c0 :: t) d /\
                  forallb (fun c => negb (starter c)) t = true.
Proof.
  intros H. destruct H as [ob w ws1 d cb ws2 Hob Hw Hws1 Hd Hdig Hcb Hws2].
  destruct w as [|c0 w]; [discriminate|].
  exists ob, c0, (w ++ ws1 ++ d ++ cb ++ ws2 ++ [":"%char]).
  repeat split; auto.
  - change (c0 :: w ++ ws1 ++ d ++ cb ++ ws2 ++ [":"%char])
      with ([] ++ (c0 :: w) ++ ws1 ++ d ++ cb ++ ws2 ++ [":"%char]).
    now constructor; auto.
  - simpl in Hw. injection Hw as _ Hw.
    rewrite !forallb_app.
    rewrite <- (nonstarters_lower w), Hw.
    rewrite (forallb_impl is_space _ ws1), (forallb_impl is_digit _ d),
            (forallb_impl is_space _ ws2); auto;
      try (intros c Hc; apply negb_true_iff;
           auto using space_not_starter, digit_not_starter).
    destruct Hcb as [->| ->]; reflexivity.
Qed.

Lemma Marker_head_starter m d :
  Marker m d -> exists c t, m = c :: t /\ starter c = true.
Proof.
  intros H. destruct H as [ob w ws1 d cb ws2 Hob Hw _ _ _ _ _].
  destruct w as [|c w]; [discriminate|].
  simpl in Hw. injection Hw as Hc _.
  destruct Hob as [->| ->]; simpl.
  - exists c, (w ++ ws1 ++ d ++ cb ++ ws2 ++ [":"%char]). split; [reflexivity|].
    unfold starter. rewrite Hc. apply orb_true_r.
  - eauto.
Qed.

Lemma app_same_length {A} (x y r s : list A) :
  x ++ r = y ++ s -> length x = length y -> x = y /\ r = s.
Proof.
  revert y. induction x as [|a x IH]; intros [|b y] E Hl;
    try discriminate; simpl in *; [auto|].
  injection E as -> E. injection Hl as Hl.
  destruct (IH _ E Hl) as [-> ->]. auto.
Qed.

(** Two markers at the start of the same text are the same marker. *)
Lemma Marker_unique m1 d1 z1 m2 d2 z2 :
  Marker m1 d1 -> Marker m2 d2 -> m1 ++ z1 = m2 ++ z2 ->
  m1 = m2 /\ d1 = d2 /\ z1 = z2.
Proof.
  intros H1 H2 E.
  pose proof (search_label_complete _ _ z1 false H1) as S1.
  pose proof (search_label_complete _ _ z2 false H2) as S2.
  rewrite E in S1. rewrite S1 in S2. injection S2 as Hd Hl.
  destruct (app_same_length _ _ _ _ E Hl). auto.
Qed.

(** A marker that starts before another one and reaches into it is that
    marker with a "[" in front. *)
Lemma Marker_overlap pre x z1 m z2 d' d :
  Marker x d' -> Marker m d -> x ++ z1 = pre ++ m ++ z2 ->
  length pre < length x -> pre <> [] ->
  pre = ["["%char] /\ x = pre ++ m /\ d' = d /\ z1 = z2.
Proof.
  intros Hx Hm E Hlen Hpre.
  destruct (Marker_head_starter _ _ Hm) as (c & m' & Em & Hc).
  apply app_eq_app in E. destruct E as (l & [[Ex El]|[Ep _]]).
  2:{ subst pre. rewrite length_app in Hlen. lia. }
  destruct l as [|c' l'].
  { subst x. rewrite app_nil_r in Hlen. lia. }
  assert (c' = c) by (rewrite Em in El; simpl in El; now injection El).
  subst c'.
  destruct (Marker_shape _ _ Hx) as (ob & c0 & t & Ex' & Hob & Hbody & Ht).
  destruct pre as [|p0 pre']; [contradiction|].
  rewrite Ex in Ex'.
  assert (Hbad : forall a b, t = a ++ c :: b -> False).
  { intros a b ->. rewrite forallb_app in Ht. simpl in Ht.
    rewrite Hc in Ht. simpl in Ht. rewrite andb_false_r in Ht. discriminate. }
  destruct Hob as [->| ->]; simpl in Ex'; injection Ex' as -> Ex'.
  - exfalso. now apply (Hbad pre' l').
  - destruct pre' as [|p1 pre''].
    + simpl in Ex'. injection Ex' as <- <-.
      assert (E2 : (c :: l') ++ z1 = m ++ z2) by (now rewrite El).
      destruct (Marker_unique _ _ _ _ _ _ Hbody Hm E2) as (E3 & E4 & E5).
      subst x. rewrite E3. auto.
    + exfalso. simpl in Ex'. injection Ex' as _ Ex'.
      now apply (Hbad pre'' l').
Qed.

Section LabelContext.
Variable repl : text -> text.

(** The label pass on a text in which a marker occurs: the marker is
    replaced by the canonical text with its digits, what precedes it and
    what follows it are processed on their own; only a "[" directly before
    a marker without bracket is taken into the match. *)
Lemma label_pass_context : forall pre b m d post,
  Marker m d ->
  exists pre', (pre' = pre \/ pre = pre' ++ ["["%char]) /\
    label_pass repl b (pre ++ m ++ post)
    = label_pass repl false pre' ++ repl d ++ label_pass repl false post.
Proof.
  intros pre. induction pre as [pre IH] using text_length_ind.
  intros b m d post Hm.
  destruct pre as [|c pre1].
  - exists []. split; [now left|]. simpl app.
    now rewrite (label_pass_marker repl b m d post Hm).
  - destruct (label_pass_step repl b ((c :: pre1) ++ m ++ post))
      as [(x & d' & r & E & Hx & Ho)|[(c' & t' & E & Hs & Ho)|[E _]]];
      [| |discriminate].
    + rewrite Ho.
      destruct (le_lt_dec (length x) (length (c :: pre1))) as [Hle|Hlt].
      * (* the match lies within the text before the marker *)
        assert (El : exists l, c :: pre1 = x ++ l /\ r = l ++ m ++ post).
        { symmetry in E. apply app_eq_app in E.
          destruct E as (l & [[Ex El]|[Ep Er]]).
          - assert (l = []).
            { rewrite Ex, length_app in Hle. destruct l; [reflexivity|].
              simpl in Hle. lia. }
            subst l. rewrite app_nil_r in Ex. exists [].
            rewrite app_nil_r. now split.
          - now exists l. }
        destruct El as (l & Ep & ->).
        assert (Hl : length l < length (c :: pre1)).
        { rewrite Ep, length_app. pose proof (Marker_nonempty _ _ Hx).
          destruct x; [contradiction|simpl; lia]. }
        destruct (IH l Hl false m d post Hm) as (l' & Hrel & El).
        exists (x ++ l'). split.
        -- destruct Hrel as [->| ->]; [left|right]; rewrite Ep; auto.
           now rewrite app_assoc.
        -- rewrite El, (label_pass_marker repl false x d' l' Hx).
           now rewrite <- app_assoc.
      * (* the match reaches into the marker *)
        destruct (Marker_overlap _ _ _ _ _ _ _ Hx Hm (eq_sym E) Hlt)
          as (Ep & _ & -> & ->); [discriminate|].
        exists []. split; [right; now rewrite Ep|]. reflexivity.
    + simpl in E. injection E as Ec' Et'. subst c' t'. rewrite Ho.
      assert (Hl : length pre1 < length (c :: pre1)) by (simpl; lia).
      destruct (IH pre1 Hl false m d post Hm) as (p' & Hrel & El).
      exists (c :: p'). split.
      * destruct Hrel as [->| ->]; [now left|now right].
      * rewrite El. rewrite (label_pass_copy repl false c p'); [reflexivity|].
        destruct (search speaker_label false false (c :: p'))
          as [[d' n]|] eqn:Es; [|reflexivity].
        exfalso. apply search_label_sound in Es.
        destruct Es as (x & r & Ex & _ & Hx).
        assert (Ec : exists rest, c :: pre1 ++ m ++ post = x ++ rest).
        { destruct Hrel as [Hr|Hr].
          - exists (r ++ m ++ post). rewrite <- Hr.
            change (c :: p' ++ m ++ post) with ((c :: p') ++ m ++ post).
            now rewrite Ex, <- app_assoc.
          - exists (r ++ ["["%char] ++ m ++ post). rewrite Hr.
            rewrite <- (app_assoc p'), app_comm_cons, Ex.
            now rewrite <- app_assoc. }
        destruct Ec as (rest & Ec).
        change ((c :: pre1) ++ m ++ post) with (c :: pre1 ++ m ++ post) in Hs.
        rewrite Ec in Hs.
        now rewrite (search_label_complete _ _ rest false Hx) in Hs.
Qed.
End LabelContext.

(** ** Scenarios *)

(** C7: the empty text.  With a regular-expression engine that rejects
    the label pattern, app.py's [format_speaker_labels] raises on the empty
    text as on any other: it logs the error of the engine and raises it
    again, returning nothing.  With the engine working as modelled it
    returns the empty text and logs nothing; the texts computed by the
    substitutions of both scripts are then empty. *)
Theorem empty_text_and_the_engine :
  (forall w,
     AppIO.format_speaker_labels re_sub_rejecting [] w
     = (Raise re_error,
        World (w_log w ++ [("Formatlashda xatolik: " ++ exn_str re_error)%string])
              (w_trace w ++ [Format]) (w_shown w) (w_page w))) /\
  (forall w,
     AppIO.format_speaker_labels re_sub_total [] w
     = (Ok [], World (w_log w) (w_trace w ++ [Format]) (w_shown w) (w_page w))) /\
  Main.format_speaker_labels [] = [] /\ App.format_speaker_labels [] = [].
Proof. repeat split. Qed.

(** C5, as stated, fails: on "[Speaker 1]: hi\nSpeaker2:bye" the result of
    main.py's function is not "Speaker 1: hi\n\nSpeaker 2:bye". *)
Lemma scenario_two_speakers_not_one_blank_line :
  Main.format_speaker_labels (txt "[Speaker 1]: hi" ++ nl :: txt "Speaker2:bye")
  <> txt "Speaker 1: hi" ++ nl :: nl :: txt "Speaker 2:bye".
Proof. vm_compute. discriminate. Qed.

(** C5, amended: on "[Speaker 1]: hi\nSpeaker2:bye" main.py's function
    returns "Speaker 1: hi\n\n\nSpeaker 2:bye": both markers are canonical
    with their digits, and the break is added to the newline that was
    already there. *)
Theorem scenario_two_speakers :
  Main.format_speaker_labels (txt "[Speaker 1]: hi" ++ nl :: txt "Speaker2:bye")
  = txt "Speaker 1: hi" ++ nl :: nl :: nl :: txt "Speaker 2:bye".
Proof. vm_compute. reflexivity. Qed.

(** ** The paragraph property *)




(** ** The first step of app.py's function *)

(** C4, as stated, fails for main.py: its function has no first step that
    trims and collapses.  A text with whitespace at both ends and four
    blank lines between two paragraphs comes back as it is, not trimmed and
    not collapsed to one blank line. *)
Lemma main_keeps_blank_lines :
  Main.format_speaker_labels
    (txt "  first paragraph" ++ [nl; nl; nl; nl; nl] ++ txt "second one ")
  = txt "  first paragraph" ++ [nl; nl; nl; nl; nl] ++ txt "second one " /\
  Main.format_speaker_labels
    (txt "  first paragraph" ++ [nl; nl; nl; nl; nl] ++ txt "second one ")
  <> txt "first paragraph" ++ [nl; nl] ++ txt "second one".
Proof. split; [vm_compute; reflexivity|vm_compute; discriminate]. Qed.

(** C4, amended: app.py's function first trims the whitespace at both ends
    of the input and then runs the blank-run substitution on the trimmed
    text, the later passes working on its result; the substitution copies
    every character that is not a newline and every run of one or two
    newlines, and replaces every run of three or more newlines by exactly
    two.  Four blank lines between two paragraphs become one blank line,
    the paragraphs staying as they are.  main.py's function has no such
    step: a text without speaker label comes back as it is, with its
    whitespace and its blank lines. *)
Theorem first_step_trims_and_collapses :
  (forall s, exists a b,
      s = a ++ strip s ++ b /\
      forallb is_space a = true /\ forallb is_space b = true /\
      no_leading_space (strip s) /\ no_trailing_space (strip s) /\
      App.format_speaker_labels s
      = insert_breaks suxbatdosh
          (label_pass suxbatdosh_repl true
             (re_sub blank_run (fun _ => [nl; nl]) (strip s)))) /\
  (forall c t, is_nl c = false ->
      re_sub blank_run (fun _ => [nl; nl]) (c :: t)
      = c :: re_sub blank_run (fun _ => [nl; nl]) t) /\
  (forall w r, forallb is_nl w = true -> stops is_nl r -> 3 <= length w ->
      re_sub blank_run (fun _ => [nl; nl]) (w ++ r)
      = [nl; nl] ++ re_sub blank_run (fun _ => [nl; nl]) r) /\
  (forall w r, forallb is_nl w = true -> stops is_nl r -> length w < 3 ->
      re_sub blank_run (fun _ => [nl; nl]) (w ++ r)
      = w ++ re_sub blank_run (fun _ => [nl; nl]) r) /\
  App.format_speaker_labels
    (txt "first paragraph" ++ [nl; nl; nl; nl; nl] ++ txt "second one")
  = txt "first paragraph" ++ [nl; nl] ++ txt "second one" /\
  (forall s, marker_free s -> Main.format_speaker_labels s = s).
Proof.
  change (re_sub blank_run (fun _ => [nl; nl])) with (blank_pass true).
  split; [|split; [|split; [|split; [|split]]]].
  - intros s. destruct (strip_spec s) as (a & b & E & Ha & Hb & Hh & Hl).
    exists a, b. repeat split; auto.
    + now apply no_leading_stops.
    + now apply no_trailing_stops.
    + apply app_format_eq.
  - intros c t Hc. rewrite (blank_pass_bos true t). now apply blank_pass_char.
  - intros w r Hw Hr Hn. rewrite (blank_pass_bos true r).
    now apply blank_pass_long.
  - intros w r Hw Hr Hn. rewrite (blank_pass_bos true r).
    now apply blank_pass_short.
  - vm_compute. reflexivity.
  - apply main_format_marker_free.
Qed.

Lemma first_step_trims_and_collapses_witness :
  forallb is_nl [nl; nl; nl; nl; nl] = true /\
  stops is_nl (txt "second one") /\
  3 <= length [nl; nl; nl; nl; nl] /\
  re_sub blank_run (fun _ => [nl; nl]) ([nl; nl; nl; nl; nl] ++ txt "second one")
  = [nl; nl] ++ re_sub blank_run (fun _ => [nl; nl]) (txt "second one").
Proof.
  assert (H1 : forallb is_nl [nl; nl; nl; nl; nl] = true) by reflexivity.
  assert (H2 : stops is_nl (txt "second one")) by reflexivity.
  assert (H3 : 3 <= length [nl; nl; nl; nl; nl]) by (simpl; lia).
  split; [exact H1|]. split; [exact H2|]. split; [exact H3|].
  exact (proj1 (proj2 (proj2 first_step_trims_and_collapses)) _ _ H1 H2 H3).
Defined.

(** ** Whitespace at the ends of the output *)

(** C10: the output of app.py's function has no leading and no trailing
    whitespace, so that trimming it again changes nothing. *)
Theorem app_output_trimmed s :
  no_leading_space (App.format_speaker_labels s) /\
  no_trailing_space (App.format_speaker_labels s) /\
  strip (App.format_speaker_labels s) = App.format_speaker_labels s.
Proof.
  destruct (app_format_ends s) as [Hh Hl]. repeat split.
  - now apply no_leading_stops.
  - now apply no_trailing_stops.
  - now apply strip_fixed.
Qed.

(** ** Idempotence *)

(** C1, as stated, fails: on "a speaker 1:" a second application inserts a
    second break before the marker, in both scripts. *)
Lemma normalize_not_idempotent :
  normalize main_py (normalize main_py (txt "a speaker 1:"))
  <> normalize main_py (txt "a speaker 1:") /\
  normalize app_py (normalize app_py (txt "a speaker 1:"))
  <> normalize app_py (txt "a speaker 1:").
Proof. split; vm_compute; discriminate. Qed.

(** ** Marker-free input *)

(** C6, as stated, fails: on a marker-free text main.py's function collapses
    no run of newlines at all, and app.py's function also trims the
    whitespace at both ends. *)
Lemma marker_free_not_only_blank_runs :
  (marker_free (txt "a" ++ [nl; nl; nl] ++ txt "b") /\
   normalize main_py (txt "a" ++ [nl; nl; nl] ++ txt "b")
   <> re_sub blank_run (fun _ => [nl; nl]) (txt "a" ++ [nl; nl; nl] ++ txt "b")) /\
  (marker_free (txt " a") /\
   normalize app_py (txt " a")
   <> re_sub blank_run (fun _ => [nl; nl]) (txt " a")).
Proof.
  split; split;
    try (apply marker_free_iff; vm_compute; reflexivity);
    vm_compute; discriminate.
Qed.

(** C6, amended: on a text with no substring matching the marker pattern,
    main.py's function returns the text unchanged (runs of newlines
    included), and app.py's function returns the text trimmed at both ends,
    with every run of three or more newlines replaced by two and a break
    inserted before every canonical marker of its own that the text
    already has past its first position. *)
Theorem marker_free_normalize v s :
  marker_free s ->
  normalize v s
  = match v with
    | main_py => s
    | app_py =>
      insert_breaks suxbatdosh
        (re_sub blank_run (fun _ => [nl; nl]) (strip s))
    end.
Proof.
  intros H. destruct v; simpl.
  - now apply main_format_marker_free.
  - now apply app_format_marker_free.
Qed.

Lemma marker_free_normalize_witness :
  marker_free (txt " a" ++ [nl; nl; nl; nl] ++ txt "b ") /\
  normalize app_py (txt " a" ++ [nl; nl; nl; nl] ++ txt "b ")
  = insert_breaks suxbatdosh
      (re_sub blank_run (fun _ => [nl; nl])
         (strip (txt " a" ++ [nl; nl; nl; nl] ++ txt "b "))).
Proof.
  assert (H : marker_free (txt " a" ++ [nl; nl; nl; nl] ++ txt "b "))
    by (apply marker_free_iff; vm_compute; reflexivity).
  split; [exact H|].
  exact (marker_free_normalize app_py _ H).
Defined.

(** ** Canonical markers *)

(** ** Failures *)

(** C8, as stated, fails: when the engine rejects the label pattern with
    its own error, that error is what [format_speaker_labels] raises; it is
    not a FormattingError made from it. *)
Lemma format_failure_not_wrapped :
  ~ exists msg,
      fst (AppIO.format_speaker_labels re_sub_rejecting (txt "speaker 1: hi")
             empty_world)
      = Raise (Exn "FormattingError" msg
                 (Some (exn_class re_error, exn_str re_error))).
Proof. intros [msg H]. vm_compute in H. discriminate. Qed.

(** C8, amended: when one of the substitutions raises, app.py's
    [format_speaker_labels] logs one message with the text of the exception
    and raises that same exception again, returning no text; with the
    engine working as modelled it raises nothing and returns the formatted
    text, logging nothing. *)
Theorem format_failure_logged_and_reraised re_sub_py text0 w e :
  AppIO.fails_with re_sub_py text0 e ->
  AppIO.format_speaker_labels re_sub_py text0 w
  = (Raise e,
     World (w_log w ++ [("Formatlashda xatolik: " ++ exn_str e)%string])
           (w_trace w ++ [Format]) (w_shown w) (w_page w)) /\
  AppIO.format_speaker_labels re_sub_total text0 w
  = (Ok (App.format_speaker_labels text0),
     World (w_log w) (w_trace w ++ [Format]) (w_shown w) (w_page w)).
Proof.
  intros H. split; [|reflexivity].
  unfold AppIO.format_speaker_labels, try_except, bind, lift, enter, raise,
    logger_error.
  simpl.
  destruct H as [H|(text1 & H1 & [H|(text2 & H2 & H)])].
  - now rewrite H.
  - now rewrite H1, H.
  - now rewrite H1, H2, H.
Qed.

Lemma format_failure_logged_and_reraised_witness :
  AppIO.fails_with re_sub_rejecting (txt " speaker 1: hi") re_error /\
  AppIO.format_speaker_labels re_sub_rejecting (txt " speaker 1: hi") empty_world
  = (Raise re_error,
     World ([] ++ [("Formatlashda xatolik: " ++ exn_str re_error)%string])
           ([] ++ [Format]) [] []) /\
  AppIO.format_speaker_labels re_sub_total (txt " speaker 1: hi") empty_world
  = (Ok (App.format_speaker_labels (txt " speaker 1: hi")),
     World [] ([] ++ [Format]) [] []).
Proof.
  assert (H : AppIO.fails_with re_sub_rejecting (txt " speaker 1: hi") re_error).
  { right. exists (txt "speaker 1: hi"). split; [reflexivity|]. now left. }
  split; [exact H|].
  exact (format_failure_logged_and_reraised re_sub_rejecting
           (txt " speaker 1: hi") empty_world re_error H).
Defined.

(** C9, as stated, fails: when the transcription call fails, the exception
    that [transcribe_audio] raises is the one of the call, not a
    TranscriptionError. *)
Lemma transcription_failure_not_wrapped :
  ~ exists msg cause,
      fst (AppIO.transcribe_audio transcribe_failing "upload.mp3" empty_world)
      = Raise (Exn "TranscriptionError" msg cause).
Proof. intros (msg & cause & H). vm_compute in H. discriminate. Qed.

(** C9, amended: when the transcription call fails with an exception,
    [transcribe_audio] logs one message and raises that same exception
    again, without a second attempt and without a result; in [main] no
    later stage is entered, the message of the exception is shown and
    logged once more, and nothing is put on the page. *)
Theorem transcription_failure_stops_pipeline
        re_sub_py transcribe complete temp_path w e :
  transcribe temp_path = Raise e ->
  AppIO.transcribe_audio transcribe temp_path w
  = (Raise e,
     World (w_log w ++ [("Yozib olishda xatolik: " ++ exn_str e)%string])
           (w_trace w ++ [Transcribe]) (w_shown w) (w_page w)) /\
  AppIO.main re_sub_py transcribe complete temp_path w
  = (Ok tt,
     World (w_log w ++ [("Yozib olishda xatolik: " ++ exn_str e)%string;
                        ("Qayta ishlashda xatolik: " ++ exn_str e)%string])
           (w_trace w ++ [Transcribe])
           (w_shown w ++ [("Xatolik yuz berdi: " ++ exn_str e)%string])
           (w_page w)).
Proof.
  intros H.
  assert (E : AppIO.transcribe_audio transcribe temp_path w
              = (Raise e,
                 World (w_log w ++ [("Yozib olishda xatolik: " ++ exn_str e)%string])
                       (w_trace w ++ [Transcribe]) (w_shown w) (w_page w))).
  { unfold AppIO.transcribe_audio, try_except, bind, lift, enter, raise,
      logger_error. simpl. now rewrite H. }
  split; [exact E|].
  unfold AppIO.main, try_except. unfold bind at 1. rewrite E.
  unfold bind, st_error, logger_error. simpl.
  now rewrite <- app_assoc.
Qed.

Lemma transcription_failure_stops_pipeline_witness :
  transcribe_failing "upload.mp3" = Raise connection_error /\
  AppIO.transcribe_audio transcribe_failing "upload.mp3" empty_world
  = (Raise connection_error,
     World ([] ++ [("Yozib olishda xatolik: " ++ exn_str connection_error)%string])
           ([] ++ [Transcribe]) [] []) /\
  AppIO.main re_sub_total transcribe_failing complete_echo "upload.mp3"
             empty_world
  = (Ok tt,
     World ([] ++ [("Yozib olishda xatolik: " ++ exn_str connection_error)%string;
                   ("Qayta ishlashda xatolik: " ++ exn_str connection_error)%string])
           ([] ++ [Transcribe])
           ([] ++ [("Xatolik yuz berdi: " ++ exn_str connection_error)%string])
           []).
Proof.
  assert (H : transcribe_failing "upload.mp3" = Raise connection_error)
    by reflexivity.
  split; [exact H|].
  exact (transcription_failure_stops_pipeline re_sub_total transcribe_failing
           complete_echo "upload.mp3" empty_world connection_error H).
Defined.

(** ** The suffix of the temporary file *)

Lemma split_cons sep s : exists p ps, split sep s = p :: ps.
Proof.
  destruct s as [|c r]; simpl; [now eexists; eexists|].
  destruct (Ascii.eqb c sep); [now eexists; eexists|].
  destruct (split sep r); now eexists; eexists.
Qed.

Lemma split_sep sep r : split sep (sep :: r) = [] :: split sep r.
Proof. simpl. now rewrite Ascii.eqb_refl. Qed.

Lemma item_last_cons p q ps : item_last (p :: q :: ps) = item_last (q :: ps).
Proof. reflexivity. Qed.

Lemma split_dot_free ext :
  dot_free ext = true -> split dot ext = [ext].
Proof.
  induction ext as [|c r IH]; simpl; [reflexivity|].
  intros H. apply andb_prop in H. destruct H as [Hc Hr].
  apply negb_true_iff in Hc. rewrite Hc, (IH Hr). reflexivity.
Qed.

Lemma split_app_two stem ext :
  exists p q qs, split dot (stem ++ dot :: ext) = p :: q :: qs.
Proof.
  induction stem as [|c r IH].
  - simpl app. rewrite split_sep.
    destruct (split_cons dot ext) as (q & qs & E). rewrite E.
    now exists [], q, qs.
  - simpl. destruct IH as (p & q & qs & E). rewrite E.
    destruct (Ascii.eqb c dot); eexists; eexists; eexists; reflexivity.
Qed.

Lemma item_last_split_app stem ext :
  item_last (split dot (stem ++ dot :: ext)) = item_last (split dot ext).
Proof.
  induction stem as [|c r IH].
  - simpl app. rewrite split_sep.
    destruct (split_cons dot ext) as (p & ps & E). rewrite E. reflexivity.
  - simpl. destruct (split_app_two r ext) as (p & q & qs & E).
    rewrite E in *. destruct (Ascii.eqb c dot); exact IH.
Qed.

Lemma upload_suffix_ext stem ext :
  dot_free ext = true -> upload_suffix (stem ++ dot :: ext) = Ok (dot :: ext).
Proof.
  intros H. unfold upload_suffix.
  now rewrite item_last_split_app, (split_dot_free _ H).
Qed.

Lemma upload_suffix_plain ext :
  dot_free ext = true -> upload_suffix ext = Ok (dot :: ext).
Proof. intros H. unfold upload_suffix. now rewrite (split_dot_free _ H). Qed.

Lemma last_dot name :
  dot_free name = true \/
  exists stem ext, name = stem ++ dot :: ext /\ dot_free ext = true.
Proof.
  induction name as [|c r IH]; [now left|].
  destruct IH as [H|(stem & ext & -> & H)].
  - destruct (Ascii.eqb c dot) eqn:Ec.
    + apply Ascii.eqb_eq in Ec. subst c. right. now exists [], r.
    + left. simpl. now rewrite Ec.
  - right. now exists (c :: stem), ext.
Qed.

(** X1: the suffix of the temporary file is the dot and the extension of
    the uploaded name, that is what follows its last dot; a name that has
    no dot is taken whole as its extension. *)
Theorem upload_suffix_of_name stem ext :
  dot_free ext = true ->
  upload_suffix (stem ++ dot :: ext) = Ok (dot :: ext) /\
  upload_suffix ext = Ok (dot :: ext).
Proof.
  intros H. split; [now apply upload_suffix_ext|now apply upload_suffix_plain].
Qed.

Lemma upload_suffix_of_name_witness :
  dot_free (txt "mp3") = true /\
  upload_suffix (txt "talk.v2" ++ dot :: txt "mp3") = Ok (dot :: txt "mp3") /\
  upload_suffix (txt "mp3") = Ok (dot :: txt "mp3").
Proof.
  assert (H : dot_free (txt "mp3") = true) by reflexivity.
  split; [exact H|].
  exact (upload_suffix_of_name (txt "talk.v2") (txt "mp3") H).
Defined.

(** X2: for every uploaded name the suffix is computed without an
    exception; it is a dot followed by an extension that has no dot, and
    the name is that extension, or ends with the suffix. *)
Theorem upload_suffix_total name :
  exists ext,
    upload_suffix name = Ok (dot :: ext) /\ dot_free ext = true /\
    (name = ext \/ exists stem, name = stem ++ dot :: ext).
Proof.
  destruct (last_dot name) as [H|(stem & ext & -> & H)].
  - exists name. split; [now apply upload_suffix_plain|]. split; [exact H|now left].
  - exists ext. split; [now apply upload_suffix_ext|]. split; [exact H|].
    right. now exists stem.
Qed.

(** ** The processing of an upload in app.py *)

Ltac run_main :=
  unfold AppIO.main, AppIO.transcribe_audio, AppIO.identify_speakers,
    AppIO.format_speaker_labels, AppIO.convert_to_uzbek,
    AppIO.create_summary, try_except, bind, lift, enter, raise, ret,
    logger_error, st_error, show; simpl.

Ltac failed_at n s e :=
  right; exists n, s, e; simpl; rewrite <- ?app_assoc; simpl;
  repeat split; reflexivity.

Lemma main_outcome re_sub_py transcribe complete temp_path w :
  fst (AppIO.main re_sub_py transcribe complete temp_path w) = Ok tt /\
  ((exists formatted uzbek summary,
      snd (AppIO.main re_sub_py transcribe complete temp_path w)
      = World (w_log w) (w_trace w ++ pipeline) (w_shown w)
              (w_page w ++ [formatted; uzbek; summary])) \/
   (exists n s e,
      nth_error pipeline n = Some s /\
      snd (AppIO.main re_sub_py transcribe complete temp_path w)
      = World (w_log w ++ [(stage_message s ++ exn_str e)%string;
                           ("Qayta ishlashda xatolik: " ++ exn_str e)%string])
              (w_trace w ++ firstn (S n) pipeline)
              (w_shown w ++ [("Xatolik yuz berdi: " ++ exn_str e)%string])
              (w_page w))).
Proof.
  run_main.
  destruct (transcribe temp_path) as [t|e]; simpl;
    [|split; [reflexivity|failed_at 0 Transcribe e]].
  destruct (complete diarization_prompt t) as [d|e]; simpl;
    [|split; [reflexivity|failed_at 1 Identify e]].
  destruct (re_sub_py BlankRun (strip d)) as [t1|e]; simpl;
    [|split; [reflexivity|failed_at 2 Format e]].
  destruct (re_sub_py Label t1) as [t2|e]; simpl;
    [|split; [reflexivity|failed_at 2 Format e]].
  destruct (re_sub_py TurnStart t2) as [t3|e]; simpl;
    [|split; [reflexivity|failed_at 2 Format e]].
  destruct (complete conversion_prompt t3) as [u|e]; simpl;
    [|split; [reflexivity|failed_at 3 Convert e]].
  destruct (complete summary_prompt u) as [s|e]; simpl;
    [|split; [reflexivity|failed_at 4 Summarize e]].
  split; [reflexivity|]. left. exists t3, u, s.
  rewrite <- !app_assoc. reflexivity.
Qed.

(** X3: the processing of an upload in [main] of app.py never lets an
    exception out: whatever the transcription, the completions and the
    regular-expression engine return or raise, it ends normally. *)
Theorem main_never_raises re_sub_py transcribe complete temp_path w :
  fst (AppIO.main re_sub_py transcribe complete temp_path w) = Ok tt.
Proof. apply main_outcome. Qed.

(** X4: [main] of app.py shows all or nothing.  Either the five stages
    were entered once each, in order, nothing was logged, no error was
    shown and three texts were put on the page; or the stages were entered
    in order up to one that raised, the later ones were not entered,
    nothing was put on the page, one error message with the text of the
    exception was shown, and two messages were logged, the one of the stage
    and the one of [main]. *)
Theorem main_all_or_nothing re_sub_py transcribe complete temp_path w :
  (exists formatted uzbek summary,
     snd (AppIO.main re_sub_py transcribe complete temp_path w)
     = World (w_log w) (w_trace w ++ pipeline) (w_shown w)
             (w_page w ++ [formatted; uzbek; summary])) \/
  (exists n s e,
     nth_error pipeline n = Some s /\
     snd (AppIO.main re_sub_py transcribe complete temp_path w)
     = World (w_log w ++ [(stage_message s ++ exn_str e)%string;
                          ("Qayta ishlashda xatolik: " ++ exn_str e)%string])
             (w_trace w ++ firstn (S n) pipeline)
             (w_shown w ++ [("Xatolik yuz berdi: " ++ exn_str e)%string])
             (w_page w)).
Proof. apply main_outcome. Qed.

(** X5: when the transcription and the three completions answer, [main]
    of app.py gives the transcript to the diarization, the formatted
    diarization to the conversion and the converted text to the summary,
    and puts on the page the formatted text, the converted text and the
    summary, in this order; it logs nothing and shows no error. *)
Theorem main_success transcribe complete temp_path w t d u s :
  transcribe temp_path = Ok t ->
  complete diarization_prompt t = Ok d ->
  complete conversion_prompt (App.format_speaker_labels d) = Ok u ->
  complete summary_prompt u = Ok s ->
  AppIO.main re_sub_total transcribe complete temp_path w
  = (Ok tt,
     World (w_log w) (w_trace w ++ pipeline) (w_shown w)
           (w_page w ++ [App.format_speaker_labels d; u; s])).
Proof.
  intros Ht Hd Hu Hs. run_main. rewrite Ht. simpl. rewrite Hd. simpl.
  change (re_sub (turn_start suxbatdosh) (fun _ => [nl; nl])
            (re_sub speaker_label suxbatdosh_repl
               (re_sub blank_run (fun _ => [nl; nl]) (strip d))))
    with (App.format_speaker_labels d).
  rewrite Hu. simpl. rewrite Hs. simpl.
  rewrite <- !app_assoc. reflexivity.
Qed.

Lemma main_success_witness :
  transcribe_fixed (txt "salom") "upload.mp3" = Ok (txt "salom") /\
  complete_echo diarization_prompt (txt "salom") = Ok (txt "salom") /\
  complete_echo conversion_prompt (App.format_speaker_labels (txt "salom"))
  = Ok (txt "salom") /\
  complete_echo summary_prompt (txt "salom") = Ok (txt "salom") /\
  AppIO.main re_sub_total (transcribe_fixed (txt "salom")) complete_echo
             "upload.mp3" empty_world
  = (Ok tt,
     World [] ([] ++ pipeline) []
           ([] ++ [App.format_speaker_labels (txt "salom"); txt "salom";
                   txt "salom"])).
Proof.
  assert (H1 : transcribe_fixed (txt "salom") "upload.mp3"
               = Ok (txt "salom")) by reflexivity.
  assert (H2 : complete_echo diarization_prompt (txt "salom")
               = Ok (txt "salom")) by reflexivity.
  assert (H3 : complete_echo conversion_prompt
                 (App.format_speaker_labels (txt "salom"))
               = Ok (txt "salom")) by reflexivity.
  assert (H4 : complete_echo summary_prompt (txt "salom")
               = Ok (txt "salom")) by reflexivity.
  split; [exact H1|]. split; [exact H2|]. split; [exact H3|].
  split; [exact H4|].
  exact (main_success (transcribe_fixed (txt "salom")) complete_echo
           "upload.mp3" empty_world (txt "salom") (txt "salom") (txt "salom")
           (txt "salom") H1 H2 H3 H4).
Defined.

(** X6: with a regular-expression engine that rejects the label pattern
    on every text, [main] of app.py never shows a result: whatever the
    remote calls answer, nothing is put on the page, one error is shown,
    and neither the conversion nor the summary is entered. *)
Theorem main_blocked_by_rejected_pattern
        re_sub_py transcribe complete temp_path w e0 :
  (forall s, re_sub_py Label s = Raise e0) ->
  exists k e,
    k <= 3 /\
    w_trace (snd (AppIO.main re_sub_py transcribe complete temp_path w))
    = w_trace w ++ firstn k pipeline /\
    w_shown (snd (AppIO.main re_sub_py transcribe complete temp_path w))
    = w_shown w ++ [("Xatolik yuz berdi: " ++ exn_str e)%string] /\
    w_page (snd (AppIO.main re_sub_py transcribe complete temp_path w))
    = w_page w.
Proof.
  intros H. run_main.
  destruct (transcribe temp_path) as [t|e]; simpl;
    [|exists 1, e; split; [lia|now split]].
  destruct (complete diarization_prompt t) as [d|e]; simpl;
    [|exists 2, e; rewrite <- app_assoc; split; [lia|now split]].
  destruct (re_sub_py BlankRun (strip d)) as [t1|e]; simpl;
    [|exists 3, e; rewrite <- !app_assoc; split; [lia|now split]].
  rewrite H. simpl.
  exists 3, e0. rewrite <- !app_assoc. split; [lia|now split].
Qed.

Lemma main_blocked_by_rejected_pattern_witness :
  (forall s, re_sub_rejecting Label s = Raise re_error) /\
  exists k e,
    k <= 3 /\
    w_trace (snd (AppIO.main re_sub_rejecting
                    (transcribe_fixed (txt "speaker 1: salom"))
                    complete_echo "upload.mp3" empty_world))
    = [] ++ firstn k pipeline /\
    w_shown (snd (AppIO.main re_sub_rejecting
                    (transcribe_fixed (txt "speaker 1: salom"))
                    complete_echo "upload.mp3" empty_world))
    = [] ++ [("Xatolik yuz berdi: " ++ exn_str e)%string] /\
    w_page (snd (AppIO.main re_sub_rejecting
                   (transcribe_fixed (txt "speaker 1: salom"))
                   complete_echo "upload.mp3" empty_world))
    = [].
Proof.
  assert (H : forall s, re_sub_rejecting Label s = Raise re_error)
    by (intros s; reflexivity).
  split; [exact H|].
  exact (main_blocked_by_rejected_pattern re_sub_rejecting
           (transcribe_fixed (txt "speaker 1: salom")) complete_echo
           "upload.mp3" empty_world re_error H).
Defined.

(** ** The temporary file *)

Lemma cleanup_written fs path data q :
  AppPage.cleanup (put_file fs path data) path q
  = if String.eqb q path then None else fs q.
Proof.
  unfold AppPage.cleanup, os_path_exists, put_file, os_unlink.
  rewrite String.eqb_refl. destruct (String.eqb q path); reflexivity.
Qed.


(** X7: what [main] of app.py leaves of the temporary file of an upload.
    When the file has been made and the upload written to it, then at the
    end of [main], whether the stages succeeded or one of them raised,
    there is no file at the temporary path and every other file is as it
    was.  When the writing raises, [temp_path] is not assigned and the
    [finally] clause removes nothing: the file stays on disk with the bytes
    that were written, every other file is as it was, no stage is entered,
    and the exception is shown and logged as those of the stages are. *)
Theorem temp_file_after_main
        re_sub_py named_temporary_file audio_transcribe complete
        f fs w temp_file :
  AppPage.new_temp_path named_temporary_file f fs = Ok temp_file ->
  match tf_write temp_file (up_value f) with
  | Written =>
      forall q,
        fst (AppPage.main re_sub_py named_temporary_file audio_transcribe
               complete (Some f) fs w) q
        = if String.eqb q (tf_name temp_file) then None else fs q
  | WriteFailed e partial =>
      (forall q,
         fst (AppPage.main re_sub_py named_temporary_file audio_transcribe
                complete (Some f) fs w) q
         = if String.eqb q (tf_name temp_file) then Some partial else fs q) /\
      snd (AppPage.main re_sub_py named_temporary_file audio_transcribe
             complete (Some f) fs w)
      = World (w_log w ++ [("Qayta ishlashda xatolik: " ++ exn_str e)%string])
              (w_trace w)
              (w_shown w ++ [("Xatolik yuz berdi: " ++ exn_str e)%string])
              (w_page w)
  end.
Proof.
  intros H. unfold AppPage.main. rewrite H.
  destruct (tf_write temp_file (up_value f)) as [|e partial]; simpl.
  - intros q. apply cleanup_written.
  - split; [|reflexivity]. intros q. reflexivity.
Qed.

Lemma temp_file_after_main_witness :
  AppPage.new_temp_path (temp_unwritable "/tmp/tmpab12.mp3")
    (UploadedFile (txt "talk.mp3") (txt "RIFF")) no_files
  = Ok (TempFile "/tmp/tmpab12.mp3"
          (fun data => WriteFailed disk_full (firstn 2 data))) /\
  (forall q,
     fst (AppPage.main re_sub_total (temp_unwritable "/tmp/tmpab12.mp3")
            (fun data => Ok data) complete_echo
            (Some (UploadedFile (txt "talk.mp3") (txt "RIFF")))
            no_files empty_world) q
     = if String.eqb q "/tmp/tmpab12.mp3" then Some (txt "RI")
       else no_files q) /\
  snd (AppPage.main re_sub_total (temp_unwritable "/tmp/tmpab12.mp3")
         (fun data => Ok data) complete_echo
         (Some (UploadedFile (txt "talk.mp3") (txt "RIFF")))
         no_files empty_world)
  = World ([] ++ [("Qayta ishlashda xatolik: " ++ exn_str disk_full)%string])
          []
          ([] ++ [("Xatolik yuz berdi: " ++ exn_str disk_full)%string])
          [].
Proof.
  assert (H : AppPage.new_temp_path (temp_unwritable "/tmp/tmpab12.mp3")
                (UploadedFile (txt "talk.mp3") (txt "RIFF")) no_files
              = Ok (TempFile "/tmp/tmpab12.mp3"
                      (fun data => WriteFailed disk_full (firstn 2 data))))
    by reflexivity.
  split; [exact H|].
  exact (temp_file_after_main re_sub_total
           (temp_unwritable "/tmp/tmpab12.mp3") (fun data => Ok data)
           complete_echo (UploadedFile (txt "talk.mp3") (txt "RIFF"))
           no_files empty_world
           (TempFile "/tmp/tmpab12.mp3"
              (fun data => WriteFailed disk_full (firstn 2 data))) H).
Defined.



(** X9: when the temporary file of an upload cannot be made, [main] of
    app.py handles the exception as it does those of the stages: it shows
    one error and logs one message, both with the text of the exception,
    enters no stage, puts nothing on the page and leaves the files as they
    were. *)
Theorem temp_file_failure_handled
        re_sub_py named_temporary_file audio_transcribe complete f fs w e :
  AppPage.new_temp_path named_temporary_file f fs = Raise e ->
  AppPage.main re_sub_py named_temporary_file audio_transcribe complete
    (Some f) fs w
  = (fs,
     World (w_log w ++ [("Qayta ishlashda xatolik: " ++ exn_str e)%string])
           (w_trace w)
           (w_shown w ++ [("Xatolik yuz berdi: " ++ exn_str e)%string])
           (w_page w)).
Proof. intros H. unfold AppPage.main. now rewrite H. Qed.

Lemma temp_file_failure_handled_witness :
  AppPage.new_temp_path temp_failing
    (UploadedFile (txt "talk.mp3") (txt "RIFF")) no_files
  = Raise disk_full /\
  AppPage.main re_sub_total temp_failing (fun data => Ok data) complete_echo
    (Some (UploadedFile (txt "talk.mp3") (txt "RIFF"))) no_files empty_world
  = (no_files,
     World ([] ++ [("Qayta ishlashda xatolik: " ++ exn_str disk_full)%string])
           []
           ([] ++ [("Xatolik yuz berdi: " ++ exn_str disk_full)%string])
           []).
Proof.
  assert (H : AppPage.new_temp_path temp_failing
                (UploadedFile (txt "talk.mp3") (txt "RIFF")) no_files
              = Raise disk_full) by reflexivity.
  split; [exact H|].
  exact (temp_file_failure_handled re_sub_total temp_failing
           (fun data => Ok data) complete_echo
           (UploadedFile (txt "talk.mp3") (txt "RIFF")) no_files empty_world
           disk_full H).
Defined.

(** ** The script of main.py *)

Lemma main_cleanup_written fs path data q :
  MainIO.cleanup (put_file fs path data) path q
  = if String.eqb q path then None else fs q.
Proof.
  unfold MainIO.cleanup, os_path_exists, put_file, os_unlink.
  rewrite String.eqb_refl. destruct (String.eqb q path); reflexivity.
Qed.

Lemma process_written audio_transcribe complete fs path data :
  MainIO.process_audio_with_diarization audio_transcribe complete
    (put_file fs path data) path
  = match audio_transcribe data with
    | Raise e => Raise e
    | Ok initial_transcript =>
        match complete MainIO.diarization_prompt initial_transcript with
        | Raise e => Raise e
        | Ok diarized =>
            Ok (MainIO.Results (Main.format_speaker_labels diarized)
                               initial_transcript)
        end
    end.
Proof.
  unfold MainIO.process_audio_with_diarization, open_rb, put_file.
  now rewrite String.eqb_refl.
Qed.

(** X10: how the script of main.py ends once its temporary file has been
    made.  When the upload is written to it, the script ends without an
    exception whatever the remote calls do; it removes the temporary file
    and leaves every other file as it was; and what it adds to the page is
    an error alone, or the diarized transcript under its heading followed
    by the heading of the analysis and an error, or the transcript, the
    analysis and the two download buttons.  When the writing raises, which
    happens before the [try], the exception leaves the script, nothing is
    put on the page, and the file stays on disk with the bytes that were
    written. *)
Theorem script_outcome
        named_temporary_file audio_transcribe complete data fs page
        temp_file :
  named_temporary_file fs (txt ".mp3") = Ok temp_file ->
  match tf_write temp_file data with
  | Written =>
      exists fs' added,
        MainIO.script named_temporary_file audio_transcribe complete
          (Some data) fs page
        = (Ok tt, (fs', page ++ added)) /\
        (forall q,
           fs' q = if String.eqb q (tf_name temp_file) then None else fs q) /\
        ((exists e,
            added
            = [st_error_box ("An error occurred: " ++ exn_str e)%string]) \/
         (exists d e,
            added
            = [st_subheader "Diarized Transcript"; st_markdown d;
               st_subheader "Analysis";
               st_error_box ("An error occurred: " ++ exn_str e)%string]) \/
         (exists d raw analysis,
            added
            = [st_subheader "Diarized Transcript"; st_markdown d;
               st_subheader "Analysis"; st_write analysis;
               st_download_button "Download Diarized Transcript" d
                 "diarized_transcript.txt";
               st_download_button "Download Raw Transcript" raw
                 "raw_transcript.txt"]))
  | WriteFailed e partial =>
      MainIO.script named_temporary_file audio_transcribe complete
        (Some data) fs page
      = (Raise e, (put_file fs (tf_name temp_file) partial, page))
  end.
Proof.
  intros H. unfold MainIO.script. rewrite H.
  destruct (tf_write temp_file data) as [|e0 partial]; [|reflexivity].
  unfold MainIO.show_results. rewrite process_written.
  unfold MainIO.analyze_conversation.
  destruct (audio_transcribe data) as [t|e].
  2:{ eexists; exists [st_error_box ("An error occurred: " ++ exn_str e)%string].
      split; [reflexivity|]. split; [apply main_cleanup_written|].
      left. now exists e. }
  destruct (complete MainIO.diarization_prompt t) as [d|e].
  2:{ eexists; exists [st_error_box ("An error occurred: " ++ exn_str e)%string].
      split; [reflexivity|]. split; [apply main_cleanup_written|].
      left. now exists e. }
  simpl.
  destruct (complete MainIO.analysis_prompt (Main.format_speaker_labels d))
    as [a|e].
  - eexists; eexists. split; [rewrite <- app_assoc; reflexivity|].
    split; [apply main_cleanup_written|].
    right; right. now exists (Main.format_speaker_labels d), t, a.
  - eexists; eexists. split; [rewrite <- app_assoc; reflexivity|].
    split; [apply main_cleanup_written|].
    right; left. now exists (Main.format_speaker_labels d), e.
Qed.

Lemma script_outcome_witness :
  temp_unwritable "/tmp/tmpab12.mp3" no_files (txt ".mp3")
  = Ok (TempFile "/tmp/tmpab12.mp3"
          (fun data => WriteFailed disk_full (firstn 2 data))) /\
  MainIO.script (temp_unwritable "/tmp/tmpab12.mp3") (fun data => Ok data)
    (fun _ s => Ok s) (Some (txt "RIFF")) no_files []
  = (Raise disk_full,
     (put_file no_files "/tmp/tmpab12.mp3" (txt "RI"), [])).
Proof.
  assert (H : temp_unwritable "/tmp/tmpab12.mp3" no_files (txt ".mp3")
              = Ok (TempFile "/tmp/tmpab12.mp3"
                      (fun data => WriteFailed disk_full (firstn 2 data))))
    by reflexivity.
  split; [exact H|].
  exact (script_outcome (temp_unwritable "/tmp/tmpab12.mp3")
           (fun data => Ok data) (fun _ s => Ok s) (txt "RIFF") no_files []
           (TempFile "/tmp/tmpab12.mp3"
              (fun data => WriteFailed disk_full (firstn 2 data))) H).
Defined.

(** X11: in main.py the diarized transcript is on the page before the
    analysis is asked for: when the upload is saved, the transcription and
    the diarization answer and the analysis raises, the page shows the
    formatted transcript under its heading, the heading of the analysis and
    the error; there is no analysis and no download button. *)
Theorem script_keeps_transcript_when_analysis_fails
        named_temporary_file audio_transcribe complete data fs page
        temp_file t d e :
  named_temporary_file fs (txt ".mp3") = Ok temp_file ->
  tf_write temp_file data = Written ->
  audio_transcribe data = Ok t ->
  complete MainIO.diarization_prompt t = Ok d ->
  complete MainIO.analysis_prompt (Main.format_speaker_labels d) = Raise e ->
  exists fs',
    MainIO.script named_temporary_file audio_transcribe complete
      (Some data) fs page
    = (Ok tt,
       (fs',
        page ++ [st_subheader "Diarized Transcript";
                 st_markdown (Main.format_speaker_labels d);
                 st_subheader "Analysis";
                 st_error_box ("An error occurred: " ++ exn_str e)%string])).
Proof.
  intros H Hw Ht Hd He. unfold MainIO.script. rewrite H, Hw.
  unfold MainIO.show_results. rewrite process_written, Ht, Hd.
  unfold MainIO.analyze_conversation. simpl. rewrite He.
  eexists. rewrite <- app_assoc. reflexivity.
Qed.

Lemma script_keeps_transcript_when_analysis_fails_witness :
  temp_fixed "/tmp/tmpab12.mp3" no_files (txt ".mp3")
  = Ok (TempFile "/tmp/tmpab12.mp3" (fun _ => Written)) /\
  tf_write (TempFile "/tmp/tmpab12.mp3" (fun _ => Written)) (txt "RIFF")
  = Written /\
  audio_fixed (txt "speaker 1: hi") (txt "RIFF") = Ok (txt "speaker 1: hi") /\
  analysis_refused MainIO.diarization_prompt (txt "speaker 1: hi")
  = Ok (txt "speaker 1: hi") /\
  analysis_refused MainIO.analysis_prompt
    (Main.format_speaker_labels (txt "speaker 1: hi"))
  = Raise rate_limit_error /\
  exists fs',
    MainIO.script (temp_fixed "/tmp/tmpab12.mp3")
      (audio_fixed (txt "speaker 1: hi")) analysis_refused
      (Some (txt "RIFF")) no_files []
    = (Ok tt,
       (fs',
        [] ++ [st_subheader "Diarized Transcript";
               st_markdown (Main.format_speaker_labels (txt "speaker 1: hi"));
               st_subheader "Analysis";
               st_error_box
                 ("An error occurred: " ++ exn_str rate_limit_error)%string])).
Proof.
  assert (H1 : temp_fixed "/tmp/tmpab12.mp3" no_files (txt ".mp3")
               = Ok (TempFile "/tmp/tmpab12.mp3" (fun _ => Written)))
    by reflexivity.
  assert (Hw : tf_write (TempFile "/tmp/tmpab12.mp3" (fun _ => Written))
                 (txt "RIFF") = Written) by reflexivity.
  assert (H2 : audio_fixed (txt "speaker 1: hi") (txt "RIFF")
               = Ok (txt "speaker 1: hi")) by reflexivity.
  assert (H3 : analysis_refused MainIO.diarization_prompt (txt "speaker 1: hi")
               = Ok (txt "speaker 1: hi")) by reflexivity.
  assert (H4 : analysis_refused MainIO.analysis_prompt
                 (Main.format_speaker_labels (txt "speaker 1: hi"))
               = Raise rate_limit_error) by reflexivity.
  split; [exact H1|]. split; [exact Hw|]. split; [exact H2|].
  split; [exact H3|]. split; [exact H4|].
  exact (script_keeps_transcript_when_analysis_fails
           (temp_fixed "/tmp/tmpab12.mp3") (audio_fixed (txt "speaker 1: hi"))
           analysis_refused (txt "RIFF") no_files []
           (TempFile "/tmp/tmpab12.mp3" (fun _ => Written))
           (txt "speaker 1: hi") (txt "speaker 1: hi") rate_limit_error
           H1 Hw H2 H3 H4).
Defined.

(** X12: when the upload is saved and the three remote calls of main.py
    answer, the page shows the diarization formatted by
    [format_speaker_labels] and the analysis made from that formatted text;
    the first download button carries the formatted text and the second the
    transcription as it was returned, not formatted. *)
Theorem script_success
        named_temporary_file audio_transcribe complete data fs page
        temp_file t d a :
  named_temporary_file fs (txt ".mp3") = Ok temp_file ->
  tf_write temp_file data = Written ->
  audio_transcribe data = Ok t ->
  complete MainIO.diarization_prompt t = Ok d ->
  complete MainIO.analysis_prompt (Main.format_speaker_labels d) = Ok a ->
  exists fs',
    MainIO.script named_temporary_file audio_transcribe complete
      (Some data) fs page
    = (Ok tt,
       (fs',
        page ++ [st_subheader "Diarized Transcript";
                 st_markdown (Main.format_speaker_labels d);
                 st_subheader "Analysis"; st_write a;
                 st_download_button "Download Diarized Transcript"
                   (Main.format_speaker_labels d) "diarized_transcript.txt";
                 st_download_button "Download Raw Transcript" t
                   "raw_transcript.txt"])).
Proof.
  intros H Hw Ht Hd Ha. unfold MainIO.script. rewrite H, Hw.
  unfold MainIO.show_results. rewrite process_written, Ht, Hd.
  unfold MainIO.analyze_conversation. simpl. rewrite Ha.
  eexists. rewrite <- app_assoc. reflexivity.
Qed.

Lemma script_success_witness :
  temp_fixed "/tmp/tmpab12.mp3" no_files (txt ".mp3")
  = Ok (TempFile "/tmp/tmpab12.mp3" (fun _ => Written)) /\
  tf_write (TempFile "/tmp/tmpab12.mp3" (fun _ => Written)) (txt "RIFF")
  = Written /\
  audio_fixed (txt "speaker 1: hi") (txt "RIFF") = Ok (txt "speaker 1: hi") /\
  main_complete_echo MainIO.diarization_prompt (txt "speaker 1: hi")
  = Ok (txt "speaker 1: hi") /\
  main_complete_echo MainIO.analysis_prompt
    (Main.format_speaker_labels (txt "speaker 1: hi"))
  = Ok (txt "Speaker 1: hi") /\
  exists fs',
    MainIO.script (temp_fixed "/tmp/tmpab12.mp3")
      (audio_fixed (txt "speaker 1: hi")) main_complete_echo
      (Some (txt "RIFF")) no_files []
    = (Ok tt,
       (fs',
        [] ++ [st_subheader "Diarized Transcript";
               st_markdown (Main.format_speaker_labels (txt "speaker 1: hi"));
               st_subheader "Analysis"; st_write (txt "Speaker 1: hi");
               st_download_button "Download Diarized Transcript"
                 (Main.format_speaker_labels (txt "speaker 1: hi"))
                 "diarized_transcript.txt";
               st_download_button "Download Raw Transcript"
                 (txt "speaker 1: hi") "raw_transcript.txt"])).
Proof.
  assert (H1 : temp_fixed "/tmp/tmpab12.mp3" no_files (txt ".mp3")
               = Ok (TempFile "/tmp/tmpab12.mp3" (fun _ => Written)))
    by reflexivity.
  assert (Hw : tf_write (TempFile "/tmp/tmpab12.mp3" (fun _ => Written))
                 (txt "RIFF") = Written) by reflexivity.
  assert (H2 : audio_fixed (txt "speaker 1: hi") (txt "RIFF")
               = Ok (txt "speaker 1: hi")) by reflexivity.
  assert (H3 : main_complete_echo MainIO.diarization_prompt
                 (txt "speaker 1: hi")
               = Ok (txt "speaker 1: hi")) by reflexivity.
  assert (H4 : main_complete_echo MainIO.analysis_prompt
                 (Main.format_speaker_labels (txt "speaker 1: hi"))
               = Ok (txt "Speaker 1: hi")) by reflexivity.
  split; [exact H1|]. split; [exact Hw|]. split; [exact H2|].
  split; [exact H3|]. split; [exact H4|].
  exact (script_success
           (temp_fixed "/tmp/tmpab12.mp3") (audio_fixed (txt "speaker 1: hi"))
           main_complete_echo (txt "RIFF") no_files []
           (TempFile "/tmp/tmpab12.mp3" (fun _ => Written))
           (txt "speaker 1: hi") (txt "speaker 1: hi") (txt "Speaker 1: hi")
           H1 Hw H2 H3 H4).
Defined.

(** ** Whitespace around the text *)

Lemma lstrip_space_app a s :
  forallb is_space a = true -> lstrip (a ++ s) = lstrip s.
Proof.
  induction a as [|c a IH]; simpl; [reflexivity|].
  intros H. apply andb_prop in H. destruct H as [Hc Ha].
  rewrite Hc. now apply IH.
Qed.

Lemma lstrip_all_space a : forallb is_space a = true -> lstrip a = [].
Proof.
  intros H. rewrite <- (app_nil_r a). now rewrite lstrip_space_app.
Qed.

Lemma lstrip_nil_space s : lstrip s = [] -> forallb is_space s = true.
Proof.
  induction s as [|c t IH]; simpl; [reflexivity|].
  destruct (is_space c); [exact IH|discriminate].
Qed.

Lemma rstrip_app_space s b :
  forallb is_space b = true -> rstrip (s ++ b) = rstrip s.
Proof.
  intros H. unfold rstrip. rewrite rev_app_distr, lstrip_space_app; [reflexivity|].
  rewrite forallb_forall in *. intros x Hx. apply H. now apply in_rev.
Qed.

Lemma lstrip_app_space s b :
  forallb is_space b = true ->
  lstrip (s ++ b) = lstrip s ++ b \/ (lstrip (s ++ b) = [] /\ lstrip s = []).
Proof.
  intros H. induction s as [|c t IH]; simpl.
  - right. split; [now apply lstrip_all_space|reflexivity].
  - destruct (is_space c); [exact IH|now left].
Qed.

Lemma strip_outer_space a s b :
  forallb is_space a = true -> forallb is_space b = true ->
  strip (a ++ s ++ b) = strip s.
Proof.
  intros Ha Hb. unfold strip. rewrite (lstrip_space_app _ _ Ha).
  destruct (lstrip_app_space s b Hb) as [E|[E1 E2]].
  - rewrite E. now apply rstrip_app_space.
  - now rewrite E1, E2.
Qed.

Lemma strip_nil_iff s : strip s = [] <-> forallb is_space s = true.
Proof.
  split.
  - intros H. unfold strip, rstrip in H.
    apply (f_equal (@rev ascii)) in H. rewrite rev_involutive in H. simpl in H.
    apply lstrip_nil_space in H. apply lstrip_nil_space.
    destruct (lstrip_spec s) as (a & E & Ha & Hs).
    destruct (lstrip s) as [|c t] eqn:El; [reflexivity|].
    exfalso. simpl in Hs. rewrite forallb_forall in H.
    assert (Hc : is_space c = true).
    { apply H. apply -> in_rev. now left. }
    rewrite Hc in Hs. discriminate.
  - intros H. unfold strip. now rewrite (lstrip_all_space _ H).
Qed.


Lemma suxbatdosh_repl_nonempty d : suxbatdosh_repl d <> [].
Proof. discriminate. Qed.

Lemma speaker_repl_nonempty d : speaker_repl d <> [].
Proof. discriminate. Qed.

Lemma insert_breaks_nil_inv w s : insert_breaks w s = [] -> s = [].
Proof. destruct s; [reflexivity|discriminate]. Qed.

(** X13: app.py's [format_speaker_labels] does not see the whitespace
    around its input: putting whitespace before and after a text, of any
    kind and length, does not change the formatted text. *)
Theorem app_format_ignores_outer_space a s b :
  forallb is_space a = true -> forallb is_space b = true ->
  App.format_speaker_labels (a ++ s ++ b) = App.format_speaker_labels s.
Proof.
  intros Ha Hb. rewrite !app_format_eq.
  now rewrite (strip_outer_space _ _ _ Ha Hb).
Qed.

Lemma app_format_ignores_outer_space_witness :
  forallb is_space (txt "  ") = true /\
  forallb is_space [nl; nl; nl] = true /\
  App.format_speaker_labels (txt "  " ++ txt "speaker 1: hi" ++ [nl; nl; nl])
  = App.format_speaker_labels (txt "speaker 1: hi").
Proof.
  assert (H1 : forallb is_space (txt "  ") = true) by reflexivity.
  assert (H2 : forallb is_space [nl; nl; nl] = true) by reflexivity.
  split; [exact H1|]. split; [exact H2|].
  exact (app_format_ignores_outer_space (txt "  ") (txt "speaker 1: hi")
           [nl; nl; nl] H1 H2).
Defined.

(** X14: the formatted text is empty only for an input with nothing to
    format: app.py's [format_speaker_labels] returns the empty text
    exactly on the inputs made of whitespace only, and main.py's exactly on
    the empty input. *)
Theorem format_empty_iff s :
  (App.format_speaker_labels s = [] <-> forallb is_space s = true) /\
  (Main.format_speaker_labels s = [] <-> s = []).
Proof.
  split; split.
  - rewrite app_format_eq. intros H. apply insert_breaks_nil_inv in H.
    apply strip_nil_iff.
    destruct (strip s) as [|c t] eqn:E; [reflexivity|]. exfalso.
    revert H. apply label_pass_nonempty; [apply suxbatdosh_repl_nonempty|].
    apply blank_pass_nonempty. discriminate.
  - intros H. rewrite app_format_eq. apply strip_nil_iff in H. now rewrite H.
  - rewrite main_format_eq. intros H. apply insert_breaks_nil_inv in H.
    destruct s as [|c t]; [reflexivity|]. exfalso.
    revert H. apply label_pass_nonempty; [apply speaker_repl_nonempty|].
    discriminate.
  - intros ->. reflexivity.
Qed.

(** ** No loose label is left by app.py *)

Lemma Marker_last m d y a : Marker m d -> m = y ++ [a] -> a = ":"%char.
Proof.
  intros H E. destruct H as [ob w ws1 d cb ws2 _ _ _ _ _ _ _].
  replace (ob ++ w ++ ws1 ++ d ++ cb ++ ws2 ++ [":"%char])
    with ((ob ++ w ++ ws1 ++ d ++ cb ++ ws2) ++ [":"%char]) in E
    by (now rewrite <- !app_assoc).
  apply app_inj_tail in E. now destruct E.
Qed.

Lemma Marker_not_Su d l : ~ Marker ("S"%char :: "u"%char :: l) d.
Proof.
  intros H. pose proof (speaker_label_complete _ _ [] false H) as E.
  rewrite app_nil_r, label_s_not_p in E; [discriminate| |]; reflexivity.
Qed.

Lemma starter_inside x r :
  forallb (fun c => negb (starter c)) (x ++ "S"%char :: r) = true -> False.
Proof.
  rewrite forallb_app. simpl. rewrite andb_false_r. discriminate.
Qed.

Lemma Marker_no_Su x l d : ~ Marker (x ++ "S"%char :: "u"%char :: l) d.
Proof.
  intros H. destruct (Marker_shape _ _ H) as (ob & c0 & t & E & Hob & Hm & Ht).
  destruct Hob as [Hob|Hob]; subst ob; simpl in E.
  - destruct x as [|c x]; simpl in E; injection E as E0 E1; subst.
    + now apply Marker_not_Su in Hm.
    + now apply starter_inside in Ht.
  - destruct x as [|c [|c1 x]]; simpl in E.
    + discriminate.
    + injection E as _ E0 E1. subst. now apply Marker_not_Su in Hm.
    + injection E as _ E0 E1. subst. now apply starter_inside in Ht.
Qed.

(** A marker at the head of a text followed by the output of the label
    substitution was already there before the substitution. *)
Lemma label_pass_no_new_marker : forall t x b m d r,
  x ++ label_pass suxbatdosh_repl b t = m ++ r -> Marker m d ->
  exists r', x ++ t = m ++ r'.
Proof.
  induction t as [|c t IH]; intros x b m d r H Hm.
  - rewrite label_pass_nil in H. eauto.
  - destruct (label_pass_step suxbatdosh_repl b (c :: t))
      as [(m0 & d0 & z & E & Hm0 & Eo)|[(c' & t' & E & Hs & Eo)|[E _]]];
      [| |discriminate].
    + rewrite Eo in H. unfold suxbatdosh_repl in H. simpl in H.
      apply app_eq_app in H. destruct H as (l & [[Hx Hr]|[Hx Hl]]).
      * subst x. rewrite <- app_assoc. eauto.
      * destruct l as [|a [|a2 l]].
        -- rewrite app_nil_r in Hx. subst m. eauto.
        -- simpl in Hl. injection Hl as Ha _. subst a.
           pose proof (Marker_last _ _ _ _ Hm Hx). discriminate.
        -- simpl in Hl. injection Hl as Ha Ha2 _. subst a a2 m.
           now apply Marker_no_Su in Hm.
    + injection E as E0 E1. subst c' t'. rewrite Eo in H.
      change (c :: label_pass suxbatdosh_repl false t)
        with ([c] ++ label_pass suxbatdosh_repl false t) in H.
      rewrite app_assoc in H. destruct (IH _ _ _ _ _ H Hm) as (r' & E).
      rewrite <- app_assoc in E. eauto.
Qed.

Lemma label_pass_settles : forall v b,
  any_label (label_pass suxbatdosh_repl b v) = false.
Proof.
  intros v. induction v as [v IH] using text_length_ind. intros b.
  destruct (label_pass_step suxbatdosh_repl b v)
    as [(m & d & z & E & Hm & Eo)|[(c & t & E & Hs & Eo)|[E Eo]]].
  - rewrite Eo, any_label_suxbatdosh.
    + apply IH. subst v. rewrite length_app.
      pose proof (Marker_nonempty _ _ Hm). destruct m; [contradiction|simpl; lia].
    + destruct Hm. assumption.
  - rewrite Eo. simpl any_label. rewrite IH by (subst v; simpl; lia).
    rewrite orb_false_r.
    destruct (search speaker_label false false
                (c :: label_pass suxbatdosh_repl false t))
      as [[d n]|] eqn:Es'; [|reflexivity].
    exfalso. apply search_label_sound in Es'.
    destruct Es' as (m & r & Em & _ & Hm).
    destruct (label_pass_no_new_marker t [c] false m d r Em Hm) as (r' & E').
    subst v. simpl in E'. exact (search_label_none _ _ Hs _ _ _ E' Hm).
  - now rewrite Eo.
Qed.


Lemma turn_suxbatdosh_head s :
  Turn suxbatdosh s -> exists r, s = "S"%char :: "u"%char :: r.
Proof. intros H. destruct H as [d z _ _]. simpl. eauto. Qed.

Lemma breaks_u t :
  exists B, breaks suxbatdosh ("u"%char :: t) = "u"%char :: B.
Proof.
  simpl breaks. destruct (starts_turn suxbatdosh ("u"%char :: t)) eqn:E.
  - apply starts_turn_iff, turn_suxbatdosh_head in E.
    destruct E as (r & E). discriminate.
  - simpl. eauto.
Qed.

(** A marker at the head of a text followed by the output of the
    paragraph pass was already there before the pass. *)
Lemma breaks_no_new_marker : forall t x m d r,
  x ++ breaks suxbatdosh t = m ++ r -> Marker m d ->
  exists r', x ++ t = m ++ r'.
Proof.
  induction t as [|c t IH]; intros x m d r H Hm.
  - simpl in H. eauto.
  - simpl breaks in H.
    destruct (starts_turn suxbatdosh (c :: t)) eqn:Es.
    + apply starts_turn_iff, turn_suxbatdosh_head in Es.
      destruct Es as (t2 & Es). injection Es as Ec Et. subst c t.
      destruct (breaks_u t2) as (B & EB). rewrite EB in H. simpl in H.
      apply app_eq_app in H. destruct H as (l & [[Hx Hr]|[Hx Hl]]).
      * subst x. rewrite <- app_assoc. eauto.
      * destruct l as [|a1 [|a2 [|a3 [|a4 l]]]]; simpl in Hl.
        -- rewrite app_nil_r in Hx. subst m. eauto.
        -- injection Hl as Ha _. subst a1.
           pose proof (Marker_last _ _ _ _ Hm Hx). discriminate.
        -- injection Hl as _ Ha _. subst a2.
           change [a1; nl] with ([a1] ++ [nl]) in Hx. rewrite app_assoc in Hx.
           pose proof (Marker_last _ _ _ _ Hm Hx). discriminate.
        -- injection Hl as _ _ Ha _. subst a3.
           change [a1; a2; "S"%char] with ([a1; a2] ++ ["S"%char]) in Hx.
           rewrite app_assoc in Hx.
           pose proof (Marker_last _ _ _ _ Hm Hx). discriminate.
        -- injection Hl as _ _ Ha3 Ha4 _. subst a3 a4.
           change (a1 :: a2 :: "S"%char :: "u"%char :: l)
             with ([a1; a2] ++ "S"%char :: "u"%char :: l) in Hx.
           rewrite app_assoc in Hx. subst m.
           now apply Marker_no_Su in Hm.
    + simpl in H. change (c :: breaks suxbatdosh t)
        with ([c] ++ breaks suxbatdosh t) in H.
      rewrite app_assoc in H. destruct (IH _ _ _ _ H Hm) as (r' & E).
      rewrite <- app_assoc in E. eauto.
Qed.

Lemma any_label_cons_inv c t :
  any_label (c :: t) = false ->
  search speaker_label false false (c :: t) = None /\ any_label t = false.
Proof.
  simpl. intros H. apply orb_false_elim in H. destruct H as [H1 H2].
  split; [|exact H2].
  destruct (search speaker_label false false (c :: t)); [discriminate|reflexivity].
Qed.

Lemma any_label_cons_breaks c t :
  any_label (c :: t) = false ->
  any_label (breaks suxbatdosh t) = false ->
  any_label (c :: breaks suxbatdosh t) = false.
Proof.
  intros H HB. apply any_label_cons_inv in H. destruct H as [Hs Ht].
  simpl any_label. rewrite HB, orb_false_r.
  destruct (search speaker_label false false (c :: breaks suxbatdosh t))
    as [[d n]|] eqn:Es'; [|reflexivity].
  exfalso. apply search_label_sound in Es'.
  destruct Es' as (m & r & Em & _ & Hm).
  destruct (breaks_no_new_marker t [c] m d r Em Hm) as (r' & E').
  simpl in E'. exact (search_label_none _ _ Hs _ _ _ E' Hm).
Qed.

Lemma any_label_breaks : forall t,
  any_label t = false -> any_label (breaks suxbatdosh t) = false.
Proof.
  induction t as [|c t IH]; [reflexivity|]. intros H.
  pose proof (any_label_cons_inv _ _ H) as [_ Ht].
  pose proof (any_label_cons_breaks c t H (IH Ht)) as Hc.
  simpl breaks. destruct (starts_turn suxbatdosh (c :: t)); [|exact Hc].
  simpl app.
  rewrite any_label_skip by (apply label_nonstarter; reflexivity).
  rewrite any_label_skip by (apply label_nonstarter; reflexivity).
  exact Hc.
Qed.

Lemma any_label_insert_breaks u :
  any_label u = false -> any_label (insert_breaks suxbatdosh u) = false.
Proof.
  destruct u as [|c t]; [reflexivity|]. intros H. simpl insert_breaks.
  apply any_label_cons_breaks; [exact H|].
  apply any_label_breaks. now apply any_label_cons_inv in H.
Qed.

(** X15: app.py's [format_speaker_labels] leaves no loose speaker label:
    whatever the input, no part of the formatted text matches the label
    pattern (an optional bracket, the word speaker in any case, digits, an
    optional bracket, a colon, with optional whitespace), so that a second
    label substitution would find nothing to replace. *)
Theorem app_format_leaves_no_label s :
  marker_free (App.format_speaker_labels s) /\
  re_sub speaker_label suxbatdosh_repl (App.format_speaker_labels s)
  = App.format_speaker_labels s.
Proof.
  assert (H : any_label (App.format_speaker_labels s) = false).
  { rewrite app_format_eq. apply any_label_insert_breaks, label_pass_settles. }
  split.
  - now apply marker_free_iff.
  - exact (any_label_fixed suxbatdosh_repl _ true H).
Qed.

(** ** What app.py puts on the page *)

Lemma page_grew (page : list text) x y z : page <> page ++ [x; y; z].
Proof.
  intros E. apply (f_equal (@length text)) in E.
  rewrite length_app in E. simpl in E. lia.
Qed.

(** X16: what [main] of app.py puts on the page hangs together: when the
    regular-expression engine works as modelled and three texts are put on
    the page, the first is a formatted text, with no loose speaker label
    and no whitespace at its ends, the second is the answer of the
    conversion to that very text and the third the answer of the summary
    to the second. *)
Theorem shown_texts_are_consistent
        transcribe complete temp_path w formatted uzbek summary :
  w_page (snd (AppIO.main re_sub_total transcribe complete temp_path w))
  = w_page w ++ [formatted; uzbek; summary] ->
  marker_free formatted /\
  stops is_space formatted /\ stops is_space (rev formatted) /\
  complete conversion_prompt formatted = Ok uzbek /\
  complete summary_prompt uzbek = Ok summary.
Proof.
  run_main.
  destruct (transcribe temp_path) as [t|e]; simpl;
    [|intros H; now apply page_grew in H].
  destruct (complete diarization_prompt t) as [d|e]; simpl;
    [|intros H; now apply page_grew in H].
  change (re_sub (turn_start suxbatdosh) (fun _ => [nl; nl])
            (re_sub speaker_label suxbatdosh_repl
               (re_sub blank_run (fun _ => [nl; nl]) (strip d))))
    with (App.format_speaker_labels d).
  destruct (complete conversion_prompt (App.format_speaker_labels d))
    as [u|e] eqn:Eu; simpl; [|intros H; now apply page_grew in H].
  destruct (complete summary_prompt u) as [s|e] eqn:Es; simpl;
    [|intros H; now apply page_grew in H].
  intros H. apply app_inv_head in H. injection H as <- <- <-.
  assert (L : any_label (App.format_speaker_labels d) = false).
  { rewrite app_format_eq. apply any_label_insert_breaks, label_pass_settles. }
  split; [now apply marker_free_iff|].
  split; [apply app_format_ends|]. split; [apply app_format_ends|].
  now split.
Qed.

Lemma shown_texts_are_consistent_witness :
  w_page (snd (AppIO.main re_sub_total
                 (transcribe_fixed (txt " [SPEAKER 1]: salom "))
                 complete_echo "upload.mp3" empty_world))
  = [] ++ [txt "Suxbatdosh 1: salom"; txt "Suxbatdosh 1: salom";
           txt "Suxbatdosh 1: salom"] /\
  marker_free (txt "Suxbatdosh 1: salom") /\
  stops is_space (txt "Suxbatdosh 1: salom") /\
  stops is_space (rev (txt "Suxbatdosh 1: salom")) /\
  complete_echo conversion_prompt (txt "Suxbatdosh 1: salom")
  = Ok (txt "Suxbatdosh 1: salom") /\
  complete_echo summary_prompt (txt "Suxbatdosh 1: salom")
  = Ok (txt "Suxbatdosh 1: salom").
Proof.
  assert (H : w_page (snd (AppIO.main re_sub_total
                             (transcribe_fixed (txt " [SPEAKER 1]: salom "))
                             complete_echo "upload.mp3" empty_world))
              = [] ++ [txt "Suxbatdosh 1: salom"; txt "Suxbatdosh 1: salom";
                       txt "Suxbatdosh 1: salom"])
    by (vm_compute; reflexivity).
  split; [exact H|].
  exact (shown_texts_are_consistent
           (transcribe_fixed (txt " [SPEAKER 1]: salom ")) complete_echo
           "upload.mp3" empty_world (txt "Suxbatdosh 1: salom")
           (txt "Suxbatdosh 1: salom") (txt "Suxbatdosh 1: salom") H).
Defined.

(** ** The label at the start of the text *)

Lemma starts_turn_other w' c t :
  Ascii.eqb c "S"%char = false ->
  starts_turn ("S"%char :: w') (c :: t) = false.
Proof.
  intros Hc. destruct (starts_turn ("S"%char :: w') (c :: t)) eqn:E;
    [|reflexivity].
  apply starts_turn_iff in E. remember (c :: t) as s eqn:Es.
  destruct E as [d z _ _]. simpl in Es. injection Es as Ec _. subst c.
  discriminate.
Qed.

Lemma breaks_through w' p X :
  forallb (fun c => negb (Ascii.eqb c "S"%char)) p = true ->
  breaks ("S"%char :: w') (p ++ X) = p ++ breaks ("S"%char :: w') X.
Proof.
  induction p as [|a p IH]; [reflexivity|]. simpl forallb. intros H.
  apply andb_prop in H. destruct H as [Ha Hp]. apply negb_true_iff in Ha.
  change ((a :: p) ++ X) with (a :: p ++ X).
  rewrite breaks_cons, (starts_turn_other _ _ _ Ha), (IH Hp). reflexivity.
Qed.

Lemma digit_not_S c : is_digit c = true -> Ascii.eqb c "S"%char = false.
Proof. all_chars c. Qed.

Lemma digits_not_S d :
  forallb is_digit d = true ->
  forallb (fun c => negb (Ascii.eqb c "S"%char)) d = true.
Proof.
  induction d as [|c d IH]; simpl; [reflexivity|]. intros H.
  apply andb_prop in H. destruct H as [Hc Hd].
  now rewrite (digit_not_S _ Hc), IH.
Qed.

Lemma speaker_repl_in_place d X :
  forallb is_digit d = true ->
  insert_breaks speaker (speaker_repl d ++ X)
  = speaker_repl d ++ breaks speaker X.
Proof.
  intros Hd. unfold speaker_repl.
  replace ((txt "Speaker " ++ d ++ txt ":") ++ X)
    with ("S"%char :: (txt "peaker " ++ d ++ txt ":") ++ X)
    by (simpl; now rewrite <- !app_assoc).
  change speaker with ("S"%char :: txt "peaker"). simpl insert_breaks.
  rewrite breaks_through; [reflexivity|].
  rewrite !forallb_app, (digits_not_S _ Hd). reflexivity.
Qed.

Lemma suxbatdosh_repl_in_place d X :
  forallb is_digit d = true ->
  insert_breaks suxbatdosh (suxbatdosh_repl d ++ X)
  = suxbatdosh_repl d ++ breaks suxbatdosh X.
Proof.
  intros Hd. unfold suxbatdosh_repl.
  replace ((txt "Suxbatdosh " ++ d ++ txt ":") ++ X)
    with ("S"%char :: (txt "uxbatdosh " ++ d ++ txt ":") ++ X)
    by (simpl; now rewrite <- !app_assoc).
  change suxbatdosh with ("S"%char :: txt "uxbatdosh"). simpl insert_breaks.
  rewrite breaks_through; [reflexivity|].
  rewrite !forallb_app, (digits_not_S _ Hd). reflexivity.
Qed.

Lemma starter_not_space c : starter c = true -> is_space c = false.
Proof. all_chars c. Qed.

Lemma Marker_ends m d :
  Marker m d -> m <> [] /\ stops is_space m /\ stops is_space (rev m).
Proof.
  intros H. split; [now apply Marker_nonempty in H|]. split.
  - destruct (Marker_head_starter _ _ H) as (c & t & -> & Hc).
    now apply starter_not_space.
  - destruct H as [ob w ws1 d cb ws2 _ _ _ _ _ _ _].
    rewrite !rev_app_distr. reflexivity.
Qed.

Lemma lstrip_app_stop a b :
  b <> [] -> stops is_space b -> lstrip (a ++ b) = lstrip a ++ b.
Proof.
  intros Hb Hs. induction a as [|c a IH]; simpl.
  - now apply lstrip_fixed.
  - destruct (is_space c); [exact IH|reflexivity].
Qed.

Lemma rstrip_keep m z :
  m <> [] -> stops is_space (rev m) -> rstrip (m ++ z) = m ++ rstrip z.
Proof.
  intros Hm Hs. unfold rstrip. rewrite rev_app_distr, lstrip_app_stop.
  - now rewrite rev_app_distr, rev_involutive.
  - intros E. apply (f_equal (@rev ascii)) in E.
    rewrite rev_involutive in E. now apply Hm.
  - exact Hs.
Qed.

Lemma blank_through m Z : forall b,
  no_nl m = true -> blank_pass b (m ++ Z) = m ++ blank_pass false Z.
Proof.
  induction m as [|c m IH]; intros b H.
  - apply blank_pass_bos.
  - simpl in H. apply andb_prop in H. destruct H as [Hc Hm].
    apply negb_true_iff in Hc. simpl app.
    now rewrite (blank_pass_char _ _ _ Hc), IH.
Qed.

(** X17: a label at the start of the text is rewritten in place, with no
    break before it: when the input of main.py's [format_speaker_labels]
    starts with a label, the output starts with the canonical label of the
    same number. *)
Theorem main_first_label_in_place m d z :
  Marker m d ->
  exists r, Main.format_speaker_labels (m ++ z) = speaker_repl d ++ r.
Proof.
  intros Hm.
  assert (Hd : forallb is_digit d = true) by (destruct Hm; assumption).
  rewrite main_format_eq, (label_pass_marker _ _ _ _ _ Hm).
  rewrite (speaker_repl_in_place _ _ Hd). eauto.
Qed.

Lemma main_first_label_in_place_witness :
  Marker (txt "[SPEAKER  12] :") (txt "12") /\
  exists r, Main.format_speaker_labels (txt "[SPEAKER  12] :" ++ txt " hi")
            = speaker_repl (txt "12") ++ r.
Proof.
  assert (H : Marker (txt "[SPEAKER  12] :") (txt "12")).
  { apply (Marker_intro ["["%char] (txt "SPEAKER") (txt "  ") (txt "12")
             ["]"%char] (txt " ")); auto; discriminate. }
  split; [exact H|].
  exact (main_first_label_in_place (txt "[SPEAKER  12] :") (txt "12")
           (txt " hi") H).
Defined.

(** X18: in app.py too the first label is rewritten in place, and the
    whitespace before it is dropped: when the input of
    [format_speaker_labels] is whitespace followed by a label that contains
    no newline, the output starts with the canonical label of the same
    number. *)
Theorem app_first_label_in_place a m d z :
  Marker m d -> forallb is_space a = true -> no_nl m = true ->
  exists r, App.format_speaker_labels (a ++ m ++ z) = suxbatdosh_repl d ++ r.
Proof.
  intros Hm Ha Hn.
  assert (Hd : forallb is_digit d = true) by (destruct Hm; assumption).
  rewrite app_format_eq.
  destruct (Marker_ends _ _ Hm) as (Hne & Hh & Hl).
  assert (Es : strip (a ++ m ++ z) = m ++ rstrip z).
  { unfold strip. rewrite (lstrip_space_app _ _ Ha), lstrip_fixed.
    - now apply rstrip_keep.
    - destruct m; [contradiction|exact Hh]. }
  rewrite Es, (blank_through _ _ _ Hn), (label_pass_marker _ _ _ _ _ Hm).
  rewrite (suxbatdosh_repl_in_place _ _ Hd). eauto.
Qed.

Lemma app_first_label_in_place_witness :
  Marker (txt "[SPEAKER  12] :") (txt "12") /\
  forallb is_space [nl; " "%char] = true /\
  no_nl (txt "[SPEAKER  12] :") = true /\
  exists r, App.format_speaker_labels
              ([nl; " "%char] ++ txt "[SPEAKER  12] :" ++ txt " hi")
            = suxbatdosh_repl (txt "12") ++ r.
Proof.
  assert (H : Marker (txt "[SPEAKER  12] :") (txt "12")).
  { apply (Marker_intro ["["%char] (txt "SPEAKER") (txt "  ") (txt "12")
             ["]"%char] (txt " ")); auto; discriminate. }
  assert (H1 : forallb is_space [nl; " "%char] = true) by reflexivity.
  assert (H2 : no_nl (txt "[SPEAKER  12] :") = true) by reflexivity.
  split; [exact H|]. split; [exact H1|]. split; [exact H2|].
  exact (app_first_label_in_place [nl; " "%char] (txt "[SPEAKER  12] :")
           (txt "12") (txt " hi") H H1 H2).
Defined.

(** ** The blank-run substitution in closed form *)

Lemma is_nl_eq c : is_nl c = true -> c = nl.
Proof. unfold is_nl. apply Ascii.eqb_eq. Qed.

Lemma cap2_stop n y : stops is_nl y -> cap2 n y = cap2 0 y.
Proof. destruct y as [|c t]; simpl; [reflexivity|]. now intros ->. Qed.

Lemma cap2_run r : forall w n,
  forallb is_nl w = true -> stops is_nl r ->
  cap2 n (w ++ r) = firstn (2 - n) w ++ cap2 0 r.
Proof.
  induction w as [|c w IH]; intros n Hw Hr.
  - simpl app. rewrite firstn_nil. now apply cap2_stop.
  - simpl in Hw. apply andb_prop in Hw. destruct Hw as [Hc Hw].
    simpl app. simpl cap2. rewrite Hc, (IH _ Hw Hr).
    destruct n as [|[|n]]; simpl; try reflexivity.
Qed.

Lemma all_nl_short w :
  forallb is_nl w = true -> length w < 3 -> firstn 2 w = w.
Proof.
  intros _ H. destruct w as [|a [|b [|c w]]]; simpl in *; try reflexivity. lia.
Qed.

Lemma all_nl_long w :
  forallb is_nl w = true -> 3 <= length w -> firstn 2 w = [nl; nl].
Proof.
  intros H Hn. destruct w as [|a [|b w]]; simpl in *; try lia.
  apply andb_prop in H. destruct H as [Ha H].
  apply andb_prop in H. destruct H as [Hb _].
  now rewrite (is_nl_eq _ Ha), (is_nl_eq _ Hb).
Qed.

Lemma blank_pass_cap2 : forall s b, blank_pass b s = cap2 0 s.
Proof.
  intros s. induction s as [s IH] using text_length_ind. intros b.
  destruct (nl_run_split s) as (w & r & -> & Hw & Hr & Hn).
  destruct w as [|c w].
  - simpl app in *. destruct r as [|c t]; [reflexivity|].
    simpl in Hr. rewrite (blank_pass_char _ _ _ Hr). simpl. rewrite Hr.
    f_equal. apply IH. simpl. lia.
  - assert (Hlen : length r < length ((c :: w) ++ r))
      by (rewrite length_app; simpl; lia).
    rewrite (cap2_run _ _ _ Hw Hr). simpl (2 - 0).
    destruct (Nat.le_gt_cases 3 (length (c :: w))) as [H|H].
    + rewrite (blank_pass_long _ _ _ Hw Hr H), (all_nl_long _ Hw H).
      now rewrite (IH _ Hlen).
    + rewrite (blank_pass_short _ _ _ Hw Hr H), (all_nl_short _ Hw H).
      now rewrite (IH _ Hlen).
Qed.

Lemma cap2_app_stop y : forall x n,
  stops is_nl y -> cap2 n (x ++ y) = cap2 n x ++ cap2 0 y.
Proof.
  induction x as [|c x IH]; intros n Hy; simpl.
  - now apply cap2_stop.
  - destruct (is_nl c); rewrite IH by exact Hy.
    + now rewrite app_assoc.
    + reflexivity.
Qed.

Lemma cap2_cons n c t :
  cap2 n (c :: t)
  = if is_nl c then (if n <? 2 then [c] else []) ++ cap2 (S n) t
    else c :: cap2 0 t.
Proof. reflexivity. Qed.

Lemma cap2_app_end y : forall x n,
  x <> [] -> stops is_nl (rev x) -> cap2 n (x ++ y) = cap2 n x ++ cap2 0 y.
Proof.
  induction x as [|c x IH]; intros n Hx Hs; [contradiction|].
  destruct x as [|c' x'].
  - simpl in *. now rewrite Hs.
  - assert (Hs' : stops is_nl (rev (c' :: x'))).
    { apply (stops_rev_tail _ [c]); [discriminate|exact Hs]. }
    assert (Hne : c' :: x' <> []) by discriminate.
    change ((c :: c' :: x') ++ y) with (c :: (c' :: x') ++ y).
    rewrite !(cap2_cons n c). destruct (is_nl c).
    + now rewrite (IH _ Hne Hs'), app_assoc.
    + now rewrite (IH _ Hne Hs').
Qed.

Lemma cap2_no_nl x : forall n, no_nl x = true -> cap2 n x = x.
Proof.
  induction x as [|c x IH]; intros n H; [reflexivity|].
  simpl in H. apply andb_prop in H. destruct H as [Hc Hx].
  apply negb_true_iff in Hc. simpl. now rewrite Hc, IH.
Qed.

Lemma cap2_space x : forall n,
  forallb is_space x = true -> forallb is_space (cap2 n x) = true.
Proof.
  induction x as [|c x IH]; intros n H; [reflexivity|].
  simpl in H. apply andb_prop in H. destruct H as [Hc Hx]. simpl.
  destruct (is_nl c).
  - rewrite forallb_app, (IH _ Hx), andb_true_r.
    destruct (n <? 2); simpl; [now rewrite Hc|reflexivity].
  - simpl. now rewrite Hc, IH.
Qed.

(** ** The paragraph pass around a canonical label *)

Lemma not_S_inside x r :
  forallb (fun c => negb (Ascii.eqb c "S"%char)) (x ++ "S"%char :: r) = true ->
  False.
Proof.
  rewrite forallb_app. simpl. rewrite andb_false_r. discriminate.
Qed.

Section CanonicalWord.
Variable w' : text.
Hypothesis w'_not_S : forallb (fun c => negb (Ascii.eqb c "S"%char)) w' = true.

Lemma tail_not_S d :
  forallb is_digit d = true ->
  forallb (fun c => negb (Ascii.eqb c "S"%char)) (w' ++ txt " " ++ d ++ txt ":")
  = true.
Proof.
  intros Hdig. rewrite !forallb_app, w'_not_S, (digits_not_S _ Hdig).
  reflexivity.
Qed.

Lemma Turn_app w x y : Turn w x -> Turn w (x ++ y).
Proof.
  intros H. destruct H as [d z Hd Hdig].
  replace ((w ++ txt " " ++ d ++ ":"%char :: z) ++ y)
    with (w ++ txt " " ++ d ++ ":"%char :: (z ++ y))
    by (now rewrite <- !app_assoc).
  now constructor.
Qed.

Lemma Turn_before_S sx Z :
  sx <> [] -> Turn ("S"%char :: w') (sx ++ "S"%char :: Z) ->
  Turn ("S"%char :: w') sx.
Proof.
  intros Hsx H. remember (sx ++ "S"%char :: Z) as s eqn:Es.
  destruct H as [d z Hd Hdig].
  replace (("S"%char :: w') ++ txt " " ++ d ++ ":"%char :: z)
    with ((("S"%char :: w') ++ txt " " ++ d ++ [":"%char]) ++ z) in Es
    by (now rewrite <- !app_assoc).
  apply app_eq_app in Es. destruct Es as (l & [[E1 E2]|[E1 E2]]).
  - destruct l as [|a l].
    + rewrite app_nil_r in E1. rewrite <- E1.
      replace (("S"%char :: w') ++ txt " " ++ d ++ [":"%char])
        with (("S"%char :: w') ++ txt " " ++ d ++ ":"%char :: [])
        by reflexivity.
      now constructor.
    + exfalso. simpl in E2. injection E2 as Ea _. subst a.
      destruct sx as [|c sx]; [contradiction|].
      change (("S"%char :: w') ++ txt " " ++ d ++ [":"%char])
        with ("S"%char :: (w' ++ txt " " ++ d ++ [":"%char])) in E1.
      change ((c :: sx) ++ "S"%char :: l)
        with (c :: (sx ++ "S"%char :: l)) in E1.
      injection E1 as _ E1.
      assert (Hall : forallb (fun c => negb (Ascii.eqb c "S"%char))
                       (w' ++ txt " " ++ d ++ [":"%char]) = true).
      { rewrite !forallb_app, w'_not_S, (digits_not_S _ Hdig). reflexivity. }
      change (w' ++ txt " " ++ d ++ [":"%char] = sx ++ "S"%char :: l) in E1.
      rewrite E1 in Hall. now apply not_S_inside in Hall.
  - rewrite E1.
    replace ((("S"%char :: w') ++ txt " " ++ d ++ [":"%char]) ++ l)
      with (("S"%char :: w') ++ txt " " ++ d ++ ":"%char :: l)
      by (now rewrite <- !app_assoc).
    now constructor.
Qed.

Lemma starts_turn_before_S sx Z :
  sx <> [] ->
  starts_turn ("S"%char :: w') (sx ++ "S"%char :: Z)
  = starts_turn ("S"%char :: w') sx.
Proof.
  intros Hsx.
  destruct (starts_turn ("S"%char :: w') sx) eqn:E.
  - apply starts_turn_iff. apply starts_turn_iff in E. now apply Turn_app.
  - destruct (starts_turn ("S"%char :: w') (sx ++ "S"%char :: Z)) eqn:E';
      [|reflexivity].
    apply starts_turn_iff, (Turn_before_S _ _ Hsx), starts_turn_iff in E'.
    congruence.
Qed.

Lemma breaks_before_S Z : forall X,
  breaks ("S"%char :: w') (X ++ "S"%char :: Z)
  = breaks ("S"%char :: w') X ++ breaks ("S"%char :: w') ("S"%char :: Z).
Proof.
  induction X as [|c X IH]; [reflexivity|].
  change ((c :: X) ++ "S"%char :: Z) with (c :: X ++ "S"%char :: Z).
  rewrite !breaks_cons, IH.
  change (c :: X ++ "S"%char :: Z) with ((c :: X) ++ "S"%char :: Z).
  rewrite starts_turn_before_S by discriminate.
  now rewrite <- !app_assoc.
Qed.

Lemma insert_breaks_cons w c t : insert_breaks w (c :: t) = c :: breaks w t.
Proof. reflexivity. Qed.

(** The paragraph pass on a text, a canonical label and a text. *)
Lemma insert_breaks_around X d Y :
  d <> [] -> forallb is_digit d = true ->
  insert_breaks ("S"%char :: w')
    (X ++ (("S"%char :: w') ++ txt " " ++ d ++ txt ":") ++ Y)
  = match X with
    | [] => []
    | _ :: _ => insert_breaks ("S"%char :: w') X ++ [nl; nl]
    end
    ++ (("S"%char :: w') ++ txt " " ++ d ++ txt ":")
    ++ breaks ("S"%char :: w') Y.
Proof.
  intros Hd Hdig.
  pose (L := w' ++ txt " " ++ d ++ txt ":").
  assert (EL : forall Z, (("S"%char :: w') ++ txt " " ++ d ++ txt ":") ++ Z
                         = "S"%char :: L ++ Z).
  { intros Z. unfold L. repeat (rewrite <- ?app_assoc; simpl). reflexivity. }
  assert (Hin : breaks ("S"%char :: w') (L ++ Y)
                = L ++ breaks ("S"%char :: w') Y)
    by (apply breaks_through, tail_not_S, Hdig).
  assert (Ht : starts_turn ("S"%char :: w') ("S"%char :: L ++ Y) = true).
  { apply starts_turn_iff. rewrite <- EL.
    replace ((("S"%char :: w') ++ txt " " ++ d ++ txt ":") ++ Y)
      with (("S"%char :: w') ++ txt " " ++ d ++ ":"%char :: Y)
      by (repeat (rewrite <- ?app_assoc; simpl); reflexivity).
    now constructor. }
  rewrite !EL. destruct X as [|c X].
  - simpl app. now rewrite insert_breaks_cons, Hin.
  - change ((c :: X) ++ "S"%char :: L ++ Y)
      with (c :: (X ++ "S"%char :: L ++ Y)).
    rewrite !insert_breaks_cons, breaks_before_S, (breaks_cons _ "S"%char).
    rewrite Ht, Hin.
    repeat (rewrite <- ?app_assoc; simpl). reflexivity.
Qed.
End CanonicalWord.

(** ** A label in its context *)

Lemma cap2_no_nl_app y : forall x n,
  x <> [] -> no_nl x = true -> cap2 n (x ++ y) = x ++ cap2 0 y.
Proof.
  induction x as [|c x IH]; intros n Hx Hn; [contradiction|].
  simpl in Hn. apply andb_prop in Hn. destruct Hn as [Hc Hn].
  apply negb_true_iff in Hc.
  change ((c :: x) ++ y) with (c :: x ++ y). rewrite cap2_cons, Hc.
  destruct x as [|c' x']; [reflexivity|].
  now rewrite IH by (discriminate || exact Hn).
Qed.

Lemma cap2_opt_app ob y :
  ob = [] \/ ob = ["["%char] \/ ob = ["]"%char] ->
  cap2 0 (ob ++ y) = ob ++ cap2 0 y.
Proof. intros [->|[->| ->]]; reflexivity. Qed.

(** The blank-run substitution turns a label into a label with the same
    digits. *)
Lemma Marker_cap2 m d : Marker m d -> Marker (cap2 0 m) d.
Proof.
  intros H. destruct H as [ob w ws1 d cb ws2 Hob Hw Hws1 Hd Hdig Hcb Hws2].
  assert (Hwn : no_nl w = true) by (now rewrite <- no_nl_lower, Hw).
  assert (Hw0 : w <> []) by (destruct w; discriminate).
  assert (Hdn : no_nl d = true) by (now apply digits_no_nl).
  assert (Hds : stops is_nl (d ++ cb ++ ws2 ++ [":"%char])).
  { destruct d as [|c d]; [contradiction|]. simpl in Hdn |- *.
    apply andb_prop in Hdn. destruct Hdn as [Hc _].
    now apply negb_true_iff in Hc. }
  rewrite cap2_opt_app by (destruct Hob; auto).
  rewrite (cap2_no_nl_app _ _ _ Hw0 Hwn).
  rewrite (cap2_app_stop _ _ _ Hds).
  rewrite (cap2_no_nl_app _ _ _ Hd Hdn).
  rewrite cap2_opt_app by (destruct Hcb; auto).
  rewrite (cap2_app_stop [":"%char]) by reflexivity.
  simpl (cap2 0 [":"%char]).
  constructor; auto using cap2_space.
Qed.

Lemma strip_around pre m d post :
  Marker m d -> strip (pre ++ m ++ post) = lstrip pre ++ m ++ rstrip post.
Proof.
  intros Hm. destruct (Marker_ends _ _ Hm) as (Hne & Hh & Hl).
  unfold strip. rewrite lstrip_app_stop.
  - rewrite app_assoc, rstrip_keep.
    + now rewrite <- app_assoc.
    + destruct (lstrip pre); [exact Hne|discriminate].
    + now apply stops_rev_app.
  - destruct m; [contradiction|discriminate].
  - destruct m; [contradiction|exact Hh].
Qed.

Lemma blank_pass_around P m d Q :
  Marker m d ->
  blank_pass true (P ++ m ++ Q)
  = blank_pass true P ++ cap2 0 m ++ blank_pass true Q.
Proof.
  intros Hm. rewrite !blank_pass_cap2.
  destruct (Marker_head_not_nl _ _ Hm) as (c & t & Em & Hc).
  destruct (Marker_ends _ _ Hm) as (Hne & _ & Hl).
  rewrite cap2_app_stop by (rewrite Em; exact Hc).
  rewrite cap2_app_end; [reflexivity|exact Hne|].
  destruct (rev m) as [|x r] eqn:E; [exact I|].
  simpl in Hl |- *. now apply not_space_not_nl.
Qed.

Section LabelAround.
Variable w' : text.
Variable repl : text -> text.
Hypothesis w'_not_S : forallb (fun c => negb (Ascii.eqb c "S"%char)) w' = true.
Hypothesis repl_eq :
  forall d, repl d = ("S"%char :: w') ++ txt " " ++ d ++ txt ":".

Lemma repl_nonempty' d : repl d <> [].
Proof. rewrite repl_eq. discriminate. Qed.

(** The label substitution and the paragraph pass on a text, a label and a
    text. *)
Lemma passes_around P m d Q :
  Marker m d ->
  exists pre', (pre' = P \/ P = pre' ++ ["["%char]) /\
    insert_breaks ("S"%char :: w') (label_pass repl true (P ++ m ++ Q))
    = match pre' with
      | [] => []
      | _ :: _ =>
          insert_breaks ("S"%char :: w') (label_pass repl true pre')
          ++ [nl; nl]
      end
      ++ repl d ++ breaks ("S"%char :: w') (label_pass repl true Q).
Proof.
  intros Hm.
  assert (Hd : d <> [] /\ forallb is_digit d = true) by (destruct Hm; auto).
  destruct (label_pass_context repl P true m d Q Hm) as (pre' & Hrel & E).
  exists pre'. split; [exact Hrel|].
  rewrite E, !(label_pass_bos repl true), repl_eq.
  rewrite (insert_breaks_around w' w'_not_S _ d _ (proj1 Hd) (proj2 Hd)).
  destruct pre' as [|c p]; [reflexivity|].
  destruct (label_pass repl false (c :: p)) as [|x X] eqn:EX; [|reflexivity].
  exfalso. revert EX. apply label_pass_nonempty; [|discriminate].
  intros d0. rewrite repl_eq. discriminate.
Qed.
End LabelAround.

(** C3: for every occurrence of a label in the input, what [normalize]
    returns is the text before the label, formatted and followed by a
    break when there is any, then the canonical word, a space, the digits
    of the label unchanged and a colon, then the text after the label,
    formatted in turn.  In app.py the text before and the text after are
    those left by the trimming and the blank-run substitution.  Only a "["
    standing directly before a label written without bracket belongs to
    the replaced match.  The label substitution itself (line 22 of main.py,
    line 37 of app.py) replaces the label in the same way.  In particular
    the forms of "speaker 3:" listed in the specification all become the
    canonical marker with the digit 3. *)
Theorem markers_become_canonical :
  (forall v pre m d post,
      Marker m d ->
      exists pre',
        (pre' = before_label v pre \/ before_label v pre = pre' ++ ["["%char]) /\
        normalize v (pre ++ m ++ post)
        = lead v pre' ++ label_repl v d
          ++ breaks (canonical_word v) (label_sub v (after_label v post))) /\
  (forall v pre m d post,
      Marker m d ->
      exists pre', (pre' = pre \/ pre = pre' ++ ["["%char]) /\
        label_sub v (pre ++ m ++ post)
        = label_sub v pre' ++ label_repl v d ++ label_sub v post) /\
  (forall v m,
      In m [txt "Speaker 3:"; txt "SPEAKER 3:"; txt "[Speaker 3]:";
            txt "speaker3:"; txt "[speaker3]:"; txt "speaker 3 :"] ->
      normalize v m = label_repl v (txt "3")).
Proof.
  split; [|split].
  - intros v pre m d post Hm. destruct v.
    + simpl normalize. rewrite main_format_eq.
      destruct (passes_around (txt "peaker") speaker_repl eq_refl
                  (fun _ => eq_refl) pre m d post Hm) as (pre' & Hrel & E).
      exists pre'. split; [exact Hrel|]. exact E.
    + simpl normalize. rewrite app_format_eq.
      rewrite (strip_around _ _ _ _ Hm), (blank_pass_around _ _ _ _ Hm).
      destruct (passes_around (txt "uxbatdosh") suxbatdosh_repl eq_refl
                  (fun _ => eq_refl) (blank_pass true (lstrip pre))
                  (cap2 0 m) d (blank_pass true (rstrip post))
                  (Marker_cap2 _ _ Hm)) as (pre' & Hrel & E).
      exists pre'. split; [exact Hrel|]. exact E.
  - intros v pre m d post Hm.
    destruct (label_pass_context (label_repl v) pre true m d post Hm)
      as (pre' & Hrel & E).
    exists pre'. split; [exact Hrel|].
    unfold label_sub, re_sub.
    change (scan speaker_label (label_repl v) true 0)
      with (label_pass (label_repl v) true).
    now rewrite E, !(label_pass_bos (label_repl v) true).
  - intros v m H. simpl in H.
    repeat (destruct H as [<-|H]; [destruct v; vm_compute; reflexivity|]).
    contradiction.
Qed.

Lemma markers_become_canonical_witness :
  Marker (txt "[SPEAKER  12] :") (txt "12") /\
  exists pre',
    (pre' = before_label app_py ([nl; " "%char] ++ txt "hello" ++ [nl; nl; nl])
     \/ before_label app_py ([nl; " "%char] ++ txt "hello" ++ [nl; nl; nl])
        = pre' ++ ["["%char]) /\
    normalize app_py
      (([nl; " "%char] ++ txt "hello" ++ [nl; nl; nl])
       ++ txt "[SPEAKER  12] :" ++ txt " bye ")
    = lead app_py pre' ++ label_repl app_py (txt "12")
      ++ breaks (canonical_word app_py)
           (label_sub app_py (after_label app_py (txt " bye "))).
Proof.
  assert (H : Marker (txt "[SPEAKER  12] :") (txt "12")).
  { apply (Marker_intro ["["%char] (txt "SPEAKER") (txt "  ") (txt "12")
             ["]"%char] (txt " ")); auto; discriminate. }
  split; [exact H|].
  exact (proj1 markers_become_canonical app_py
           ([nl; " "%char] ++ txt "hello" ++ [nl; nl; nl])
           (txt "[SPEAKER  12] :") (txt "12") (txt " bye ") H).
Defined.

(** ** The labels of a text formatted by main.py *)

Lemma nonstarter_inside x a r :
  forallb (fun c => negb (starter c)) (x ++ a :: r) = true ->
  starter a = true -> False.
Proof.
  rewrite forallb_app. simpl. intros H Ha. rewrite Ha in H.
  simpl in H. rewrite andb_false_r in H. discriminate.
Qed.

(** In a label the letter S stands first, or second after a bracket. *)
Lemma Marker_S_late m d y r :
  Marker m d -> m = y ++ "S"%char :: r -> 2 <= length y -> False.
Proof.
  intros H E Hy.
  destruct (Marker_shape _ _ H) as (ob & c0 & t & Em & Hob & _ & Ht).
  rewrite Em in E.
  destruct y as [|y0 [|y1 y]]; simpl in Hy; try lia.
  destruct Hob as [Hob|Hob]; subst ob; simpl in E.
  - injection E as _ E. subst t.
    change (y1 :: y ++ "S"%char :: r) with ((y1 :: y) ++ "S"%char :: r) in Ht.
    now apply nonstarter_inside in Ht.
  - injection E as _ _ E. subst t. now apply nonstarter_inside in Ht.
Qed.

Lemma Marker_S_head m d l :
  Marker m d -> forall x, m = x ++ "S"%char :: l ->
  (x = [] \/ x = ["["%char]) /\ Marker ("S"%char :: l) d.
Proof.
  intros H x E.
  destruct (Marker_shape _ _ H) as (ob & c0 & t & Em & Hob & Hm & Ht).
  rewrite Em in E.
  destruct x as [|x0 [|x1 x]].
  - destruct Hob as [Hob|Hob]; subst ob; simpl in E.
    + injection E as E0 E1. subst. auto.
    + discriminate.
  - destruct Hob as [Hob|Hob]; subst ob; simpl in E.
    + injection E as _ E. subst t.
      now apply (nonstarter_inside []) in Ht.
    + injection E as Ex E0 E1. subst. auto.
  - exfalso. apply (Marker_S_late _ _ (x0 :: x1 :: x) l H).
    + now rewrite Em.
    + simpl. lia.
Qed.


Lemma speaker_tail_nonstarter d :
  forallb is_digit d = true ->
  forallb (fun c => negb (starter c)) (txt "peaker " ++ d ++ txt ":") = true.
Proof.
  intros Hd. rewrite !forallb_app. simpl. rewrite andb_true_r.
  induction d as [|c d IH]; [reflexivity|].
  simpl in Hd |- *. apply andb_prop in Hd. destruct Hd as [Hc Hd].
  now rewrite (IH Hd), (digit_not_starter _ Hc).
Qed.

(** A label at the head of a text followed by the output of main.py's
    label substitution was there before the substitution, or is the
    canonical label the substitution wrote, with the bracket before it if
    there is one. *)
Lemma label_pass_new_marker : forall t x b m d r,
  x ++ label_pass speaker_repl b t = m ++ r -> Marker m d ->
  (exists r', x ++ t = m ++ r') \/
  (exists ob, (ob = [] \/ ob = ["["%char]) /\ m = ob ++ speaker_repl d).
Proof.
  induction t as [|c t IH]; intros x b m d r H Hm.
  - rewrite label_pass_nil in H. eauto.
  - destruct (label_pass_step speaker_repl b (c :: t))
      as [(m0 & d0 & z & E & Hm0 & Eo)|[(c' & t' & E & Hs & Eo)|[E _]]];
      [| |discriminate].
    + rewrite Eo in H.
      assert (Hr0 : Marker (speaker_repl d0) d0)
        by (destruct Hm0; now apply speaker_repl_marker).
      apply app_eq_app in H. destruct H as (l & [[Hx Hr]|[Hx Hl]]).
      * left. subst x. rewrite <- app_assoc. eauto.
      * destruct l as [|a l].
        -- left. rewrite app_nil_r in Hx. subst m. eauto.
        -- right.
           assert (Ea : a = "S"%char).
           { unfold speaker_repl in Hl. simpl in Hl. now injection Hl. }
           subst a.
           destruct (Marker_S_head _ _ _ Hm x Hx) as [Hob Hm'].
           destruct (Marker_unique _ _ _ _ _ _ Hm' Hr0 (eq_sym Hl))
             as (E1 & E2 & _).
           exists x. split; [exact Hob|]. now rewrite Hx, E1, E2.
    + injection E as E0 E1. subst c' t'. rewrite Eo in H.
      change (c :: label_pass speaker_repl false t)
        with ([c] ++ label_pass speaker_repl false t) in H.
      rewrite app_assoc in H.
      destruct (IH _ _ _ _ _ H Hm) as [(r' & E)|Hc]; [left|now right].
      rewrite <- app_assoc in E. eauto.
Qed.

(** Every label in the output of main.py's label substitution is a
    canonical one, with a bracket before it at most. *)
Lemma label_pass_bracketed : forall v b,
  bracketed_labels speaker_repl (label_pass speaker_repl b v).
Proof.
  intros v. induction v as [v IH] using text_length_ind.
  intros b pre m d post E Hm.
  destruct (label_pass_step speaker_repl b v)
    as [(m0 & d0 & z & Ev & Hm0 & Eo)|[(c & t & Ev & Hs & Eo)|[Ev Eo]]].
  - rewrite Eo in E.
    assert (Hlen : length z < length v).
    { subst v. rewrite length_app. pose proof (Marker_nonempty _ _ Hm0).
      destruct m0; [contradiction|simpl; lia]. }
    assert (Hd0 : d0 <> [] /\ forallb is_digit d0 = true)
      by (destruct Hm0; auto).
    assert (Hr0 : Marker (speaker_repl d0) d0)
      by (now apply speaker_repl_marker).
    apply app_eq_app in E. destruct E as (l & [[E1 E2]|[E1 E2]]).
    + (* the occurrence starts inside the canonical label *)
      destruct pre as [|p0 pre].
      * simpl in E1. subst l.
        destruct (Marker_unique _ _ _ _ _ _ Hm Hr0 E2) as (-> & -> & _).
        exists []. auto.
      * destruct l as [|a l].
        -- rewrite app_nil_l in E2.
           apply (IH z Hlen false [] m d post); [now rewrite E2|exact Hm].
        -- exfalso.
           destruct (Marker_head_starter _ _ Hm) as (c1 & t1 & Em & Hc1).
           rewrite Em in E2. simpl in E2. injection E2 as Ea _. subst c1.
           unfold speaker_repl in E1. simpl in E1. injection E1 as _ E1.
           pose proof (speaker_tail_nonstarter _ (proj2 Hd0)) as Hall.
           change (txt "peaker " ++ d0 ++ txt ":" = pre ++ a :: l) in E1.
           rewrite E1 in Hall. exact (nonstarter_inside _ _ _ Hall Hc1).
    + apply (IH z Hlen false l m d post); [exact E2|exact Hm].
  - rewrite Eo in E. destruct pre as [|p0 pre].
    + simpl in E.
      destruct (label_pass_new_marker t [c] false m d post E Hm)
        as [(r' & E')|Hc]; [|exact Hc].
      exfalso. subst v. simpl in E'.
      exact (search_label_none _ _ Hs _ _ _ E' Hm).
    + simpl in E. injection E as _ E.
      apply (IH t ltac:(subst v; simpl; lia) false pre m d post E Hm).
  - rewrite Eo in E. symmetry in E. apply app_eq_nil in E. destruct E as [_ E].
    apply app_eq_nil in E. destruct E as [E _].
    now apply Marker_nonempty in Hm.
Qed.


Lemma turn_speaker_head s :
  Turn speaker s -> exists r, s = "S"%char :: r.
Proof. intros H. destruct H as [d z _ _]. simpl. eauto. Qed.

(** A label at the head of a text followed by the output of main.py's
    paragraph pass was there before the pass. *)
Lemma speaker_breaks_no_new_marker : forall t x m d r,
  x ++ breaks speaker t = m ++ r -> Marker m d ->
  exists r', x ++ t = m ++ r'.
Proof.
  induction t as [|c t IH]; intros x m d r H Hm.
  - simpl in H. eauto.
  - simpl breaks in H.
    destruct (starts_turn speaker (c :: t)) eqn:Es.
    + apply starts_turn_iff, turn_speaker_head in Es.
      destruct Es as (t2 & Es). injection Es as Ec _. subst c.
      simpl in H.
      apply app_eq_app in H. destruct H as (l & [[Hx Hr]|[Hx Hl]]).
      * subst x. rewrite <- app_assoc. eauto.
      * destruct l as [|a1 [|a2 [|a3 l]]]; simpl in Hl.
        -- rewrite app_nil_r in Hx. subst m. eauto.
        -- injection Hl as Ha _. subst a1.
           pose proof (Marker_last _ _ _ _ Hm Hx). discriminate.
        -- injection Hl as _ Ha _. subst a2.
           change [a1; nl] with ([a1] ++ [nl]) in Hx. rewrite app_assoc in Hx.
           pose proof (Marker_last _ _ _ _ Hm Hx). discriminate.
        -- exfalso. injection Hl as _ _ Ha _. subst a3.
           change (a1 :: a2 :: "S"%char :: l)
             with ([a1; a2] ++ "S"%char :: l) in Hx.
           rewrite app_assoc in Hx.
           apply (Marker_S_late _ _ _ _ Hm Hx).
           rewrite length_app. simpl. lia.
    + simpl in H.
      change (c :: breaks speaker t) with ([c] ++ breaks speaker t) in H.
      rewrite app_assoc in H. destruct (IH _ _ _ _ H Hm) as (r' & E).
      rewrite <- app_assoc in E. eauto.
Qed.

Lemma bracketed_tail repl c t :
  bracketed_labels repl (c :: t) -> bracketed_labels repl t.
Proof.
  intros H pre m d post E Hm. apply (H (c :: pre) m d post); [|exact Hm].
  simpl. now rewrite E.
Qed.

Lemma canonical_cons c t :
  bracketed_labels speaker_repl (c :: t) ->
  canonical_labels speaker_repl (breaks speaker t) ->
  canonical_labels speaker_repl (c :: breaks speaker t).
Proof.
  intros Hb Hc pre m d post E Hm. destruct pre as [|p0 pre].
  - simpl in E.
    destruct (speaker_breaks_no_new_marker t [c] m d post E Hm) as (r' & E').
    simpl in E'.
    destruct (Hb [] m d r' E' Hm) as (ob & [Hob|Hob] & Em); subst ob;
      [exact Em|].
    exfalso. rewrite Em in E, E'.
    change ((["["%char] ++ speaker_repl d) ++ r')
      with ("["%char :: (speaker_repl d ++ r')) in E'.
    injection E' as Ec Et. subst c.
    assert (Hd : d <> [] /\ forallb is_digit d = true) by (destruct Hm; auto).
    assert (Ht : starts_turn speaker t = true).
    { apply starts_turn_iff. rewrite Et. apply speaker_repl_turn; tauto. }
    destruct t as [|t0 t]; [now rewrite starts_turn_nil in Ht|].
    simpl breaks in E. rewrite Ht in E.
    unfold speaker_repl in E. simpl in E. discriminate.
  - simpl in E. injection E as _ E. exact (Hc pre m d post E Hm).
Qed.

Lemma canonical_breaks : forall t,
  bracketed_labels speaker_repl t ->
  canonical_labels speaker_repl (breaks speaker t).
Proof.
  induction t as [|c t IH]; intros Hb.
  - intros pre m d post E Hm. simpl in E. symmetry in E.
    apply app_eq_nil in E. destruct E as [_ E].
    apply app_eq_nil in E. destruct E as [E _].
    now apply Marker_nonempty in Hm.
  - pose proof (canonical_cons c t Hb (IH (bracketed_tail _ _ _ Hb))) as Hc.
    simpl breaks. destruct (starts_turn speaker (c :: t)); [|exact Hc].
    intros pre m d post E Hm.
    destruct (Marker_head_not_nl _ _ Hm) as (c1 & t1 & Em & Hc1).
    destruct pre as [|p0 [|p1 pre]]; simpl in E.
    + rewrite Em in E. simpl in E. injection E as E0 _. subst c1. discriminate.
    + rewrite Em in E. simpl in E. injection E as _ E0 _. subst c1.
      discriminate.
    + injection E as _ _ E. exact (Hc pre m d post E Hm).
Qed.

Lemma canonical_insert_breaks u :
  bracketed_labels speaker_repl u ->
  canonical_labels speaker_repl (insert_breaks speaker u).
Proof.
  destruct u as [|c t]; intros Hb.
  - intros pre m d post E Hm. simpl in E. symmetry in E.
    apply app_eq_nil in E. destruct E as [_ E].
    apply app_eq_nil in E. destruct E as [E _].
    now apply Marker_nonempty in Hm.
  - simpl insert_breaks. apply canonical_cons; [exact Hb|].
    apply canonical_breaks. now apply bracketed_tail in Hb.
Qed.

(** The label substitution changes nothing in a text whose labels are
    canonical. *)
Lemma canonical_fixed : forall z b,
  canonical_labels speaker_repl z -> label_pass speaker_repl b z = z.
Proof.
  intros z. induction z as [z IH] using text_length_ind. intros b Hc.
  destruct (label_pass_step speaker_repl b z)
    as [(m & d & z' & E & Hm & Eo)|[(c & t & E & Hs & Eo)|[E Eo]]].
  - rewrite Eo. rewrite <- (Hc [] m d z' E Hm).
    rewrite IH; [now rewrite E| |].
    + subst z. rewrite length_app. pose proof (Marker_nonempty _ _ Hm).
      destruct m; [contradiction|simpl; lia].
    + intros pre m1 d1 post E1 Hm1.
      apply (Hc (m ++ pre) m1 d1 post); [|exact Hm1].
      now rewrite E, E1, <- app_assoc.
  - rewrite Eo, IH; [now rewrite E|subst z; simpl; lia|].
    intros pre m1 d1 post E1 Hm1.
    apply (Hc (c :: pre) m1 d1 post); [|exact Hm1].
    simpl. now rewrite E, E1.
  - now rewrite Eo, E.
Qed.

(** A second application of main.py's function only inserts breaks. *)
Lemma main_format_twice s :
  Main.format_speaker_labels (Main.format_speaker_labels s)
  = insert_breaks speaker (Main.format_speaker_labels s).
Proof.
  rewrite (main_format_eq (Main.format_speaker_labels s)). f_equal.
  apply canonical_fixed. rewrite main_format_eq.
  apply canonical_insert_breaks, label_pass_bracketed.
Qed.

Lemma length_breaks w : forall t, length t <= length (breaks w t).
Proof.
  induction t as [|c t IH]; [simpl; lia|].
  rewrite breaks_cons, !length_app. simpl. lia.
Qed.

Lemma breaks_fixed_inv w : forall t, breaks w t = t -> any_turn w t = false.
Proof.
  induction t as [|c t IH]; [reflexivity|]. intros H. simpl any_turn.
  destruct (starts_turn w (c :: t)) eqn:Es.
  - exfalso. apply (f_equal (@length ascii)) in H.
    rewrite breaks_cons, Es, !length_app in H. simpl in H.
    pose proof (length_breaks w t). lia.
  - simpl in H. rewrite Es in H. simpl in H. injection H as H. now apply IH.
Qed.

Lemma insert_breaks_fixed_iff w u :
  insert_breaks w u = u <-> ~ has_inner_turn w u.
Proof.
  split; [|apply insert_breaks_fixed].
  destruct u as [|c t]; [intros _; apply not_has_inner_turn_nil|].
  simpl. intros H. injection H as H. rewrite has_inner_turn_cons.
  now rewrite (breaks_fixed_inv _ _ H).
Qed.

(** ** Runs of newlines in a text formatted by app.py *)

Lemma capped_mono : forall s n n', n' <= n -> capped n s = true -> capped n' s = true.
Proof.
  induction s as [|c t IH]; intros n n' Hn H; [reflexivity|].
  simpl in *. destruct (is_nl c); [|exact H].
  apply andb_prop in H. destruct H as [H1 H2].
  apply Nat.ltb_lt in H1. apply andb_true_intro. split.
  - apply Nat.ltb_lt. lia.
  - apply (IH (S n)); [lia|exact H2].
Qed.

Lemma capped_app_r z : forall x n, capped n (x ++ z) = true -> capped 0 z = true.
Proof.
  induction x as [|c x IH]; intros n H.
  - apply (capped_mono _ n); [lia|exact H].
  - simpl in H. destruct (is_nl c).
    + apply andb_prop in H. destruct H as [_ H]. now apply IH in H.
    + now apply IH in H.
Qed.

Lemma capped_no_nl_app z : forall x n,
  x <> [] -> no_nl x = true -> capped n (x ++ z) = capped 0 z.
Proof.
  induction x as [|c x IH]; intros n Hx Hn; [contradiction|].
  simpl in Hn. apply andb_prop in Hn. destruct Hn as [Hc Hn].
  apply negb_true_iff in Hc. simpl. rewrite Hc.
  destruct x as [|c' x']; [reflexivity|].
  now apply IH.
Qed.

Lemma capped_cap2 : forall z n, capped (Nat.min n 2) (cap2 n z) = true.
Proof.
  induction z as [|c t IH]; intros n; [reflexivity|].
  simpl. destruct (is_nl c) eqn:Ec.
  - destruct (n <? 2) eqn:En.
    + apply Nat.ltb_lt in En. simpl. rewrite Ec.
      replace (Nat.min n 2) with n by lia.
      assert (E2 : (n <? 2) = true) by (apply Nat.ltb_lt; lia).
      rewrite E2. simpl. specialize (IH (S n)).
      now replace (Nat.min (S n) 2) with (S n) in IH by lia.
    + apply Nat.ltb_ge in En. simpl. specialize (IH (S n)).
      replace (Nat.min (S n) 2) with 2 in IH by lia.
      now replace (Nat.min n 2) with 2 by lia.
  - simpl. rewrite Ec. apply (IH 0).
Qed.

Lemma capped_label_pass : forall v n b,
  capped n v = true -> capped n (label_pass suxbatdosh_repl b v) = true.
Proof.
  intros v. induction v as [v IH] using text_length_ind. intros n b H.
  destruct (label_pass_step suxbatdosh_repl b v)
    as [(m & d & z & E & Hm & Eo)|[(c & t & E & Hs & Eo)|[E Eo]]].
  - rewrite Eo. assert (Hd : forallb is_digit d = true) by (destruct Hm; auto).
    rewrite capped_no_nl_app;
      [|apply suxbatdosh_repl_nonempty|now apply suxbatdosh_repl_no_nl].
    apply IH.
    + subst v. rewrite length_app. pose proof (Marker_nonempty _ _ Hm).
      destruct m; [contradiction|simpl; lia].
    + subst v. now apply capped_app_r in H.
  - rewrite Eo. subst v. simpl in H |- *. destruct (is_nl c).
    + apply andb_prop in H. destruct H as [H1 H2]. rewrite H1. simpl.
      apply IH; [simpl; lia|exact H2].
    + apply IH; [simpl; lia|exact H].
  - now rewrite Eo.
Qed.

(** A prefix without newline of the collapsed text is a prefix of the
    text. *)
Lemma cap2_prefix : forall P s z',
  no_nl P = true -> cap2 0 s = P ++ z' -> exists z, s = P ++ z.
Proof.
  induction P as [|a P IH]; intros s z' Hn E; [now exists s|].
  simpl in Hn. apply andb_prop in Hn. destruct Hn as [Ha Hn].
  apply negb_true_iff in Ha.
  destruct s as [|c t]; [discriminate|]. simpl in E.
  destruct (is_nl c) eqn:Ec.
  - simpl in E. injection E as E0 _. subst a. congruence.
  - injection E as E0 E. subst a.
    destruct (IH _ _ Hn E) as (z & ->). now exists z.
Qed.

Lemma Turn_no_nl_prefix w s :
  no_nl w = true -> Turn w s ->
  exists P z, s = P ++ z /\ no_nl P = true /\ P <> [] /\
              forall z', Turn w (P ++ z').
Proof.
  intros Hw H. destruct H as [d z Hd Hdig].
  exists (w ++ txt " " ++ d ++ [":"%char]), z. repeat split.
  - now rewrite <- !app_assoc.
  - now rewrite !no_nl_app, Hw, (digits_no_nl _ Hdig).
  - destruct w; discriminate.
  - intros z'.
    replace ((w ++ txt " " ++ d ++ [":"%char]) ++ z')
      with (w ++ txt " " ++ d ++ ":"%char :: z')
      by (now rewrite <- !app_assoc).
    now constructor.
Qed.

Lemma starts_turn_cap2 w c t :
  no_nl w = true -> is_nl c = false ->
  starts_turn w (c :: cap2 0 t) = starts_turn w (c :: t).
Proof.
  intros Hw Hc.
  assert (Ecap : cap2 0 (c :: t) = c :: cap2 0 t) by (simpl; now rewrite Hc).
  destruct (starts_turn w (c :: t)) eqn:E.
  - apply starts_turn_iff. apply starts_turn_iff in E.
    destruct (Turn_no_nl_prefix _ _ Hw E) as (P & z & Es & Hn & Hne & HT).
    rewrite <- Ecap, Es, (cap2_no_nl_app _ _ _ Hne Hn). apply HT.
  - destruct (starts_turn w (c :: cap2 0 t)) eqn:E'; [|reflexivity].
    apply starts_turn_iff in E'.
    destruct (Turn_no_nl_prefix _ _ Hw E') as (P & z & Es & Hn & Hne & HT).
    rewrite <- Ecap in Es. destruct (cap2_prefix _ _ _ Hn Es) as (z0 & Ez).
    rewrite Ez in E. pose proof (HT z0) as HT0.
    apply starts_turn_iff in HT0. congruence.
Qed.

Lemma starts_turn_breaks c t :
  starts_turn suxbatdosh (c :: breaks suxbatdosh t)
  = starts_turn suxbatdosh (c :: t).
Proof.
  destruct (starts_turn suxbatdosh (c :: t)) eqn:E.
  - apply starts_turn_iff. apply starts_turn_iff in E.
    remember (c :: t) as s eqn:Es. destruct E as [d z Hd Hdig].
    replace (suxbatdosh ++ txt " " ++ d ++ ":"%char :: z)
      with ("S"%char :: (txt "uxbatdosh " ++ d ++ txt ":") ++ z) in Es
      by (repeat (rewrite <- ?app_assoc; simpl); reflexivity).
    injection Es as Ec Et. subst c t.
    change (Turn ("S"%char :: txt "uxbatdosh")
              ("S"%char :: breaks ("S"%char :: txt "uxbatdosh")
                             ((txt "uxbatdosh " ++ d ++ txt ":") ++ z))).
    rewrite (breaks_through (txt "uxbatdosh")).
    + replace ("S"%char :: (txt "uxbatdosh " ++ d ++ txt ":")
                 ++ breaks ("S"%char :: txt "uxbatdosh") z)
        with (("S"%char :: txt "uxbatdosh") ++ txt " " ++ d
                ++ ":"%char :: breaks ("S"%char :: txt "uxbatdosh") z)
        by (repeat (rewrite <- ?app_assoc; simpl); reflexivity).
      now constructor.
    + rewrite !forallb_app, (digits_not_S _ Hdig). reflexivity.
  - destruct (starts_turn suxbatdosh (c :: breaks suxbatdosh t)) eqn:E';
      [|reflexivity].
    apply starts_turn_iff, Turn_through_breaks, starts_turn_iff in E';
      [congruence|reflexivity].
Qed.


Lemma nl_not_turn c t :
  is_nl c = true -> starts_turn suxbatdosh (c :: t) = false.
Proof.
  intros Hc. apply is_nl_eq in Hc. subst c.
  now apply (starts_turn_other (txt "uxbatdosh")).
Qed.

Lemma turn_head_not_nl c t :
  starts_turn suxbatdosh (c :: t) = true -> is_nl c = false.
Proof.
  intros H. destruct (is_nl c) eqn:E; [|reflexivity].
  now rewrite (nl_not_turn _ _ E) in H.
Qed.

Lemma breaks_turn c t :
  starts_turn suxbatdosh (c :: t) = true ->
  breaks suxbatdosh (c :: t) = nl :: nl :: c :: breaks suxbatdosh t.
Proof. intros H. simpl. now rewrite H. Qed.

Lemma breaks_other c t :
  starts_turn suxbatdosh (c :: t) = false ->
  breaks suxbatdosh (c :: t) = c :: breaks suxbatdosh t.
Proof. intros H. simpl. now rewrite H. Qed.

Lemma turns_ok_cons w k n c t :
  turns_ok w k n (c :: t)
  = (negb (starts_turn w (c :: t)) || (k <=? n))
    && turns_ok w k (if is_nl c then S n else 0) t.
Proof. reflexivity. Qed.

Lemma cap2_dropped n t : 2 <= n -> cap2 n (nl :: t) = cap2 (S n) t.
Proof.
  intros H. rewrite cap2_cons. change (is_nl nl) with true.
  apply Nat.ltb_ge in H. now rewrite H.
Qed.

(** Collapsing the blank runs undoes the paragraph pass on a text without
    long runs whose canonical labels all come after two newlines. *)
Lemma cap2_breaks : forall t n,
  capped n t = true -> turns_ok suxbatdosh 2 n t = true ->
  cap2 n (breaks suxbatdosh t) = t.
Proof.
  induction t as [|c t IH]; intros n Hcap Hok; [reflexivity|].
  rewrite turns_ok_cons in Hok. apply andb_prop in Hok.
  destruct Hok as [H1 H2]. simpl in Hcap.
  destruct (starts_turn suxbatdosh (c :: t)) eqn:Es.
  - pose proof (turn_head_not_nl _ _ Es) as Hc. rewrite Hc in *.
    cbn [negb orb] in H1. apply Nat.leb_le in H1.
    rewrite (breaks_turn _ _ Es).
    rewrite (cap2_dropped _ _ H1), cap2_dropped by lia.
    rewrite cap2_cons, Hc. f_equal. now apply IH.
  - rewrite (breaks_other _ _ Es), cap2_cons.
    destruct (is_nl c).
    + apply andb_prop in Hcap. destruct Hcap as [Hn Hcap]. rewrite Hn.
      simpl. f_equal. now apply IH.
    + f_equal. now apply IH.
Qed.

(** After the paragraph pass every canonical label comes after two
    newlines. *)
Lemma turns_ok_breaks : forall t n,
  turns_ok suxbatdosh 2 n (breaks suxbatdosh t) = true.
Proof.
  induction t as [|c t IH]; intros n; [reflexivity|].
  destruct (starts_turn suxbatdosh (c :: t)) eqn:Es.
  - pose proof (turn_head_not_nl _ _ Es) as Hc.
    rewrite (breaks_turn _ _ Es), !turns_ok_cons.
    rewrite !(nl_not_turn nl) by reflexivity.
    change (is_nl nl) with true. rewrite Hc, IH. simpl.
    rewrite orb_true_r. reflexivity.
  - rewrite (breaks_other _ _ Es), turns_ok_cons, starts_turn_breaks, Es, IH.
    reflexivity.
Qed.

(** Collapsing the blank runs keeps two newlines before every canonical
    label that had them. *)
Lemma turns_ok_cap2 : forall z n,
  turns_ok suxbatdosh 2 n z = true ->
  turns_ok suxbatdosh 2 (Nat.min n 2) (cap2 n z) = true.
Proof.
  induction z as [|c t IH]; intros n H; [reflexivity|].
  rewrite turns_ok_cons in H. apply andb_prop in H. destruct H as [H1 H2].
  rewrite cap2_cons. destruct (is_nl c) eqn:Ec.
  - specialize (IH _ H2). destruct (n <? 2) eqn:En.
    + apply Nat.ltb_lt in En. simpl app.
      rewrite turns_ok_cons, (nl_not_turn _ _ Ec), Ec. simpl.
      replace (Nat.min (S n) 2) with (S (Nat.min n 2)) in IH by lia.
      exact IH.
    + apply Nat.ltb_ge in En. simpl app.
      replace (Nat.min (S n) 2) with (Nat.min n 2) in IH by lia.
      exact IH.
  - rewrite turns_ok_cons, Ec, (starts_turn_cap2 suxbatdosh _ _ eq_refl Ec).
    specialize (IH _ H2). change (Nat.min 0 2) with 0 in IH.
    rewrite IH, andb_true_r.
    destruct (starts_turn suxbatdosh (c :: t)); [|reflexivity].
    cbn [negb orb] in H1 |- *. apply Nat.leb_le in H1. apply Nat.leb_le. lia.
Qed.

(** The paragraph pass puts four newlines before a canonical label that
    had two, and only before such a one. *)
Lemma turns_ok_four : forall t n,
  turns_ok suxbatdosh 4 n (breaks suxbatdosh t)
  = turns_ok suxbatdosh 2 n t.
Proof.
  induction t as [|c t IH]; intros n; [reflexivity|].
  rewrite (turns_ok_cons _ 2).
  destruct (starts_turn suxbatdosh (c :: t)) eqn:Es.
  - pose proof (turn_head_not_nl _ _ Es) as Hc.
    rewrite (breaks_turn _ _ Es), !turns_ok_cons.
    rewrite !(nl_not_turn nl) by reflexivity.
    change (is_nl nl) with true. rewrite Hc, IH, starts_turn_breaks, Es.
    cbn [negb orb andb]. reflexivity.
  - rewrite (breaks_other _ _ Es), turns_ok_cons, starts_turn_breaks, Es, IH.
    reflexivity.
Qed.


Lemma nl_tail_snoc h c :
  nl_tail (h ++ [c]) = if is_nl c then S (nl_tail h) else 0.
Proof. unfold nl_tail. now rewrite rev_app_distr. Qed.

Lemma turns_ok_spec w k : forall s h,
  turns_ok w k (nl_tail h) s = true <->
  (forall pre m, s = pre ++ m -> Turn w m -> k <= nl_tail (h ++ pre)).
Proof.
  induction s as [|c t IH]; intros h.
  - split; [|reflexivity]. intros _ pre m E Hm. symmetry in E.
    apply app_eq_nil in E. destruct E as [_ ->]. now apply not_Turn_nil in Hm.
  - rewrite turns_ok_cons, andb_true_iff, <- nl_tail_snoc, IH. split.
    + intros [H1 H2] pre m E Hm. destruct pre as [|p0 pre].
      * simpl in E. subst m. apply starts_turn_iff in Hm.
        rewrite Hm in H1. cbn [negb orb] in H1. apply Nat.leb_le in H1.
        now rewrite app_nil_r.
      * simpl in E. injection E as <- E. specialize (H2 pre m E Hm).
        now rewrite <- app_assoc in H2.
    + intros H. split.
      * destruct (starts_turn w (c :: t)) eqn:Es; [|reflexivity].
        apply starts_turn_iff in Es. specialize (H [] (c :: t) eq_refl Es).
        rewrite app_nil_r in H. cbn [negb orb]. now apply Nat.leb_le.
      * intros pre m E Hm. rewrite <- app_assoc. apply (H (c :: pre) m).
        -- simpl. now rewrite E.
        -- exact Hm.
Qed.

Lemma rev_repeat_nl k : rev (repeat nl k) = repeat nl k.
Proof.
  induction k as [|k IH]; [reflexivity|].
  simpl. rewrite IH. symmetry. apply repeat_cons.
Qed.

Lemma nl_run_ge k : forall x,
  k <= nl_run x <-> exists r, x = repeat nl k ++ r.
Proof.
  induction k as [|k IH]; intros x.
  - split; [intros _; now exists x|intros _; lia].
  - destruct x as [|c t]; simpl.
    + split; [lia|intros (r & E); discriminate].
    + destruct (is_nl c) eqn:Ec.
      * rewrite <- Nat.succ_le_mono, IH. split.
        -- intros (r & ->). exists r. now rewrite (is_nl_eq _ Ec).
        -- intros (r & E). injection E as _ E. now exists r.
      * split; [lia|]. intros (r & E). injection E as E _. subst c.
        discriminate.
Qed.

Lemma nl_tail_ge k pre :
  k <= nl_tail pre <-> exists p, pre = p ++ repeat nl k.
Proof.
  unfold nl_tail. rewrite nl_run_ge. split.
  - intros (r & E). exists (rev r).
    apply (f_equal (@rev ascii)) in E.
    now rewrite rev_involutive, rev_app_distr, rev_repeat_nl in E.
  - intros (p & ->). exists (rev p).
    now rewrite rev_app_distr, rev_repeat_nl.
Qed.

Lemma inner_turns_ok_spec w k o :
  inner_turns_ok w k o = true <-> breaks_before k w o.
Proof.
  destruct o as [|c t].
  - split; [|reflexivity]. intros _ pre m E Hpre _. symmetry in E.
    apply app_eq_nil in E. destruct E. contradiction.
  - unfold inner_turns_ok.
    change (if is_nl c then 1 else 0) with (nl_tail [c]).
    rewrite turns_ok_spec. split.
    + intros H pre m E Hpre Hm. destruct pre as [|p0 pre]; [contradiction|].
      simpl in E. injection E as <- E. apply nl_tail_ge.
      exact (H pre m E Hm).
    + intros H pre m E Hm. apply nl_tail_ge.
      apply (H (c :: pre) m); [simpl; now rewrite E|discriminate|exact Hm].
Qed.

Lemma cap2_head c t :
  cap2 0 (c :: t) = c :: cap2 (if is_nl c then 1 else 0) t.
Proof. rewrite cap2_cons. destruct (is_nl c); reflexivity. Qed.

Lemma capped_head c t :
  capped 0 (c :: t) = capped (if is_nl c then 1 else 0) t.
Proof. simpl. destruct (is_nl c); reflexivity. Qed.

(** Collapsing the blank runs undoes the paragraph pass when the labels
    came after four newlines. *)
Lemma cap2_insert_breaks u :
  capped 0 u = true ->
  inner_turns_ok suxbatdosh 4 (insert_breaks suxbatdosh u) = true ->
  cap2 0 (insert_breaks suxbatdosh u) = u.
Proof.
  destruct u as [|c t]; [reflexivity|]. intros Hcap H.
  rewrite insert_breaks_cons in *. unfold inner_turns_ok in H.
  rewrite turns_ok_four in H. rewrite capped_head in Hcap.
  rewrite cap2_head. f_equal. now apply cap2_breaks.
Qed.

Lemma collapsed_breaks u :
  inner_turns_ok suxbatdosh 2 (cap2 0 (insert_breaks suxbatdosh u)) = true /\
  capped 0 (cap2 0 (insert_breaks suxbatdosh u)) = true.
Proof.
  split; [|apply (capped_cap2 _ 0)].
  destruct u as [|c t]; [reflexivity|].
  rewrite insert_breaks_cons, cap2_head. unfold inner_turns_ok.
  pose proof (turns_ok_cap2 _ (if is_nl c then 1 else 0)
                (turns_ok_breaks t _)) as H.
  destruct (is_nl c); exact H.
Qed.

Lemma four_after_two v :
  inner_turns_ok suxbatdosh 2 v = true ->
  inner_turns_ok suxbatdosh 4 (insert_breaks suxbatdosh v) = true.
Proof.
  destruct v as [|c t]; [reflexivity|]. intros H.
  rewrite insert_breaks_cons. unfold inner_turns_ok in *.
  change (if is_nl c then 1 else 0) with (nl_tail [c]) in *.
  now rewrite turns_ok_four.
Qed.

(** What app.py's function returns: the paragraph pass of a text without
    long runs of newlines. *)
Lemma app_format_shape s :
  exists u, App.format_speaker_labels s = insert_breaks suxbatdosh u /\
            capped 0 u = true.
Proof.
  exists (label_pass suxbatdosh_repl true (blank_pass true (strip s))).
  split; [apply app_format_eq|].
  apply capped_label_pass. rewrite blank_pass_cap2. apply (capped_cap2 _ 0).
Qed.

(** A second application of app.py's function only collapses the blank
    runs and inserts the breaks again. *)
Lemma app_format_twice s :
  App.format_speaker_labels (App.format_speaker_labels s)
  = insert_breaks suxbatdosh (cap2 0 (App.format_speaker_labels s)).
Proof.
  rewrite (app_format_eq (App.format_speaker_labels s)).
  destruct (app_format_ends s) as [Hh Hl].
  rewrite (strip_fixed _ Hh Hl). f_equal.
  rewrite <- (blank_pass_cap2 _ true).
  apply any_label_fixed, marker_free_iff, marker_free_blank_pass.
  apply marker_free_iff. rewrite app_format_eq.
  apply any_label_insert_breaks, label_pass_settles.
Qed.

Lemma app_format_idem_iff s :
  App.format_speaker_labels (App.format_speaker_labels s)
  = App.format_speaker_labels s
  <-> breaks_before 4 suxbatdosh (App.format_speaker_labels s).
Proof.
  rewrite app_format_twice, <- inner_turns_ok_spec.
  destruct (app_format_shape s) as (u & -> & Hcap). split.
  - intros H. rewrite <- H. apply four_after_two, collapsed_breaks.
  - intros H. now rewrite (cap2_insert_breaks _ Hcap H).
Qed.

Lemma app_format_thrice s :
  App.format_speaker_labels
    (App.format_speaker_labels (App.format_speaker_labels s))
  = App.format_speaker_labels (App.format_speaker_labels s).
Proof.
  rewrite (app_format_twice (App.format_speaker_labels s)).
  rewrite (app_format_twice s).
  destruct (app_format_shape s) as (u & -> & _).
  destruct (collapsed_breaks u) as [H2 Hcap]. f_equal.
  apply (cap2_insert_breaks _ Hcap). now apply four_after_two.
Qed.

(** ** A second application *)

(** C1, amended: what a second application of the function does, and when
    it changes nothing.  In main.py a second application only runs the
    paragraph substitution again, so that it returns the same text exactly
    when the first result has no canonical label past its first position.
    In app.py a second application only collapses the blank runs and runs
    the paragraph substitution again, so that it returns the same text
    exactly when every canonical label of the first result past its first
    position comes after four newlines; and a third application always
    returns what the second returned. *)
Theorem normalize_second_application :
  (forall s,
     normalize main_py (normalize main_py s)
     = re_sub (turn_start speaker) (fun _ => [nl; nl]) (normalize main_py s)) /\
  (forall s,
     normalize main_py (normalize main_py s) = normalize main_py s
     <-> ~ has_inner_turn speaker (normalize main_py s)) /\
  (forall s,
     normalize app_py (normalize app_py s)
     = re_sub (turn_start suxbatdosh) (fun _ => [nl; nl])
         (re_sub blank_run (fun _ => [nl; nl]) (normalize app_py s))) /\
  (forall s,
     normalize app_py (normalize app_py s) = normalize app_py s
     <-> breaks_before 4 suxbatdosh (normalize app_py s)) /\
  (forall s,
     normalize app_py (normalize app_py (normalize app_py s))
     = normalize app_py (normalize app_py s)).
Proof.
  simpl normalize. split; [|split; [|split; [|split]]].
  - intros s. rewrite main_format_twice. symmetry. apply turn_pass_eq.
  - intros s. rewrite main_format_twice. apply insert_breaks_fixed_iff.
  - intros s. rewrite app_format_twice, turn_pass_eq.
    change (re_sub blank_run (fun _ => [nl; nl])) with (blank_pass true).
    now rewrite blank_pass_cap2.
  - apply app_format_idem_iff.
  - apply app_format_thrice.
Qed.
